(** * WEAPON-BALL: the deterministic simulation core ([src/simCore.ts])

    A shallow embedding of the tick-based combat simulator and the
    properties its specification states about it.

    Number model.  Every JavaScript value of type [number] that the engine
    keeps in its state is integer valued (tick, health, hit counts, scaled
    positions and velocities, angles): these are [Z].  Every expression of
    the source that leaves the integers (the real-valued fields of the
    match description, the output of the random source, the divisions by
    1000 and by [TRIG_SCALE], the collision normal) is evaluated in IEEE
    binary64, the arithmetic of JavaScript numbers, through Rocq's
    primitive floats.  [of_Z] is the boundary from the first world to the
    second, [Math_round] and [Math_floor] the boundary back.  The two
    worlds agree with the source as long as the integers stay in the
    range where binary64 is exact (magnitude at most 2^53) and no float
    becomes infinite or NaN.

    Two places of the source leave that range whatever the match
    description, and are modelled in binary64 themselves: the counter of
    the random source, which grows by a fixed stride with every draw and
    is rounded from 2^53 on ([JS.num]), and the conversion of a number to
    text ([numString]), which prints every digit of an integer up to 2^53
    only. *)

From Stdlib Require Import ZArith QArith Qround Lia Lqa Ascii String.
From Stdlib Require Import Floats.PrimFloat Floats.SpecFloat Floats.FloatOps.
From stdpp Require Import gmap strings pretty list.

Local Open Scope Z_scope.

(** ** JavaScript numeric primitives *)

Module JS.

(** ToInt32 and ToUint32 of an integer-valued number. *)
Definition ToUint32 (z : Z) : Z := z mod 2 ^ 32.
Definition ToInt32 (z : Z) : Z :=
  let m := z mod 2 ^ 32 in if 2 ^ 31 <=? m then m - 2 ^ 32 else m.

(** [a ^ b], [a | b], [a & b]: both operands through ToInt32. *)
Definition xor (a b : Z) : Z := Z.lxor (ToInt32 a) (ToInt32 b).
Definition or (a b : Z) : Z := Z.lor (ToInt32 a) (ToInt32 b).
Definition and (a b : Z) : Z := Z.land (ToInt32 a) (ToInt32 b).
(** [a >>> k] for a shift count below 32. *)
Definition ushr (a k : Z) : Z := Z.shiftr (ToUint32 a) k.
(** [Math.imul(a, b)]. *)
Definition imul (a b : Z) : Z := ToInt32 (ToInt32 a * ToInt32 b).

(** An integer as a binary64 number (round to nearest even beyond 2^53). *)
Definition of_Z (z : Z) : float := SF2Prim (binary_normalize prec emax z 0 false).

(** The exact rational value of a finite binary64 number; infinities and
    NaN, which the integer state cannot hold, are read as 0. *)
Definition Qval (f : float) : Q :=
  match Prim2SF f with
  | S754_finite s m e =>
      let v := if s then Z.neg m else Z.pos m in
      if 0 <=? e then inject_Z (v * 2 ^ e) else Qmake v (Z.to_pos (2 ^ (- e)))
  | _ => 0%Q
  end.

(** The integer a finite binary64 number with no fractional part stands
    for; the other numbers of the format are read as 0. *)
Definition SFval (f : spec_float) : Z :=
  match f with
  | S754_finite s m e =>
      let v := if 0 <=? e then Z.pos m * 2 ^ e else Z.pos m / 2 ^ (- e) in
      if s then - v else v
  | _ => 0
  end.

(** The Number value for an integer: the binary64 number nearest to it,
    the one with the even mantissa of two equally near.  This is what
    the sum of two integer-valued numbers is in the source when the exact
    sum is [z]. *)
Definition num (z : Z) : Z := SFval (binary_normalize prec emax z 0 false).

(** [Math.floor]: the greatest integer not above the argument. *)
Definition Math_floor (f : float) : Z := Qfloor (Qval f).

(** [Math.round]: ECMAScript rounds to the closest integer and, of two
    equally close integers, picks the one closer to +infinity, that is
    floor(x + 1/2) computed exactly. *)
Definition Qround_half_up (q : Q) : Z := Qfloor (q + (1 # 2))%Q.
Definition Math_round (f : float) : Z := Qround_half_up (Qval f).

End JS.

(** [n] is the integer nearest to [q], the upper one of the two when [q]
    lies halfway between them. *)
Definition nearestTiesUp (q : Q) (n : Z) : Prop :=
  (q - (1 # 2) < inject_Z n /\ inject_Z n <= q + (1 # 2))%Q.

(** ** Data model *)

Record Vec (T : Type) : Type := mkVec { vx : T; vy : T }.
Arguments mkVec {T} _ _.
Arguments vx {T} _.
Arguments vy {T} _.

Record WeaponDef : Type := mkWeaponDef {
  w_reach : float;
  w_tipRadius : float;
  w_omega : Z;        (* angle units per tick *)
  w_baseDamage : Z;
  w_ramp : Z;
  w_speedMult : Z     (* 1000 = 1.0x *)
}.

Inductive BallId : Type := IdA | IdB.

Record BallSpec : Type := mkBallSpec {
  b_id : BallId;
  b_hp : Z;
  b_radius : float;
  b_pos : Vec float;
  b_vel : Vec float;
  b_weaponId : string;
  b_restitution : option Z   (* 1000ths *)
}.

Record MatchSpec : Type := mkMatchSpec {
  seed : Z;
  weaponSetVersion : option string;
  sim_scale : Z;
  sim_maxTicks : Z;
  arena_w : float;
  arena_h : float;
  arena_wallRestitution : Z;
  weapons : gmap string WeaponDef;
  ballA : BallSpec;
  ballB : BallSpec
}.

Inductive Side : Type := SideL | SideR | SideT | SideB.

Inductive Event : Type :=
| EvWall (t : Z) (id : BallId) (side : Side)
| EvCollide (t : Z) (a b : BallId)
| EvHit (t : Z) (from to : BallId) (dmg : Z)
| EvDead (t : Z) (id : BallId)
| EvTimeout (t : Z) (winner : BallId).

Record BallState : Type := mkBallState {
  id : BallId;
  hp : Z;
  r : Z;
  pos : Vec Z;
  vel : Vec Z;
  theta : Z;
  omega : Z;
  weaponReach : Z;
  tipR : Z;
  baseDamage : Z;
  ramp : Z;
  hitCount : Z;
  alive : bool;
  speedMult : Z;
  damageDealt : Z;
  restitution : Z
}.

(** [rng] is the counter captured by the closure [mulberry32] returns. *)
Record SimState : Type := mkSimState {
  spec : MatchSpec;
  SCALE : Z;
  arenaW : Z;
  arenaH : Z;
  wallRest : Z;
  tick : Z;
  simA : BallState;
  simB : BallState;
  events : list Event;
  rng : Z;
  done : bool;
  winner : option BallId
}.

Global Instance BallId_eq_dec : EqDecision BallId.
Proof. solve_decision. Defined.
Global Instance Side_eq_dec : EqDecision Side.
Proof. solve_decision. Defined.
Global Instance Event_eq_dec : EqDecision Event.
Proof. solve_decision. Defined.

(** ** Deterministic PRNG *)

(** [mulberry32 seed]: the initial counter, [seed >>> 0]. *)
Definition mulberry32 (seed : Z) : Z := JS.ushr seed 0.

(** One call of the closure: the value returned and the new counter.  The
    counter is a plain number that [+=] never wraps: the sum is a
    binary64 sum, exact up to 2^53 and rounded beyond; only the bit
    operations read it modulo 2^32. *)
Definition rng_draw (t0 : Z) : Z * Z :=
  let t := JS.num (t0 + 0x6D2B79F5) in
  let x := JS.imul (JS.xor t (JS.ushr t 15)) (JS.or 1 t) in
  let x := JS.xor x (x + JS.imul (JS.xor x (JS.ushr x 7)) (JS.or 61 x)) in
  (JS.ushr (JS.xor x (JS.ushr x 14)) 0, t).

Definition rng_next (t0 : Z) : float * Z :=
  let '(n, t) := rng_draw t0 in ((JS.of_Z n / 4294967296)%float, t).

(** ** Trig lookup *)

Definition ANGLE_FULL : Z := 65536.
Definition TRIG_SCALE : Z := 1000000.

Definition other (b : BallId) : BallId :=
  match b with IdA => IdB | IdB => IdA end.

(** Field updates ([ball.hp = ...], [state.tick = ...]). *)
Definition set_hp (v : Z) (b : BallState) : BallState :=
  mkBallState (id b) v (r b) (pos b) (vel b) (theta b) (omega b) (weaponReach b)
    (tipR b) (baseDamage b) (ramp b) (hitCount b) (alive b) (speedMult b)
    (damageDealt b) (restitution b).
Definition set_pos (v : Vec Z) (b : BallState) : BallState :=
  mkBallState (id b) (hp b) (r b) v (vel b) (theta b) (omega b) (weaponReach b)
    (tipR b) (baseDamage b) (ramp b) (hitCount b) (alive b) (speedMult b)
    (damageDealt b) (restitution b).
Definition set_vel (v : Vec Z) (b : BallState) : BallState :=
  mkBallState (id b) (hp b) (r b) (pos b) v (theta b) (omega b) (weaponReach b)
    (tipR b) (baseDamage b) (ramp b) (hitCount b) (alive b) (speedMult b)
    (damageDealt b) (restitution b).
Definition set_theta (v : Z) (b : BallState) : BallState :=
  mkBallState (id b) (hp b) (r b) (pos b) (vel b) v (omega b) (weaponReach b)
    (tipR b) (baseDamage b) (ramp b) (hitCount b) (alive b) (speedMult b)
    (damageDealt b) (restitution b).
Definition set_hitCount (v : Z) (b : BallState) : BallState :=
  mkBallState (id b) (hp b) (r b) (pos b) (vel b) (theta b) (omega b) (weaponReach b)
    (tipR b) (baseDamage b) (ramp b) v (alive b) (speedMult b)
    (damageDealt b) (restitution b).
Definition set_alive (v : bool) (b : BallState) : BallState :=
  mkBallState (id b) (hp b) (r b) (pos b) (vel b) (theta b) (omega b) (weaponReach b)
    (tipR b) (baseDamage b) (ramp b) (hitCount b) v (speedMult b)
    (damageDealt b) (restitution b).
Definition set_damageDealt (v : Z) (b : BallState) : BallState :=
  mkBallState (id b) (hp b) (r b) (pos b) (vel b) (theta b) (omega b) (weaponReach b)
    (tipR b) (baseDamage b) (ramp b) (hitCount b) (alive b) (speedMult b)
    v (restitution b).

Definition set_x {T} (v : T) (p : Vec T) : Vec T := mkVec v (vy p).
Definition set_y {T} (v : T) (p : Vec T) : Vec T := mkVec (vx p) v.

Definition set_tick (v : Z) (s : SimState) : SimState :=
  mkSimState (spec s) (SCALE s) (arenaW s) (arenaH s) (wallRest s) v
    (simA s) (simB s) (events s) (rng s) (done s) (winner s).
Definition set_simA (v : BallState) (s : SimState) : SimState :=
  mkSimState (spec s) (SCALE s) (arenaW s) (arenaH s) (wallRest s) (tick s)
    v (simB s) (events s) (rng s) (done s) (winner s).
Definition set_simB (v : BallState) (s : SimState) : SimState :=
  mkSimState (spec s) (SCALE s) (arenaW s) (arenaH s) (wallRest s) (tick s)
    (simA s) v (events s) (rng s) (done s) (winner s).
Definition set_events (v : list Event) (s : SimState) : SimState :=
  mkSimState (spec s) (SCALE s) (arenaW s) (arenaH s) (wallRest s) (tick s)
    (simA s) (simB s) v (rng s) (done s) (winner s).
Definition set_rng (v : Z) (s : SimState) : SimState :=
  mkSimState (spec s) (SCALE s) (arenaW s) (arenaH s) (wallRest s) (tick s)
    (simA s) (simB s) (events s) v (done s) (winner s).
(** [state.done = true; state.winner = w]. *)
Definition finish (w : BallId) (s : SimState) : SimState :=
  mkSimState (spec s) (SCALE s) (arenaW s) (arenaH s) (wallRest s) (tick s)
    (simA s) (simB s) (events s) (rng s) true (Some w).

(** The two combatant records of a state are addressed by slot: the
    source passes [state.A] and [state.B] themselves, which are two
    distinct objects for the whole run. *)
Definition ball (s : SimState) (b : BallId) : BallState :=
  match b with IdA => simA s | IdB => simB s end.
Definition set_ball (b : BallId) (v : BallState) (s : SimState) : SimState :=
  match b with IdA => set_simA v s | IdB => set_simB v s end.
Definition push (e : Event) (s : SimState) : SimState :=
  set_events (events s ++ [e]) s.

(** ** Helpers *)

Definition scaleVec (v : Vec float) (scale : Z) : Vec Z :=
  mkVec (JS.Math_round (vx v * JS.of_Z scale)%float)
        (JS.Math_round (vy v * JS.of_Z scale)%float).

Definition dist2 (a b : Vec Z) : Z :=
  let dx := vx a - vx b in
  let dy := vy a - vy b in
  dx * dx + dy * dy.

Definition approxInvSqrt (n : Z) : float := (1 / PrimFloat.sqrt (JS.of_Z n))%float.

(** [Math.round(n / d)] for two integer-valued numbers. *)
Definition round_div (n d : Z) : Z := JS.Math_round (JS.of_Z n / JS.of_Z d)%float.

(** ** Frames

    What the physics steps of a tick leave alone. *)

(** The fields of a combatant that only a hit writes, and the fields of a
    state that only the controller writes. *)
Definition vitals (b : BallState) :=
  (id b, hp b, r b, omega b, weaponReach b, tipR b, baseDamage b, ramp b,
   hitCount b, alive b, speedMult b, damageDealt b, restitution b).
Definition control (s : SimState) :=
  (spec s, SCALE s, arenaW s, arenaH s, wallRest s, tick s, rng s, done s, winner s).

Definition isPhysical (ev : Event) : Prop :=
  match ev with
  | EvWall _ _ _ | EvCollide _ _ _ => True
  | _ => False
  end.

(** [physics s s']: [s'] differs from [s] in positions, velocities and
    angles only, and in wall and collide events appended to the log. *)
Definition physics (s s' : SimState) : Prop :=
  control s' = control s /\
  (forall c, vitals (ball s' c) = vitals (ball s c)) /\
  exists evs, events s' = events s ++ evs /\ Forall isPhysical evs.

(** What a call returns or throws ([throw new Error(msg)]).  [Malformed]
    is a call that returns, but an object some of whose number fields are
    [NaN] or [undefined]: the integer state of this model cannot hold such
    an object, and the model does not follow it further. *)
Inductive result (T : Type) : Type :=
| Ok (v : T)
| Throw (msg : string)
| Malformed.
Arguments Ok {T} _.
Arguments Throw {T} _.
Arguments Malformed {T}.

(** The property names every plain object inherits from
    [Object.prototype] (ECMAScript 2023, 20.1.3 and B.2.2.1): the weapon
    mapping of a description read from JSON is such an object. *)
Definition Object_prototype_names : list string :=
  ["constructor"; "hasOwnProperty"; "isPrototypeOf"; "propertyIsEnumerable";
   "toLocaleString"; "toString"; "valueOf"; "__proto__";
   "__defineGetter__"; "__defineSetter__"; "__lookupGetter__"; "__lookupSetter__"].

(** [weapons[id]]: an entry of the mapping itself, or else what the
    mapping inherits under that name (a function or the prototype object:
    truthy, and no weapon), or else [undefined]. *)
Inductive Property : Type :=
| Own (w : WeaponDef)
| Inherited
| Undefined.

Definition Get (ws : gmap string WeaponDef) (id : string) : Property :=
  match ws !! id with
  | Some w => Own w
  | None => if bool_decide (id ∈ Object_prototype_names) then Inherited else Undefined
  end.

(** ** Core engine *)

Section Engine.

(** The two 65536-entry tables the module fills once at load time with
    [Math.round(Math.cos(rad) * TRIG_SCALE)] and the same for the sine.
    ECMAScript leaves the precision of [Math.cos] and [Math.sin] to the
    implementation, so the tables are parameters of the engine. *)
Variables COS SIN : Z -> Z.

Definition weaponTipScaled (b : BallState) : Vec Z :=
  let c := COS (theta b) in
  let s := SIN (theta b) in
  mkVec (vx (pos b) + round_div (weaponReach b * c) TRIG_SCALE)
        (vy (pos b) + round_div (weaponReach b * s) TRIG_SCALE).

Definition applyWallBounce (state : SimState) (b : BallId) : SimState :=
  let t := tick state in
  let rest := wallRest state in
  let bl := ball state b in
  let state :=
    if vx (pos bl) - r bl <? 0 then
      let bl := set_pos (set_x (r bl) (pos bl)) bl in
      let bl := set_vel (set_x (round_div (- vx (vel bl) * rest) 1000) (vel bl)) bl in
      push (EvWall t (id bl) SideL) (set_ball b bl state)
    else if vx (pos bl) + r bl >? arenaW state then
      let bl := set_pos (set_x (arenaW state - r bl) (pos bl)) bl in
      let bl := set_vel (set_x (round_div (- vx (vel bl) * rest) 1000) (vel bl)) bl in
      push (EvWall t (id bl) SideR) (set_ball b bl state)
    else state in
  let bl := ball state b in
  if vy (pos bl) - r bl <? 0 then
    let bl := set_pos (set_y (r bl) (pos bl)) bl in
    let bl := set_vel (set_y (round_div (- vy (vel bl) * rest) 1000) (vel bl)) bl in
    push (EvWall t (id bl) SideT) (set_ball b bl state)
  else if vy (pos bl) + r bl >? arenaH state then
    let bl := set_pos (set_y (arenaH state - r bl) (pos bl)) bl in
    let bl := set_vel (set_y (round_div (- vy (vel bl) * rest) 1000) (vel bl)) bl in
    push (EvWall t (id bl) SideB) (set_ball b bl state)
  else state.

(** [resolveBallBallCollision(state, A, B)], with the helper it calls for
    the inverse square root as an argument; the engine passes
    [approxInvSqrt]. *)
Definition resolveBallBallCollision_with (invSqrt : Z -> float)
    (state : SimState) : SimState :=
  let A := simA state in
  let B := simB state in
  if negb (alive A) || negb (alive B) then state else
  let dx := vx (pos B) - vx (pos A) in
  let dy := vy (pos B) - vy (pos A) in
  let rSum := r A + r B in
  let d2 := dx * dx + dy * dy in
  if d2 =? 0 then state else
  if d2 >? rSum * rSum then state else
  let invLen := invSqrt d2 in
  let nx := (JS.of_Z dx * invLen)%float in
  let ny := (JS.of_Z dy * invLen)%float in
  let rvx := vx (vel B) - vx (vel A) in
  let rvy := vy (vel B) - vy (vel A) in
  let velAlongNormal := (JS.of_Z rvx * nx + JS.of_Z rvy * ny)%float in
  let e := (JS.of_Z (Z.min (restitution A) (restitution B)) / 1000)%float in
  let invMassA := 1%float in
  let invMassB := 1%float in
  let j := (PrimFloat.opp (1 + e) * velAlongNormal / (invMassA + invMassB))%float in
  let impulseX := (j * nx)%float in
  let impulseY := (j * ny)%float in
  let A := set_vel (set_x (vx (vel A) - JS.Math_round (impulseX * invMassA)%float) (vel A)) A in
  let A := set_vel (set_y (vy (vel A) - JS.Math_round (impulseY * invMassA)%float) (vel A)) A in
  let B := set_vel (set_x (vx (vel B) + JS.Math_round (impulseX * invMassB)%float) (vel B)) B in
  let B := set_vel (set_y (vy (vel B) + JS.Math_round (impulseY * invMassB)%float) (vel B)) B in
  let state := push (EvCollide (tick state) (id A) (id B)) (set_simB B (set_simA A state)) in
  let dist := (1 / invLen)%float in
  let overlap := (JS.of_Z rSum - dist)%float in
  if (0 <? overlap)%float then
    let pushX := (nx * (overlap / 2))%float in
    let pushY := (ny * (overlap / 2))%float in
    let A := set_pos (set_x (vx (pos A) - JS.Math_round pushX) (pos A)) A in
    let A := set_pos (set_y (vy (pos A) - JS.Math_round pushY) (pos A)) A in
    let B := set_pos (set_x (vx (pos B) + JS.Math_round pushX) (pos B)) B in
    let B := set_pos (set_y (vy (pos B) + JS.Math_round pushY) (pos B)) B in
    set_simB B (set_simA A state)
  else state.

Definition resolveBallBallCollision : SimState -> SimState :=
  resolveBallBallCollision_with approxInvSqrt.

(** The damage of the hit that brings the attacker's count to [n]. *)
Definition hitDamage (attacker : BallState) (n : Z) : Z :=
  baseDamage attacker + ramp attacker * (n - 1).

(** The test [dist2(tip, victim.pos) <= rr * rr]. *)
Definition tipTouches (attacker victim : BallState) : bool :=
  let tip := weaponTipScaled attacker in
  let rr := tipR attacker + r victim in
  dist2 tip (pos victim) <=? rr * rr.

(** [checkHit(state, attacker, victim)] with the attacker given by its
    slot; the victim is the other slot, as in both calls of [stepSim]. *)
Definition checkHit (state : SimState) (a : BallId) : SimState :=
  let attacker := ball state a in
  let victim := ball state (other a) in
  if negb (alive attacker) || negb (alive victim) then state else
  if tipTouches attacker victim then
    let attacker := set_hitCount (hitCount attacker + 1) attacker in
    let dmg := hitDamage attacker (hitCount attacker) in
    let victim := set_hp (hp victim - dmg) victim in
    let attacker := set_damageDealt (damageDealt attacker + dmg) attacker in
    let state := set_ball (other a) victim (set_ball a attacker state) in
    let state := push (EvHit (tick state) (id attacker) (id victim) dmg) state in
    (* Deterministic tiny jitter *)
    let '(u1, g1) := rng_next (rng state) in
    let jx := JS.Math_round ((u1 - 0.5) * 20 * JS.of_Z (SCALE state))%float in
    let '(u2, g2) := rng_next g1 in
    let jy := JS.Math_round ((u2 - 0.5) * 20 * JS.of_Z (SCALE state))%float in
    let state := set_rng g2 state in
    let victim := set_vel (set_x (vx (vel victim) + jx) (vel victim)) victim in
    let victim := set_vel (set_y (vy (vel victim) + jy) (vel victim)) victim in
    let state := set_ball (other a) victim state in
    if hp victim <=? 0 then
      let victim := set_alive false victim in
      push (EvDead (tick state) (id victim)) (set_ball (other a) victim state)
    else state
  else state.

Definition initBall (sp : MatchSpec) (scale : Z) (b : BallSpec) (jitter : Z)
    : result BallState :=
  match Get (weapons sp) (b_weaponId b) with
  | Undefined => Throw ("Unknown weaponId: " +:+ b_weaponId b)
  | Inherited => Malformed
  | Own weapon =>
      let g := mulberry32 (JS.ushr (JS.xor (seed sp) jitter) 0) in
      let '(u, _) := rng_next g in
      let theta0 := JS.ushr (JS.and (JS.Math_floor (u * JS.of_Z ANGLE_FULL)%float) 0xffff) 0 in
      Ok {| id := b_id b;
            hp := b_hp b;
            r := JS.Math_round (b_radius b * JS.of_Z scale)%float;
            pos := scaleVec (b_pos b) scale;
            vel := scaleVec (b_vel b) scale;
            theta := theta0;
            omega := w_omega weapon;
            weaponReach := JS.Math_round (w_reach weapon * JS.of_Z scale)%float;
            tipR := JS.Math_round (w_tipRadius weapon * JS.of_Z scale)%float;
            baseDamage := w_baseDamage weapon;
            ramp := w_ramp weapon;
            hitCount := 0;
            alive := true;
            speedMult := w_speedMult weapon;
            damageDealt := 0;
            restitution := default 1000 (b_restitution b) |}
  end.

Definition createSim (sp : MatchSpec) : result SimState :=
  let scale := sim_scale sp in
  let aW := JS.Math_round (arena_w sp * JS.of_Z scale)%float in
  let aH := JS.Math_round (arena_h sp * JS.of_Z scale)%float in
  match initBall sp scale (ballA sp) 0xA1B2C3D4 with
  | Throw msg => Throw msg
  | Malformed =>
      match initBall sp scale (ballB sp) 0xB4C3D2A1 with
      | Throw msg => Throw msg
      | _ => Malformed
      end
  | Ok A =>
      match initBall sp scale (ballB sp) 0xB4C3D2A1 with
      | Throw msg => Throw msg
      | Malformed => Malformed
      | Ok B =>
          Ok {| spec := sp; SCALE := scale; arenaW := aW; arenaH := aH;
                wallRest := arena_wallRestitution sp; tick := 0;
                simA := A; simB := B; events := [];
                rng := mulberry32 (seed sp); done := false; winner := None |}
      end
  end.

(** [A.alive ? "A" : "B"]. *)
Definition survivor (s : SimState) : BallId :=
  if alive (simA s) then IdA else IdB.

(** The winner at the tick ceiling, with the state after the draw the
    last rung of the ladder makes. *)
Definition timeoutWinner (s : SimState) : BallId * SimState :=
  let A := simA s in
  let B := simB s in
  if negb (hp A =? hp B) then (if hp A >? hp B then IdA else IdB, s)
  else if negb (damageDealt A =? damageDealt B)
       then (if damageDealt A >? damageDealt B then IdA else IdB, s)
  else let '(u, g) := rng_next (rng s) in
       (if (u <? 0.5)%float then IdA else IdB, set_rng g s).

(** Steps 1 and 2 of a tick for one combatant. *)
Definition rotate (b : BallState) : BallState :=
  set_theta (JS.and (theta b + omega b) 0xffff) b.
Definition move_x (b : BallState) : BallState :=
  set_pos (set_x (vx (pos b) + round_div (vx (vel b) * speedMult b) 1000) (pos b)) b.
Definition move_y (b : BallState) : BallState :=
  set_pos (set_y (vy (pos b) + round_div (vy (vel b) * speedMult b) 1000) (pos b)) b.

(** Steps 1 to 4 of a tick: everything before the two hit checks. *)
Definition beforeHits (s : SimState) : SimState :=
  (* 1) update weapon angles *)
  let s := set_simA (rotate (simA s)) s in
  let s := set_simB (rotate (simB s)) s in
  (* 2) move (speedMult scales velocity) *)
  let s := set_simA (move_y (move_x (simA s))) s in
  let s := set_simB (move_y (move_x (simB s))) s in
  (* 3) wall bounce *)
  let s := applyWallBounce s IdA in
  let s := applyWallBounce s IdB in
  (* 4) ball-ball collision *)
  resolveBallBallCollision s.

Definition stepSim (state : SimState) : SimState :=
  if done state then state else
  if negb (alive (simA state)) || negb (alive (simB state)) then
    finish (survivor state) state
  else if tick state >=? sim_maxTicks (spec state) then
    (* Timeout resolution *)
    let '(w, state) := timeoutWinner state in
    finish w (push (EvTimeout (tick state) w) state)
  else
    let state := beforeHits state in
    (* 5) hits (fixed order) *)
    let state := checkHit state IdA in
    let state := checkHit state IdB in
    let state := set_tick (tick state + 1) state in
    if negb (alive (simA state)) || negb (alive (simB state)) then
      finish (survivor state) state
    else state.

(** The driver of the command-line runner:
    [const sim = createSim(spec); while (!sim.done) stepSim(sim);].
    [fuel] bounds the number of iterations; [None] is a loop that has
    not stopped within it. *)
Fixpoint runLoop (fuel : nat) (s : SimState) : option SimState :=
  if done s then Some s else
  match fuel with
  | O => None
  | S n => runLoop n (stepSim s)
  end.

Definition runMatch (fuel : nat) (sp : MatchSpec) : result (option SimState) :=
  match createSim sp with
  | Throw msg => Throw msg
  | Malformed => Malformed
  | Ok s => Ok (runLoop fuel s)
  end.

(** *** Notions the properties are stated with *)

(** The check does something only when both combatants are alive and the
    tip touches the victim. *)
Definition lands (s : SimState) (a : BallId) : bool :=
  alive (ball s a) && alive (ball s (other a))
  && tipTouches (ball s a) (ball s (other a)).

(** What a landed hit of slot [a] turns [s] into, [s']. *)
Record hitOutcome (s : SimState) (a : BallId) (s' : SimState) : Prop := {
  ho_dmg := hitDamage (ball s a) (hitCount (ball s a) + 1);
  ho_lethal := hp (ball s (other a)) - ho_dmg <=? 0;
  ho_control :
    spec s' = spec s /\ tick s' = tick s /\ done s' = done s /\ winner s' = winner s;
  ho_attacker :
    vitals (ball s' a)
    = vitals (set_damageDealt (damageDealt (ball s a) + ho_dmg)
                (set_hitCount (hitCount (ball s a) + 1) (ball s a)));
  ho_victim :
    vitals (ball s' (other a))
    = vitals (set_alive (negb ho_lethal)
                (set_hp (hp (ball s (other a)) - ho_dmg) (ball s (other a))));
  ho_events :
    events s'
    = events s ++ EvHit (tick s) (id (ball s a)) (id (ball s (other a))) ho_dmg
                  :: (if ho_lethal then [EvDead (tick s) (id (ball s (other a)))] else [])
}.

Definition bothAlive (s : SimState) : bool := alive (simA s) && alive (simB s).

(** The state a full tick produces: steps 1 to 6. *)
Definition afterTick (s : SimState) : SimState :=
  let s := checkHit (checkHit (beforeHits s) IdA) IdB in
  set_tick (tick s + 1) s.

(** The squared distance between the two centres and the sum of the
    radii, as [resolveBallBallCollision] computes them. *)
Definition centresDist2 (s : SimState) : Z := dist2 (pos (simB s)) (pos (simA s)).
Definition radiiSum (s : SimState) : Z := r (simA s) + r (simB s).

(** [reachedIn sp n s]: [s] is the state after [n] calls of [stepSim] on
    the fresh state [createSim sp] returned. *)
Inductive reachedIn (sp : MatchSpec) : nat -> SimState -> Prop :=
| reached_fresh s0 : createSim sp = Ok s0 -> reachedIn sp 0 s0
| reached_step n s : reachedIn sp n s -> reachedIn sp (S n) (stepSim s).

(** The state on which the hit check of attacker [a] runs in the tick
    that starts from [s]: A's check comes first, B's after it. *)
Definition atCheck (s : SimState) (a : BallId) : SimState :=
  match a with
  | IdA => beforeHits s
  | IdB => checkHit (beforeHits s) IdA
  end.

(** The events a hit check of attacker [a] appends to the log of [s]. *)
Definition hitEvents (s : SimState) (a : BallId) : list Event :=
  let dmg := hitDamage (ball s a) (hitCount (ball s a) + 1) in
  if lands s a then
    EvHit (tick s) (id (ball s a)) (id (ball s (other a))) dmg
    :: (if hp (ball s (other a)) - dmg <=? 0
        then [EvDead (tick s) (id (ball s (other a)))] else [])
  else [].

(** [struck s b]: in the tick that starts from [s], the check of the
    other combatant lands on [b]. *)
Definition struck (s : SimState) (b : BallId) : bool :=
  lands (atCheck s (other b)) (other b).

(** After [n] calls: the tick counter is within its bounds, and a match
    still running has both combatants alive and has simulated exactly
    [n] ticks, none beyond the ceiling. *)
Definition runInv (sp : MatchSpec) (n : nat) (s : SimState) : Prop :=
  spec s = sp /\
  0 <= tick s <= Z.max 0 (sim_maxTicks sp) /\
  tick s <= Z.of_nat n /\
  (done s = false ->
   bothAlive s = true /\ tick s = Z.of_nat n /\ (n <= Z.to_nat (sim_maxTicks sp))%nat).

End Engine.

(** ** The tie-break ladder, in the words of the specification *)

(** The ladder in the words of the specification: strictly higher health,
    then strictly higher damage dealt, then the draw [u]. *)
Definition ladder (A B : BallState) (u : float) : BallId :=
  if hp B <? hp A then IdA
  else if hp A <? hp B then IdB
  else if damageDealt B <? damageDealt A then IdA
  else if damageDealt A <? damageDealt B then IdB
  else if (u <? 0.5)%float then IdA else IdB.

(** The ladder draws from the shared stream on its last rung only. *)
Definition tied (A B : BallState) : bool :=
  (hp A =? hp B) && (damageDealt A =? damageDealt B).


(** ** Canonical event log *)

Definition newline : ascii := ascii_of_nat 10.
Definition NL : string := String newline EmptyString.

Definition idString (b : BallId) : string :=
  match b with IdA => "A" | IdB => "B" end.
Definition sideString (s : Side) : string :=
  match s with SideL => "L" | SideR => "R" | SideT => "T" | SideB => "B" end.

(** [`${n}`] for an integer-valued number: Number::toString in radix 10
    (ECMAScript 2023, 6.1.6.1.20).  The text is that of the decimal with
    the fewest significant digits that is read back as the number:
    [shortest].  An integer up to 2^53 is that decimal itself; beyond,
    the decimals with [k] digits next to the number are tried for
    [k = 1, 2, ...], and of two that are read back as the number the
    closer one is taken, the one with the even last digit of two equally
    close.  Below 10^21 the decimal is printed digit by digit, from 10^21
    on in exponent notation. *)
Definition digits10 (x : Z) : Z := Z.of_nat (String.length (pretty x)).

Definition candidate (x d k : Z) : option Z :=
  let p := 10 ^ (d - k) in
  let lo := x / p * p in
  let hi := lo + p in
  let okLo := JS.num lo =? JS.num x in
  let okHi := JS.num hi =? JS.num x in
  if okLo && okHi then
    Some (if x - lo <? hi - x then lo
          else if hi - x <? x - lo then hi
          else if Z.even (x / p) then lo else hi)
  else if okLo then Some lo
  else if okHi then Some hi
  else None.

Fixpoint search (x d k : Z) (fuel : nat) : Z :=
  match fuel with
  | O => x
  | S fuel' =>
      if d <=? k then x else
      match candidate x d k with
      | Some v => v
      | None => search x d (k + 1) fuel'
      end
  end.

(** Seventeen digits tell any two binary64 numbers apart. *)
Definition shortest (x : Z) : Z :=
  if x <=? 2 ^ 53 then x else search x (digits10 x) 1 17.

(** [strip fuel v 0 = (m, j)]: [v] is [m] followed by [j] zeros. *)
Fixpoint strip (fuel : nat) (v j : Z) : Z * Z :=
  match fuel with
  | O => (v, j)
  | S fuel' =>
      if (0 <? v) && (v mod 10 =? 0) then strip fuel' (v / 10) (j + 1) else (v, j)
  end.

(** Exponent notation: the first digit, the other digits after a point
    when there are any, and the exponent with its sign. *)
Definition expform (v : Z) : string :=
  let '(m, j) := strip (Z.to_nat (Z.log2 v)) v 0 in
  match pretty m with
  | EmptyString => EmptyString
  | String c rest =>
      String c ((match rest with EmptyString => "" | _ => "." +:+ rest end)
                +:+ "e+" +:+ pretty (Z.of_nat (String.length rest) + j))
  end.

Definition render (v : Z) : string :=
  if v <? 10 ^ 21 then pretty v else expform v.

Definition numString (n : Z) : string :=
  if n <? 0 then "-" +:+ render (shortest (- n)) else render (shortest n).

(** The callback given to [events.map]. *)
Definition eventLine (ev : Event) : string :=
  match ev with
  | EvHit t from to dmg =>
      numString t +:+ "|hit|" +:+ idString from +:+ "|" +:+ idString to +:+ "|" +:+ numString dmg
  | EvDead t i => numString t +:+ "|dead|" +:+ idString i
  | EvWall t i side => numString t +:+ "|wall|" +:+ idString i +:+ "|" +:+ sideString side
  | EvCollide t a b => numString t +:+ "|collide|" +:+ idString a +:+ "|" +:+ idString b
  | EvTimeout t w => numString t +:+ "|timeout|" +:+ idString w
  end.

(** [Array.prototype.join]: the accumulator starts empty and takes, for
    each element after the first, the separator and then the element. *)
Fixpoint join_from (sep acc : string) (first : bool) (l : list string) : string :=
  match l with
  | [] => acc
  | s :: l' => join_from sep ((if first then acc else acc +:+ sep) +:+ s) false l'
  end.
Definition Array_join (sep : string) (l : list string) : string :=
  join_from sep "" true l.

Definition canonicalEventsString (evs : list Event) : string :=
  Array_join NL (map eventLine evs).

(** The layout of section 6 of the specification, to compare with: the
    fields of each kind of event, a line as its fields separated by the
    delimiter, the log as its lines separated by newlines. *)
Definition specFields (ev : Event) : list string :=
  match ev with
  | EvHit t from to dmg => [numString t; "hit"; idString from; idString to; numString dmg]
  | EvDead t i => [numString t; "dead"; idString i]
  | EvWall t i side => [numString t; "wall"; idString i; sideString side]
  | EvCollide t a b => [numString t; "collide"; idString a; idString b]
  | EvTimeout t w => [numString t; "timeout"; idString w]
  end.
Definition specLine (ev : Event) : string := String.concat "|" (specFields ev).

(** Cutting a text at every occurrence of a character. *)
Fixpoint splitOn (c : ascii) (s : string) : list string :=
  match s with
  | EmptyString => [EmptyString]
  | String a s' =>
      if Ascii.eqb a c then EmptyString :: splitOn c s'
      else match splitOn c s' with
           | [] => [String a EmptyString]
           | w :: ws => String a w :: ws
           end
  end.

(** Whether a character occurs in a text. *)
Fixpoint occurs (c : ascii) (s : string) : bool :=
  match s with
  | EmptyString => false
  | String a s' => Ascii.eqb a c || occurs c s'
  end.

(** ** A reference trig table

    The table computed from the formula of the source,
    [round(cos(2 pi a / 65536) * 1000000)], in fixed-point integer
    arithmetic with 40 decimal digits, the cosine and sine summed from
    their power series.  It instantiates the tables of the engine wherever
    the model is run on a concrete match. *)

Module TrigRef.

Definition ONE : Z := 10 ^ 40.
Definition pi : Z := 31415926535897932384626433832795028841971.

(** [series x2 term k n acc]: adds [n] terms of an alternating series
    whose next term is [term]; the term after it is
    [- term * x2 / (k (k + 1))]. *)
Fixpoint series (x2 term k : Z) (n : nat) (acc : Z) : Z :=
  match n with
  | O => acc
  | S n' => series x2 (- (term * x2 / ONE) / (k * (k + 1))) (k + 2) n' (acc + term)
  end.

Definition rad (a : Z) : Z := a * pi * 2 / ANGLE_FULL.
Definition cosFix (x : Z) : Z := series (x * x / ONE) ONE 1 40 0.
Definition sinFix (x : Z) : Z := series (x * x / ONE) x 2 40 0.

Definition COS (a : Z) : Z :=
  JS.Qround_half_up (Qmake (cosFix (rad a) * TRIG_SCALE) (Z.to_pos ONE)).
Definition SIN (a : Z) : Z :=
  JS.Qround_half_up (Qmake (sinFix (rad a) * TRIG_SCALE) (Z.to_pos ONE)).

End TrigRef.

(** ** Further notions *)

(** The tick an event is stamped with. *)
Definition eventTick (ev : Event) : Z :=
  match ev with
  | EvWall t _ _ | EvCollide t _ _ | EvHit t _ _ _ | EvDead t _ | EvTimeout t _ => t
  end.

(** A log whose ticks never decrease from one event to a later one. *)
Definition tickOrdered (l : list Event) : Prop :=
  forall (i j : nat) e1 e2,
    (i <= j)%nat -> l !! i = Some e1 -> l !! j = Some e2 -> eventTick e1 <= eventTick e2.

(** The two bodies overlap without their centres coinciding, both alive:
    the case in which [resolveBallBallCollision] acts. *)
Definition overlapping (s : SimState) : bool :=
  alive (simA s) && alive (simB s)
  && (0 <? centresDist2 s) && (centresDist2 s <=? radiiSum s * radiiSum s).

(** Steps 1 and 2 of a tick, as [beforeHits] runs them: both weapons
    turned, then both combatants moved. *)
Definition afterMove (s : SimState) : SimState :=
  let s := set_simA (rotate (simA s)) s in
  let s := set_simB (rotate (simB s)) s in
  let s := set_simA (move_y (move_x (simA s))) s in
  set_simB (move_y (move_x (simB s))) s.

(** [grows s s']: from [s] to [s'] the tick counter and the weapon angles
    stay, and the log grows by events stamped with that tick. *)
Definition grows (s s' : SimState) : Prop :=
  tick s' = tick s /\
  (forall c, theta (ball s' c) = theta (ball s c)) /\
  exists evs, events s' = events s ++ evs /\ Forall (fun e => eventTick e = tick s) evs.

(** The constant every call of the generator adds to its counter. *)
Definition rngStride : Z := 0x6D2B79F5.

(** The field delimiter of a line of the canonical log. *)
Definition bar : ascii := "|"%char.

(** The integers that are binary64 numbers, the values a field of type
    [number] can hold; the events whose tick and damage are such. *)
Definition isNumber (z : Z) : Prop := JS.num z = z.
Definition numberFields (ev : Event) : Prop :=
  isNumber (eventTick ev) /\
  match ev with EvHit _ _ _ dmg => isNumber dmg | _ => True end.

(** The description a slot is created from: [state.A] from [spec.ballA],
    [state.B] from [spec.ballB]. *)
Definition ballSpec (sp : MatchSpec) (c : BallId) : BallSpec :=
  match c with IdA => ballA sp | IdB => ballB sp end.





(** The log is ordered by tick and no event is younger than the counter. *)
Definition dated (s : SimState) : Prop :=
  tickOrdered (events s) /\
  Forall (fun e => 0 <= eventTick e <= tick s) (events s) /\
  (done s = false -> Forall (fun e => eventTick e < tick s) (events s)).

(** [verdict s w]: [w] is alive, and either the other combatant is dead
    and the log ends with the lethal hit and the death, or both are alive
    at the tick ceiling and the log ends with the timeout line. *)
Definition verdict (s : SimState) (w : BallId) : Prop :=
  alive (ball s w) = true /\
  ((alive (ball s (other w)) = false /\
    exists pre dmg,
      events s = pre ++ [EvHit (tick s - 1) (id (ball s w)) (id (ball s (other w))) dmg;
                         EvDead (tick s - 1) (id (ball s (other w)))]) \/
   (alive (ball s (other w)) = true /\ sim_maxTicks (spec s) <= tick s /\
    exists pre, events s = pre ++ [EvTimeout (tick s) w])).

(** A running state has no winner and both combatants alive; a finished
    one has a winner with its verdict. *)
Definition settled (s : SimState) : Prop :=
  (done s = false -> winner s = None /\ bothAlive s = true) /\
  (done s = true -> exists w, winner s = Some w /\ verdict s w).

(** The draw of the last rung of the ladder: 1 for a match that ended at
    the ceiling with health and damage tied, 0 otherwise. *)
Definition tieDraw (s : SimState) : Z :=
  if done s && bothAlive s && tied (simA s) (simB s) then 1 else 0.

(** The counter after one more call of the generator. *)
Definition rng_step (t : Z) : Z := (rng_draw t).2.

(** The calls made on the shared stream since the state was created: two
    for every landed hit, and the draw of the last rung. *)
Definition draws (s : SimState) : Z :=
  2 * (hitCount (simA s) + hitCount (simB s)) + tieDraw s.

(** The counter [k] calls after the seed was read. *)
Definition streamAt (seed k : Z) : Z :=
  Nat.iter (Z.to_nat k) rng_step (mulberry32 seed).

(** The counter stands two calls further for every hit that has landed. *)
Definition hitsDrawn (seed : Z) (s : SimState) : Prop :=
  0 <= hitCount (simA s) /\ 0 <= hitCount (simB s) /\
  rng s = streamAt seed (2 * (hitCount (simA s) + hitCount (simB s))).

(** The counter stands where the calls made so far have brought it. *)
Definition streamed (seed : Z) (s : SimState) : Prop :=
  0 <= hitCount (simA s) /\ 0 <= hitCount (simB s) /\
  rng s = streamAt seed (draws s).

(** The fields of a combatant and of a state that are written once, at
    creation. *)
Definition statics (b : BallState) :=
  (id b, r b, omega b, weaponReach b, tipR b, baseDamage b, ramp b, speedMult b,
   restitution b).
Definition arena (s : SimState) := (spec s, SCALE s, arenaW s, arenaH s, wallRest s).

Definition fixedFrom (s0 s : SimState) : Prop :=
  arena s = arena s0 /\ forall c, statics (ball s c) = statics (ball s0 c).

(** [s] carrying another description: what [state.spec = sp] would make
    of it.  The engine never does this; it is the yardstick for what a
    run reads of its description. *)
Definition set_spec (sp : MatchSpec) (s : SimState) : SimState :=
  mkSimState sp (SCALE s) (arenaW s) (arenaH s) (wallRest s) (tick s)
    (simA s) (simB s) (events s) (rng s) (done s) (winner s).

(** Two descriptions that agree on everything [createSim] and [stepSim]
    read: the seed modulo 2^32, the scale and the tick ceiling, the
    arena, the two combatants and the two weapons they name. *)
Definition sameMatch (sp sp' : MatchSpec) : Prop :=
  JS.ToUint32 (seed sp') = JS.ToUint32 (seed sp) /\
  sim_scale sp' = sim_scale sp /\ sim_maxTicks sp' = sim_maxTicks sp /\
  arena_w sp' = arena_w sp /\ arena_h sp' = arena_h sp /\
  arena_wallRestitution sp' = arena_wallRestitution sp /\
  ballA sp' = ballA sp /\ ballB sp' = ballB sp /\
  weapons sp' !! b_weaponId (ballA sp) = weapons sp !! b_weaponId (ballA sp) /\
  weapons sp' !! b_weaponId (ballB sp) = weapons sp !! b_weaponId (ballB sp).

(** The two halves of [applyWallBounce]: the test of the top and bottom
    walls comes after that of the left and right walls and reads the
    combatant the first half left;
    the tick and the restitution were read before either. *)
Definition wallX (state : SimState) (b : BallId) : SimState :=
  let t := tick state in
  let rest := wallRest state in
  let bl := ball state b in
  if vx (pos bl) - r bl <? 0 then
    let bl := set_pos (set_x (r bl) (pos bl)) bl in
    let bl := set_vel (set_x (round_div (- vx (vel bl) * rest) 1000) (vel bl)) bl in
    push (EvWall t (id bl) SideL) (set_ball b bl state)
  else if vx (pos bl) + r bl >? arenaW state then
    let bl := set_pos (set_x (arenaW state - r bl) (pos bl)) bl in
    let bl := set_vel (set_x (round_div (- vx (vel bl) * rest) 1000) (vel bl)) bl in
    push (EvWall t (id bl) SideR) (set_ball b bl state)
  else state.

Definition wallY (t rest : Z) (state : SimState) (b : BallId) : SimState :=
  let bl := ball state b in
  if vy (pos bl) - r bl <? 0 then
    let bl := set_pos (set_y (r bl) (pos bl)) bl in
    let bl := set_vel (set_y (round_div (- vy (vel bl) * rest) 1000) (vel bl)) bl in
    push (EvWall t (id bl) SideT) (set_ball b bl state)
  else if vy (pos bl) + r bl >? arenaH state then
    let bl := set_pos (set_y (arenaH state - r bl) (pos bl)) bl in
    let bl := set_vel (set_y (round_div (- vy (vel bl) * rest) 1000) (vel bl)) bl in
    push (EvWall t (id bl) SideB) (set_ball b bl state)
  else state.

(** [appends k s s']: the log of [s'] is the log of [s] with at most [k]
    events after it. *)
Definition appends (k : nat) (s s' : SimState) : Prop :=
  exists evs, events s' = events s ++ evs /\ (length evs <= k)%nat.

(** ** Canonical inputs *)

(** The object [canonicalInputs] returns: the fields of the description,
    with ["none"] in the place of an absent version label
    ([spec.weaponSetVersion ?? "none"]). *)
Record CanonicalInputs : Type := mkCanonicalInputs {
  ci_seed : Z;
  ci_weaponSetVersion : string;
  ci_sim : Z * Z;
  ci_arena : float * float * Z;
  ci_weapons : gmap string WeaponDef;
  ci_ballA : BallSpec;
  ci_ballB : BallSpec
}.

Definition canonicalInputs (sp : MatchSpec) : CanonicalInputs :=
  {| ci_seed := seed sp;
     ci_weaponSetVersion := default "none" (weaponSetVersion sp);
     ci_sim := (sim_scale sp, sim_maxTicks sp);
     ci_arena := (arena_w sp, arena_h sp, arena_wallRestitution sp);
     ci_weapons := weapons sp;
     ci_ballA := ballA sp;
     ci_ballB := ballB sp |}.

(** ** Sample matches

    Concrete match descriptions on which the model is run. *)

Definition sword : WeaponDef :=
  {| w_reach := 40; w_tipRadius := 8; w_omega := 900;
     w_baseDamage := 5; w_ramp := 1; w_speedMult := 1000 |}.

Definition duel : MatchSpec :=
  {| seed := 1; weaponSetVersion := None; sim_scale := 1000; sim_maxTicks := 3;
     arena_w := 1000; arena_h := 600; arena_wallRestitution := 1000;
     weapons := {[ "sword" := sword ]};
     ballA := {| b_id := IdA; b_hp := 100; b_radius := 20;
                 b_pos := mkVec 200%float 300%float;
                 b_vel := mkVec 3%float 1%float;
                 b_weaponId := "sword"; b_restitution := None |};
     ballB := {| b_id := IdB; b_hp := 100; b_radius := 20;
                 b_pos := mkVec 800%float 300%float;
                 b_vel := mkVec (-3)%float 2%float;
                 b_weaponId := "sword"; b_restitution := Some 900 |} |}.

(** Two combatants at rest, fifty units apart, each with a weapon whose
    tip sits on its centre and reaches the other; the second one has just
    the health one hit takes. *)
Definition mace : WeaponDef :=
  {| w_reach := 0; w_tipRadius := 50; w_omega := 0;
     w_baseDamage := 10; w_ramp := 0; w_speedMult := 1000 |}.

Definition ambush : MatchSpec :=
  {| seed := 1; weaponSetVersion := None; sim_scale := 1; sim_maxTicks := 5;
     arena_w := 1000; arena_h := 1000; arena_wallRestitution := 1000;
     weapons := {[ "mace" := mace ]};
     ballA := {| b_id := IdA; b_hp := 100; b_radius := 10;
                 b_pos := mkVec 100%float 100%float;
                 b_vel := mkVec 0%float 0%float;
                 b_weaponId := "mace"; b_restitution := None |};
     ballB := {| b_id := IdB; b_hp := 10; b_radius := 10;
                 b_pos := mkVec 150%float 100%float;
                 b_vel := mkVec 0%float 0%float;
                 b_weaponId := "mace"; b_restitution := None |} |}.



(** The duel again, the combatants starting at health 0 and -3. *)
Definition undead : MatchSpec :=
  {| seed := 1; weaponSetVersion := None; sim_scale := 1000; sim_maxTicks := 3;
     arena_w := 1000; arena_h := 600; arena_wallRestitution := 1000;
     weapons := {[ "sword" := sword ]};
     ballA := {| b_id := IdA; b_hp := 0; b_radius := 20;
                 b_pos := mkVec 200%float 300%float;
                 b_vel := mkVec 3%float 1%float;
                 b_weaponId := "sword"; b_restitution := None |};
     ballB := {| b_id := IdB; b_hp := -3; b_radius := 20;
                 b_pos := mkVec 800%float 300%float;
                 b_vel := mkVec (-3)%float 2%float;
                 b_weaponId := "sword"; b_restitution := Some 900 |} |}.


(** The duel again under another seed of the same residue modulo 2^32,
    with a version label and a weapon nobody carries. *)
Definition rematch : MatchSpec :=
  {| seed := 4294967297; weaponSetVersion := Some "v2"; sim_scale := 1000;
     sim_maxTicks := 3;
     arena_w := 1000; arena_h := 600; arena_wallRestitution := 1000;
     weapons := {[ "sword" := sword; "mace" := mace ]};
     ballA := ballA duel; ballB := ballB duel |}.

(** The duel again, labelled ["none"]. *)
Definition labelled : MatchSpec :=
  {| seed := 1; weaponSetVersion := Some "none"; sim_scale := 1000; sim_maxTicks := 3;
     arena_w := 1000; arena_h := 600; arena_wallRestitution := 1000;
     weapons := {[ "sword" := sword ]};
     ballA := ballA duel; ballB := ballB duel |}.



(** The duel again, the first combatant carrying a weapon the mapping
    does not hold, under a name every object inherits. *)
Definition hijacked : MatchSpec :=
  {| seed := 1; weaponSetVersion := None; sim_scale := 1000; sim_maxTicks := 3;
     arena_w := 1000; arena_h := 600; arena_wallRestitution := 1000;
     weapons := {[ "sword" := sword ]};
     ballA := {| b_id := IdA; b_hp := 100; b_radius := 20;
                 b_pos := mkVec 200%float 300%float;
                 b_vel := mkVec 3%float 1%float;
                 b_weaponId := "constructor"; b_restitution := None |};
     ballB := ballB duel |}.

(** The duel again, the second combatant carrying a weapon the mapping
    does not hold under a name no object inherits. *)
Definition unarmed : MatchSpec :=
  {| seed := 1; weaponSetVersion := None; sim_scale := 1000; sim_maxTicks := 3;
     arena_w := 1000; arena_h := 600; arena_wallRestitution := 1000;
     weapons := {[ "sword" := sword ]};
     ballA := ballA duel;
     ballB := {| b_id := IdB; b_hp := 100; b_radius := 20;
                 b_pos := mkVec 800%float 300%float;
                 b_vel := mkVec (-3)%float 2%float;
                 b_weaponId := "axe"; b_restitution := Some 900 |} |}.

(** * Properties *)

Arguments JS.Math_round : simpl never.
Arguments JS.Math_floor : simpl never.
Arguments JS.of_Z : simpl never.
Arguments round_div : simpl never.
Arguments rng_next : simpl never.
Arguments approxInvSqrt : simpl never.
Arguments mulberry32 : simpl never.
Arguments JS.and : simpl never.
Arguments JS.ushr : simpl never.
Arguments JS.xor : simpl never.

(** ** Rounding *)

Lemma Qround_half_up_nearest q : nearestTiesUp q (JS.Qround_half_up q).
Proof.
  unfold nearestTiesUp, JS.Qround_half_up.
  pose proof (Qfloor_le (q + (1 # 2))) as Hle.
  pose proof (Qlt_floor (q + (1 # 2))) as Hlt.
  rewrite inject_Z_plus in Hlt. change (inject_Z 1) with 1%Q in Hlt.
  split; lra.
Qed.

Lemma Qround_half_up_tie q k :
  (q == inject_Z k + (1 # 2))%Q -> JS.Qround_half_up q = k + 1.
Proof.
  intros H. unfold JS.Qround_half_up.
  assert (E : (q + (1 # 2) == inject_Z (k + 1))%Q).
  { rewrite H, inject_Z_plus. change (inject_Z 1) with 1%Q. lra. }
  rewrite (Qfloor_comp _ _ E). apply Qfloor_Z.
Qed.

(** C5, as amended: every conversion into the scaled integer domain goes
    through [Math.round], which returns the integer nearest to the exact
    value of its binary64 argument and, for an argument halfway between
    two integers, the upper one: for a negative tie that is the integer of
    smaller magnitude (-0.5 gives 0, -2.5 gives -2).  This holds of the
    scaling of positions and velocities ([scaleVec]), of radius, reach and
    tip radius at initialization, and of the per-tick divisions
    [round(velocity * speedMult / 1000)]. *)
Theorem rounding_is_nearest_ties_up :
  (forall f, nearestTiesUp (JS.Qval f) (JS.Math_round f)) /\
  (forall f k, (JS.Qval f == inject_Z k + (1 # 2))%Q -> JS.Math_round f = k + 1) /\
  (JS.Math_round (-0.5)%float = 0 /\ JS.Math_round (-2.5)%float = -2 /\
   JS.Math_round (2.5)%float = 3) /\
  (forall v scale,
     nearestTiesUp (JS.Qval (vx v * JS.of_Z scale)%float) (vx (scaleVec v scale)) /\
     nearestTiesUp (JS.Qval (vy v * JS.of_Z scale)%float) (vy (scaleVec v scale))) /\
  (forall sp scale b j bs,
     initBall sp scale b j = Ok bs ->
     exists w, weapons sp !! b_weaponId b = Some w /\
       r bs = JS.Math_round (b_radius b * JS.of_Z scale)%float /\
       pos bs = scaleVec (b_pos b) scale /\ vel bs = scaleVec (b_vel b) scale /\
       weaponReach bs = JS.Math_round (w_reach w * JS.of_Z scale)%float /\
       tipR bs = JS.Math_round (w_tipRadius w * JS.of_Z scale)%float) /\
  (forall b,
     nearestTiesUp (JS.Qval (JS.of_Z (vx (vel b) * speedMult b) / JS.of_Z 1000)%float)
                   (vx (pos (move_x b)) - vx (pos b)) /\
     nearestTiesUp (JS.Qval (JS.of_Z (vy (vel b) * speedMult b) / JS.of_Z 1000)%float)
                   (vy (pos (move_y b)) - vy (pos b))).
Proof.
  split; [intros f; apply Qround_half_up_nearest|].
  split; [intros f k; apply Qround_half_up_tie|].
  split; [vm_compute; repeat split|].
  split; [intros v scale; split; apply Qround_half_up_nearest|].
  split.
  - intros sp scale b j bs. unfold initBall, Get.
    destruct (weapons sp !! b_weaponId b) as [w|]; [|by case_bool_decide].
    destruct (rng_next _) as [u g]. intros [= <-]. exists w. cbn. repeat split.
  - intros b. unfold move_x, move_y, round_div. cbn [pos set_pos set_x set_y vx vy].
    replace (vx (pos b) + _ - vx (pos b)) with
      (JS.Math_round (JS.of_Z (vx (vel b) * speedMult b) / JS.of_Z 1000)) by lia.
    replace (vy (pos b) + _ - vy (pos b)) with
      (JS.Math_round (JS.of_Z (vy (vel b) * speedMult b) / JS.of_Z 1000)) by lia.
    split; apply Qround_half_up_nearest.
Qed.

(** ** Integers as binary64 numbers *)

Lemma digits2_bounds p :
  2 ^ (Z.pos (digits2_pos p) - 1) <= Z.pos p < 2 ^ Z.pos (digits2_pos p).
Proof.
  induction p as [p IH|p IH|]; cbn [digits2_pos].
  - rewrite Pos2Z.inj_succ. replace (Z.succ (Z.pos (digits2_pos p)) - 1) with (Z.pos (digits2_pos p)) by lia.
    rewrite Z.pow_succ_r by lia.
    replace (2 ^ Z.pos (digits2_pos p)) with (2 * 2 ^ (Z.pos (digits2_pos p) - 1)) in *
      by (rewrite <- Z.pow_succ_r by lia; f_equal; lia).
    lia.
  - rewrite Pos2Z.inj_succ. replace (Z.succ (Z.pos (digits2_pos p)) - 1) with (Z.pos (digits2_pos p)) by lia.
    rewrite Z.pow_succ_r by lia.
    replace (2 ^ Z.pos (digits2_pos p)) with (2 * 2 ^ (Z.pos (digits2_pos p) - 1)) in *
      by (rewrite <- Z.pow_succ_r by lia; f_equal; lia).
    lia.
  - cbn. lia.
Qed.

Lemma iter_xO_val k p : Z.pos (Pos.iter xO p k) = Z.pos p * 2 ^ Z.pos k.
Proof.
  induction k as [|k IH] using Pos.peano_ind.
  - cbn. lia.
  - rewrite Pos.iter_succ, Pos2Z.inj_succ, Z.pow_succ_r by lia.
    rewrite Pos2Z.inj_xO, IH. lia.
Qed.

Lemma iter_xO_digits k p :
  Z.pos (digits2_pos (Pos.iter xO p k)) = Z.pos (digits2_pos p) + Z.pos k.
Proof.
  induction k as [|k IH] using Pos.peano_ind.
  - cbn. lia.
  - rewrite Pos.iter_succ. cbn [digits2_pos]. rewrite Pos2Z.inj_succ, IH. lia.
Qed.

(** A mantissa of exactly 53 bits with an exponent in range is kept as it is. *)
Lemma binary_round_aux_53 s m e :
  Z.pos (digits2_pos m) = 53 -> -1074 <= e <= 971 ->
  binary_round_aux prec emax s (Z.pos m) e loc_Exact = S754_finite s m e.
Proof.
  intros Hd He. unfold binary_round_aux, shr_fexp, fexp, emin.
  cbn [Zdigits2 shr_record_of_loc]. rewrite Hd.
  change prec with 53. change emax with 1024.
  replace (Z.max (53 + e - 53) (3 - 1024 - 53) - e) with 0 by lia.
  cbn [shr shr_m loc_of_shr_record round_nearest_even Zdigits2]. rewrite Hd.
  replace (Z.max (53 + e - 53) (3 - 1024 - 53) - e) with 0 by lia.
  cbn [shr shr_m].
  replace (e <=? 1024 - 53) with true by (symmetry; apply Z.leb_le; lia).
  reflexivity.
Qed.

Lemma num_exact_pos p : Z.pos p < 2 ^ 53 -> JS.num (Z.pos p) = Z.pos p.
Proof.
  intros Hp. unfold JS.num. cbn [binary_normalize]. unfold binary_round, shl_align, fexp, emin.
  pose proof (digits2_bounds p) as [Hlo Hhi].
  assert (Hd : Z.pos (digits2_pos p) <= 53).
  { destruct (Z_le_gt_dec (Z.pos (digits2_pos p)) 53) as [H|H]; [exact H|].
    assert (2 ^ 53 <= 2 ^ (Z.pos (digits2_pos p) - 1)) by (apply Z.pow_le_mono_r; lia). lia. }
  change prec with 53. change emax with 1024.
  rewrite Z.add_0_r.
  replace (Z.max (Z.pos (digits2_pos p) - 53) (3 - 1024 - 53)) with (Z.pos (digits2_pos p) - 53) by lia.
  rewrite Z.sub_0_r.
  destruct (Z.pos (digits2_pos p) - 53) as [|q|q] eqn:E; try lia.
  - rewrite binary_round_aux_53 by lia. cbn. lia.
  - rewrite binary_round_aux_53.
    + cbn [JS.SFval]. replace (0 <=? Z.neg q) with false by reflexivity.
      rewrite iter_xO_val. change (- Z.neg q) with (Z.pos q).
      rewrite Z.div_mul; [reflexivity|]. apply Z.pow_nonzero; lia.
    + rewrite iter_xO_digits. lia.
    + lia.
Qed.

Lemma num_opp z : JS.num (- z) = - JS.num z.
Proof.
  assert (P : forall p, JS.num (Z.neg p) = - JS.num (Z.pos p)).
  { intros p. unfold JS.num, binary_normalize, binary_round.
    destruct (shl_align _ _ _) as [mz ez].
    unfold binary_round_aux. destruct (shr_fexp _ _ _ _ _) as [m1 e1].
    destruct (shr_fexp _ _ _ _ _) as [m2 e2]. destruct (shr_m m2); try reflexivity.
    destruct (Z.leb e2 (emax - prec)); cbn [JS.SFval]; lia. }
  destruct z as [|p|p]; [reflexivity| |].
  - change (- Z.pos p) with (Z.neg p). apply P.
  - change (- Z.neg p) with (Z.pos p). rewrite P. lia.
Qed.

Lemma num_exact z : Z.abs z <= 2 ^ 53 -> JS.num z = z.
Proof.
  intros H.
  assert (P : forall p, Z.pos p <= 2 ^ 53 -> JS.num (Z.pos p) = Z.pos p).
  { intros p Hp. destruct (Z.eq_dec (Z.pos p) (2 ^ 53)) as [->|Hne];
      [vm_compute; reflexivity | apply num_exact_pos; lia]. }
  destruct z as [|p|p]; [reflexivity | apply P; lia|].
  change (Z.neg p) with (- Z.pos p). rewrite num_opp, P; lia.
Qed.

(** ** The canonical event log *)

Lemma append_cons a s t : String a s +:+ t = String a (s +:+ t).
Proof. reflexivity. Qed.

Lemma append_assoc s t u : (s +:+ t) +:+ u = s +:+ t +:+ u.
Proof.
  induction s as [|a s IH]; [reflexivity|].
  by rewrite !append_cons, IH.
Qed.

Lemma append_nil_r s : s +:+ "" = s.
Proof. induction s as [|a s IH]; [reflexivity|]. by rewrite append_cons, IH. Qed.

(** [join] is the concatenation with separators of the library. *)
Lemma join_from_concat sep acc l :
  join_from sep acc false l
  = match l with [] => acc | _ => acc +:+ sep +:+ String.concat sep l end.
Proof.
  revert acc. induction l as [|x l IH]; intros acc; [reflexivity|].
  cbn [join_from]. rewrite IH.
  destruct l as [|y l]; cbn [String.concat]; by rewrite !append_assoc.
Qed.

Lemma Array_join_concat sep l : Array_join sep l = String.concat sep l.
Proof.
  unfold Array_join. destruct l as [|x l]; [reflexivity|].
  cbn [join_from]. rewrite join_from_concat.
  destruct l; reflexivity.
Qed.

Lemma eventLine_specLine ev : eventLine ev = specLine ev.
Proof. destruct ev; reflexivity. Qed.

Lemma occurs_append c s t : occurs c (s +:+ t) = occurs c s || occurs c t.
Proof.
  induction s as [|a s IH]; [reflexivity|].
  rewrite append_cons. cbn [occurs]. by rewrite IH, orb_assoc.
Qed.

(** ** The text of a number *)

(** A decimal numeral holds digits and a sign only. *)
Lemma pretty_N_char_other c d :
  occurs c "0123456789" = false -> Ascii.eqb (pretty_N_char d) c = false.
Proof.
  cbn [occurs]. intros H.
  repeat (apply orb_false_elim in H as [? H]).
  unfold pretty_N_char. repeat case_match; assumption.
Qed.

Lemma pretty_N_go_other c x s :
  occurs c "0123456789" = false -> occurs c (pretty_N_go x s) = occurs c s.
Proof.
  intros Hc. revert s. induction (N.lt_wf_0 x) as [x _ IH]; intros s.
  destruct (decide (0 < x)%N) as [Hx|Hx].
  - rewrite pretty_N_go_step by done. rewrite IH by (by apply N.div_lt).
    cbn [occurs]. by rewrite pretty_N_char_other.
  - assert (x = 0%N) as -> by lia. by rewrite pretty_N_go_0.
Qed.

Lemma pretty_N_other c (x : N) :
  occurs c "0123456789" = false -> occurs c (pretty x) = false.
Proof.
  intros Hc. unfold pretty, pretty_N. case_decide.
  - cbn [occurs] in Hc. apply orb_false_elim in Hc as [Hc _].
    cbn [occurs]. by rewrite Hc.
  - by rewrite pretty_N_go_other.
Qed.

Lemma pretty_nonneg_other c (z : Z) :
  0 <= z -> occurs c "0123456789" = false -> occurs c (pretty z) = false.
Proof.
  intros Hz Hc. destruct z as [|p|p]; [|apply (pretty_N_other c (Npos p) Hc)|lia].
  cbn [occurs] in Hc. apply orb_false_elim in Hc as [Hc _].
  change (occurs c "0" = false). cbn [occurs]. by rewrite Hc.
Qed.

Lemma pretty_Z_other c (z : Z) :
  occurs c "-0123456789" = false -> occurs c (pretty z) = false.
Proof.
  cbn [occurs]. intros [Hm Hc]%orb_false_elim.
  destruct z as [|p|p]; try (apply pretty_nonneg_other; [lia|exact Hc]).
  unfold pretty, pretty_Z. rewrite occurs_append. cbn [occurs].
  rewrite Hm. cbn [orb]. apply (pretty_N_other c (Npos p) Hc).
Qed.

Lemma pretty_N_go_length x s :
  (String.length s <= String.length (pretty_N_go x s))%nat.
Proof.
  revert s. induction (N.lt_wf_0 x) as [x _ IH]; intros s.
  destruct (decide (0 < x)%N) as [Hx|Hx].
  - rewrite pretty_N_go_step by done.
    etrans; [|apply IH; by apply N.div_lt]. cbn [String.length]. lia.
  - assert (x = 0%N) as -> by lia. by rewrite pretty_N_go_0.
Qed.

Lemma pretty_Z_nonempty (z : Z) : pretty z <> "".
Proof.
  assert (HN : forall p, pretty (Npos p) <> "").
  { intros p H. unfold pretty, pretty_N in H. case_decide; [discriminate|].
    rewrite pretty_N_go_step in H by lia.
    pose proof (pretty_N_go_length (N.pos p `div` 10)
                  (String (pretty_N_char (N.pos p `mod` 10)) "")) as Hl.
    rewrite H in Hl. cbn [String.length] in Hl. lia. }
  destruct z as [|p|p]; [discriminate|apply HN|discriminate].
Qed.

(** The decimal that is printed is read back as the number. *)
Lemma candidate_reads_back x d k v :
  candidate x d k = Some v -> JS.num v = JS.num x.
Proof.
  unfold candidate. cbv zeta.
  destruct (JS.num (x / 10 ^ (d - k) * 10 ^ (d - k)) =? JS.num x) eqn:Elo;
    destruct (JS.num (x / 10 ^ (d - k) * 10 ^ (d - k) + 10 ^ (d - k)) =? JS.num x) eqn:Ehi;
    cbn [andb]; try discriminate;
    apply Z.eqb_eq in Elo || clear Elo; apply Z.eqb_eq in Ehi || clear Ehi;
    intros [= <-]; repeat case_match; assumption.
Qed.

Lemma candidate_nonneg x d k v :
  0 <= x -> candidate x d k = Some v -> 0 <= v.
Proof.
  intros Hx. unfold candidate. cbv zeta.
  assert (Hp : 0 <= 10 ^ (d - k)) by (apply Z.pow_nonneg; lia).
  assert (Hq : 0 <= x / 10 ^ (d - k)) by (apply Z_div_nonneg_nonneg; lia).
  assert (Hlo : 0 <= x / 10 ^ (d - k) * 10 ^ (d - k)) by nia.
  intros H. repeat case_match; simplify_eq; lia.
Qed.

Lemma search_reads_back x d k fuel : JS.num (search x d k fuel) = JS.num x.
Proof.
  revert k. induction fuel as [|fuel IH]; intros k; [reflexivity|].
  cbn [search]. destruct (d <=? k); [reflexivity|].
  destruct (candidate x d k) as [v|] eqn:E; [|apply IH].
  by apply candidate_reads_back in E.
Qed.

Lemma search_nonneg x d k fuel : 0 <= x -> 0 <= search x d k fuel.
Proof.
  intros Hx. revert k. induction fuel as [|fuel IH]; intros k; [exact Hx|].
  cbn [search]. destruct (d <=? k); [exact Hx|].
  destruct (candidate x d k) as [v|] eqn:E; [|apply IH].
  by apply candidate_nonneg in E.
Qed.

Lemma shortest_reads_back x : JS.num (shortest x) = JS.num x.
Proof. unfold shortest. destruct (x <=? 2 ^ 53); [reflexivity|apply search_reads_back]. Qed.

Lemma shortest_nonneg x : 0 <= x -> 0 <= shortest x.
Proof.
  intros Hx. unfold shortest. destruct (x <=? 2 ^ 53); [exact Hx|by apply search_nonneg].
Qed.


(** [strip] takes zeros off the end of a decimal and counts them. *)
Lemma strip_value fuel v j m j' :
  strip fuel v j = (m, j') ->
  m * 10 ^ (j' - j) = v /\ j <= j' /\ (0 <= v -> 0 <= m).
Proof.
  revert v j. induction fuel as [|fuel IH]; intros v j; cbn [strip].
  { intros [= <- <-]. rewrite Z.sub_diag. cbn. lia. }
  destruct (0 <? v) eqn:Hv; cbn [andb].
  2:{ intros [= <- <-]. rewrite Z.sub_diag. cbn. lia. }
  destruct (v mod 10 =? 0) eqn:Hm.
  2:{ intros [= <- <-]. rewrite Z.sub_diag. cbn. lia. }
  intros (He & Hj & Hn)%IH. apply Z.ltb_lt in Hv. apply Z.eqb_eq in Hm.
  split; [|split; [lia|]].
  - replace (j' - j) with (Z.succ (j' - (j + 1))) by lia.
    rewrite Z.pow_succ_r by lia.
    pose proof (Z.div_mod v 10). lia.
  - intros _. apply Hn. apply Z.div_pos; lia.
Qed.

(** The shape of a text in exponent notation. *)
Lemma expform_shape v :
  0 <= v ->
  exists m j c rest,
    0 <= m /\ 0 <= j /\ m * 10 ^ j = v /\ pretty m = String c rest /\
    expform v
    = String c (match rest with EmptyString => "" | _ => "." +:+ rest end)
      +:+ String "e" ("+" +:+ pretty (Z.of_nat (String.length rest) + j)).
Proof.
  intros Hv. unfold expform.
  destruct (strip _ v 0) as [m j] eqn:E.
  apply strip_value in E as (He & Hj & Hm). rewrite Z.sub_0_r in He.
  destruct (pretty m) as [|c rest] eqn:Ep; [by apply pretty_Z_nonempty in Ep|].
  exists m, j, c, rest.
  split; [by apply Hm|]. split; [exact Hj|]. split; [exact He|]. split; [exact Ep|reflexivity].
Qed.

Lemma render_other c v :
  0 <= v -> occurs c "0123456789.e+" = false -> occurs c (render v) = false.
Proof.
  intros Hv Hc.
  assert (Hd : occurs c "0123456789" = false).
  { cbn [occurs] in *. repeat (apply orb_false_elim in Hc as [? Hc]).
    repeat (apply orb_false_intro; [assumption|]). reflexivity. }
  assert (Hs : Ascii.eqb "." c = false /\ Ascii.eqb "e" c = false /\ Ascii.eqb "+" c = false).
  { cbn [occurs] in Hc. do 10 (apply orb_false_elim in Hc as [_ Hc]).
    repeat (apply orb_false_elim in Hc as [? Hc]). done. }
  destruct Hs as (Hpt & He & Hpl).
  unfold render. destruct (v <? 10 ^ 21); [by apply pretty_nonneg_other|].
  destruct (expform_shape v Hv) as (m & j & c0 & rest & Hm & Hj & _ & Ep & ->).
  pose proof (pretty_nonneg_other c m Hm Hd) as Hmc. rewrite Ep in Hmc.
  cbn [occurs] in Hmc. apply orb_false_elim in Hmc as [Hc0 Hrest].
  rewrite occurs_append. cbn [occurs]. rewrite Hc0, He, occurs_append. cbn [occurs orb].
  rewrite Hpl, (pretty_nonneg_other c (Z.of_nat (String.length rest) + j) ltac:(lia) Hd). cbn [orb]. rewrite orb_false_r.
  destruct rest; [reflexivity|]. rewrite occurs_append. cbn [occurs orb].
  rewrite Hpt. exact Hrest.
Qed.

Lemma numString_other c n :
  occurs c "-0123456789.e+" = false -> occurs c (numString n) = false.
Proof.
  cbn [occurs]. intros [Hm Hc]%orb_false_elim.
  unfold numString. destruct (n <? 0) eqn:E.
  - apply Z.ltb_lt in E. rewrite occurs_append. cbn [occurs]. rewrite Hm. cbn [orb].
    apply render_other; [apply shortest_nonneg; lia|exact Hc].
  - apply Z.ltb_ge in E. apply render_other; [by apply shortest_nonneg|exact Hc].
Qed.

Lemma numString_newline n : occurs newline (numString n) = false.
Proof. by apply numString_other. Qed.


(** ** The canonical event log, line by line *)

Lemma eventLine_newline ev : occurs newline (eventLine ev) = false.
Proof.
  destruct ev as [t i sd|t a b|t f o d|t i|t w]; unfold eventLine;
    rewrite ?occurs_append, ?numString_newline;
    repeat match goal with x : BallId |- _ => destruct x end;
    try destruct sd; reflexivity.
Qed.

Lemma splitOn_free c s : occurs c s = false -> splitOn c s = [s].
Proof.
  induction s as [|a s IH]; [reflexivity|].
  cbn [occurs splitOn]. intros [Ha Hs]%orb_false_elim.
  rewrite Ha, (IH Hs). reflexivity.
Qed.

Lemma splitOn_first c s rest :
  occurs c s = false -> splitOn c (s +:+ String c rest) = s :: splitOn c rest.
Proof.
  induction s as [|a s IH].
  - intros _. change ("" +:+ String c rest) with (String c rest).
    cbn [splitOn]. by rewrite Ascii.eqb_refl.
  - cbn [occurs]. intros [Ha Hs]%orb_false_elim.
    rewrite append_cons. cbn [splitOn]. rewrite Ha, (IH Hs). reflexivity.
Qed.

Lemma splitOn_concat c l ls :
  Forall (fun s => occurs c s = false) (l :: ls) ->
  splitOn c (String.concat (String c "") (l :: ls)) = l :: ls.
Proof.
  revert l. induction ls as [|l' ls IH]; intros l Hall.
  - apply splitOn_free. by inversion Hall.
  - inversion Hall as [|? ? Hl Hrest]; subst.
    change (String.concat (String c "") (l :: l' :: ls))
      with (l +:+ String c "" +:+ String.concat (String c "") (l' :: ls)).
    change (String c "" +:+ ?t) with (String c t).
    rewrite splitOn_first by done. by rewrite IH.
Qed.

Lemma canonical_lines ev evs :
  splitOn newline (canonicalEventsString (ev :: evs)) = map eventLine (ev :: evs).
Proof.
  unfold canonicalEventsString. rewrite Array_join_concat.
  apply (splitOn_concat newline (eventLine ev) (map eventLine evs)).
  change (Forall (fun s => occurs newline s = false) (map eventLine (ev :: evs))).
  apply Forall_map, Forall_forall. intros e _. apply eventLine_newline.
Qed.


(** ** The text of the log determines the log *)

Lemma numString_bar n : occurs bar (numString n) = false.
Proof. by apply numString_other. Qed.

(** Cutting a line at its delimiters gives the fields of the event. *)
Lemma eventLine_fields ev : splitOn bar (eventLine ev) = specFields ev.
Proof.
  rewrite eventLine_specLine. unfold specLine.
  destruct ev as [t i sd|t a b|t f o d|t i|t w]; cbn [specFields];
    apply (splitOn_concat bar); repeat constructor;
    try apply numString_bar;
    repeat match goal with x : BallId |- _ => destruct x end;
    try destruct sd; reflexivity.
Qed.

Lemma idString_inj a b : idString a = idString b -> a = b.
Proof. destruct a, b; first [reflexivity | discriminate]. Qed.

Lemma sideString_inj a b : sideString a = sideString b -> a = b.
Proof. destruct a, b; first [reflexivity | discriminate]. Qed.

Lemma expform_inj u v : 0 <= u -> 0 <= v -> expform u = expform v -> u = v.
Proof.
  intros Hu Hv H.
  destruct (expform_shape u Hu) as (m & j & c & rest & Hm & Hj & <- & Ep & Eu).
  destruct (expform_shape v Hv) as (m' & j' & c' & rest' & Hm' & Hj' & <- & Ep' & Ev).
  rewrite Eu, Ev in H. clear Eu Ev.
  assert (Hd : occurs "e" "0123456789" = false) by reflexivity.
  pose proof (pretty_nonneg_other "e" m Hm Hd) as Hf. rewrite Ep in Hf.
  pose proof (pretty_nonneg_other "e" m' Hm' Hd) as Hf'. rewrite Ep' in Hf'.
  cbn [occurs] in Hf, Hf'.
  apply orb_false_elim in Hf as [Hc Hr]. apply orb_false_elim in Hf' as [Hc' Hr'].
  apply (f_equal (splitOn "e")) in H.
  rewrite !splitOn_first in H.
  2:{ cbn [occurs]. rewrite Hc'. destruct rest'; [reflexivity|].
      rewrite occurs_append. cbn [occurs] in *. by rewrite Hr'. }
  2:{ cbn [occurs]. rewrite Hc. destruct rest; [reflexivity|].
      rewrite occurs_append. cbn [occurs] in *. by rewrite Hr. }
  injection H as H1 H2 H3.
  assert (Hrest : rest = rest').
  { destruct rest, rest'; [reflexivity|discriminate..|].
    cbn in H2. by injection H2 as -> ->. }
  subst rest' c'. rewrite <- Ep' in Ep. apply (inj pretty) in Ep. subst m'.
  rewrite !splitOn_free in H3
    by (rewrite occurs_append; cbn [occurs orb];
        apply pretty_nonneg_other; [lia|reflexivity]).
  injection H3 as H3. cbn [append] in H3. apply pretty_Z_inj in H3.
  f_equal. f_equal. lia.
Qed.

Lemma render_inj u v : 0 <= u -> 0 <= v -> render u = render v -> u = v.
Proof.
  intros Hu Hv. unfold render.
  assert (He : forall a b, 0 <= a -> 0 <= b -> pretty a <> expform b).
  { intros a b Ha Hb H. apply (f_equal (occurs "e")) in H.
    rewrite pretty_nonneg_other in H by done.
    destruct (expform_shape b Hb) as (m & j & c & rest & _ & _ & _ & _ & E).
    rewrite E, occurs_append in H. cbn [occurs] in H.
    rewrite Ascii.eqb_refl in H. cbn [orb] in H. rewrite orb_true_r in H. discriminate. }
  destruct (u <? 10 ^ 21), (v <? 10 ^ 21); intros H.
  - by apply (inj pretty) in H.
  - by apply He in H.
  - symmetry in H. by apply He in H.
  - by apply expform_inj.
Qed.

(** The texts of two different numbers differ. *)
Lemma numString_inj a b :
  isNumber a -> isNumber b -> numString a = numString b -> a = b.
Proof.
  unfold isNumber. intros Ha Hb.
  assert (Hs : forall x y, 0 <= y -> "-" +:+ x <> render y).
  { intros x y Hy H. apply (f_equal (occurs "-")) in H.
    by rewrite (render_other "-" y Hy) in H. }
  unfold numString.
  destruct (a <? 0) eqn:Ea; destruct (b <? 0) eqn:Eb; intros H;
    apply Z.ltb_lt in Ea || apply Z.ltb_ge in Ea;
    apply Z.ltb_lt in Eb || apply Z.ltb_ge in Eb.
  - injection H as H. apply render_inj in H; [|apply shortest_nonneg; lia..].
    apply (f_equal JS.num) in H. rewrite !shortest_reads_back, !num_opp in H. lia.
  - apply Hs in H; [done|by apply shortest_nonneg].
  - symmetry in H. apply Hs in H; [done|by apply shortest_nonneg].
  - apply render_inj in H; [|by apply shortest_nonneg..].
    apply (f_equal JS.num) in H. rewrite !shortest_reads_back in H. congruence.
Qed.

Lemma eventLine_inj e1 e2 :
  numberFields e1 -> numberFields e2 -> eventLine e1 = eventLine e2 -> e1 = e2.
Proof.
  intros [Ht1 Hd1] [Ht2 Hd2] H.
  apply (f_equal (splitOn bar)) in H. rewrite !eventLine_fields in H.
  destruct e1, e2; cbn [specFields] in H; try discriminate H;
    cbn [eventTick] in Ht1, Ht2;
    injection H as H; repeat match goal with
    | H : numString _ = numString _ |- _ => apply numString_inj in H; [|assumption..]
    | H : idString _ = idString _ |- _ => apply idString_inj in H
    | H : sideString _ = sideString _ |- _ => apply sideString_inj in H
    end; congruence.
Qed.

Lemma eventLine_nonempty ev : eventLine ev <> "".
Proof.
  intros H. apply (f_equal (splitOn bar)) in H. rewrite eventLine_fields in H.
  destruct ev; discriminate H.
Qed.

Lemma map_eventLine_inj l1 : forall l2,
  Forall numberFields l1 -> Forall numberFields l2 ->
  map eventLine l1 = map eventLine l2 -> l1 = l2.
Proof.
  induction l1 as [|e1 l1 IH]; intros [|e2 l2] H1 H2; cbn [map];
    try discriminate; [reflexivity|].
  inversion H1; inversion H2; subst.
  intros [= He Hl]. f_equal; [by apply eventLine_inj | by apply IH].
Qed.

(** X10: the text of the canonical log determines the log: two lists of
    events whose ticks and damages are numbers, and that have the same
    text, are the same list, event by event.  No field of a line holds
    the delimiter or a newline, and the texts of two different numbers
    differ. *)
Theorem canonicalEventsString_determines_events l1 l2 :
  Forall numberFields l1 -> Forall numberFields l2 ->
  canonicalEventsString l1 = canonicalEventsString l2 -> l1 = l2.
Proof.
  intros H1 H2 H. apply (f_equal (splitOn newline)) in H.
  destruct l1 as [|e1 l1], l2 as [|e2 l2]; [reflexivity| | |].
  - rewrite canonical_lines in H. injection H as H _.
    symmetry in H. by apply eventLine_nonempty in H.
  - rewrite canonical_lines in H. injection H as H _.
    by apply eventLine_nonempty in H.
  - rewrite !canonical_lines in H. by apply map_eventLine_inj.
Qed.

(** ** What the physics steps leave alone *)

Lemma physics_refl s : physics s s.
Proof.
  repeat split. exists []. split; [rewrite app_nil_r; reflexivity | constructor].
Qed.

Lemma physics_trans s1 s2 s3 : physics s1 s2 -> physics s2 s3 -> physics s1 s3.
Proof.
  intros (Hc1 & Hv1 & e1 & He1 & Hp1) (Hc2 & Hv2 & e2 & He2 & Hp2).
  split; [congruence|]. split; [intros c; rewrite Hv2; apply Hv1|].
  exists (e1 ++ e2). split; [rewrite He2, He1, app_assoc; reflexivity|].
  by apply Forall_app.
Qed.

Lemma physics_push e s : isPhysical e -> physics s (push e s).
Proof.
  intros He. repeat split.
  exists [e]. split; [reflexivity | constructor; [assumption | constructor]].
Qed.

Lemma physics_set_ball b v s :
  vitals v = vitals (ball s b) -> physics s (set_ball b v s).
Proof.
  intros Hv. split; [destruct b; reflexivity|]. split.
  - intros c. destruct b, c; first [exact Hv | reflexivity].
  - exists []. split; [destruct b; simpl; rewrite app_nil_r; reflexivity | constructor].
Qed.

Lemma control_fields s s' :
  control s' = control s ->
  spec s' = spec s /\ SCALE s' = SCALE s /\ arenaW s' = arenaW s /\
  arenaH s' = arenaH s /\ wallRest s' = wallRest s /\ tick s' = tick s /\
  rng s' = rng s /\ done s' = done s /\ winner s' = winner s.
Proof. unfold control. intros [= -> -> -> -> -> -> -> -> ->]. repeat split. Qed.

Lemma vitals_fields b b' :
  vitals b' = vitals b ->
  id b' = id b /\ hp b' = hp b /\ r b' = r b /\ baseDamage b' = baseDamage b /\
  ramp b' = ramp b /\ hitCount b' = hitCount b /\ alive b' = alive b /\
  damageDealt b' = damageDealt b /\ tipR b' = tipR b.
Proof. unfold vitals. intros [= -> -> -> _ _ -> -> -> -> -> _ -> _]. repeat split. Qed.

Section EngineFacts.

Variables COS SIN : Z -> Z.

Ltac physics_chain :=
  repeat first
    [ apply physics_refl
    | eapply physics_trans; [| apply physics_push; exact I]
    | eapply physics_trans; [| apply (physics_set_ball IdA); reflexivity]
    | eapply physics_trans; [| apply (physics_set_ball IdB); reflexivity] ].

Lemma applyWallBounce_physics s b : physics s (applyWallBounce s b).
Proof.
  unfold applyWallBounce. cbv zeta.
  destruct b; cbn [ball]; repeat case_match; physics_chain.
Qed.

Lemma resolveBallBallCollision_with_physics f s :
  physics s (resolveBallBallCollision_with f s).
Proof.
  unfold resolveBallBallCollision_with. cbv zeta.
  repeat case_match; physics_chain.
Qed.

Lemma beforeHits_physics s : physics s (beforeHits s).
Proof.
  unfold beforeHits, resolveBallBallCollision. cbv zeta.
  repeat (eapply physics_trans;
          [| first [apply resolveBallBallCollision_with_physics
                   | apply applyWallBounce_physics]]).
  physics_chain.
Qed.

(** ** Body-body collision *)

Lemma centresDist2_nonneg s : 0 <= centresDist2 s.
Proof.
  unfold centresDist2, dist2. cbv zeta.
  apply Z.add_nonneg_nonneg; apply Z.square_nonneg.
Qed.


Lemma checkHit_miss s a : lands COS SIN s a = false -> checkHit COS SIN s a = s.
Proof.
  unfold lands, checkHit. cbv zeta. intros H.
  destruct (alive (ball s a)); [|reflexivity].
  destruct (alive (ball s (other a))); [|reflexivity].
  cbn [andb negb orb] in *. rewrite H. reflexivity.
Qed.

Lemma checkHit_hit s a : lands COS SIN s a = true -> hitOutcome s a (checkHit COS SIN s a).
Proof.
  unfold lands, checkHit. cbv zeta. intros H.
  apply andb_prop in H as [H Ht]. apply andb_prop in H as [Ha Hv].
  rewrite Ha, Hv, Ht. cbn [negb orb].
  destruct (rng_next (rng _)) as [u1 g1]. destruct (rng_next g1) as [u2 g2].
  destruct a; cbn [other ball set_ball] in *.
  - split; unfold vitals, hitDamage; simpl;
      destruct (hp (simB s) - _ <=? 0) eqn:L; simpl;
      rewrite ?Hv, ?Ha, <- ?app_assoc; repeat split.
  - split; unfold vitals, hitDamage; simpl;
      destruct (hp (simA s) - _ <=? 0) eqn:L; simpl;
      rewrite ?Hv, ?Ha, <- ?app_assoc; repeat split.
Qed.
(** The outcome of a landed hit, field by field. *)
Lemma hit_attacker s a s' :
  hitOutcome s a s' ->
  id (ball s' a) = id (ball s a) /\ hp (ball s' a) = hp (ball s a) /\
  r (ball s' a) = r (ball s a) /\ baseDamage (ball s' a) = baseDamage (ball s a) /\
  ramp (ball s' a) = ramp (ball s a) /\
  hitCount (ball s' a) = hitCount (ball s a) + 1 /\
  alive (ball s' a) = alive (ball s a) /\
  damageDealt (ball s' a)
  = damageDealt (ball s a) + hitDamage (ball s a) (hitCount (ball s a) + 1) /\
  tipR (ball s' a) = tipR (ball s a).
Proof. intros [d lethal _ Ha _ _]. exact (vitals_fields _ _ Ha). Qed.

Lemma hit_victim s a s' :
  hitOutcome s a s' ->
  let dmg := hitDamage (ball s a) (hitCount (ball s a) + 1) in
  id (ball s' (other a)) = id (ball s (other a)) /\
  hp (ball s' (other a)) = hp (ball s (other a)) - dmg /\
  r (ball s' (other a)) = r (ball s (other a)) /\
  baseDamage (ball s' (other a)) = baseDamage (ball s (other a)) /\
  ramp (ball s' (other a)) = ramp (ball s (other a)) /\
  hitCount (ball s' (other a)) = hitCount (ball s (other a)) /\
  alive (ball s' (other a)) = negb (hp (ball s (other a)) - dmg <=? 0) /\
  damageDealt (ball s' (other a)) = damageDealt (ball s (other a)) /\
  tipR (ball s' (other a)) = tipR (ball s (other a)).
Proof. intros [d lethal _ _ Hv _]. exact (vitals_fields _ _ Hv). Qed.

Lemma checkHit_control s a :
  spec (checkHit COS SIN s a) = spec s /\ tick (checkHit COS SIN s a) = tick s /\
  done (checkHit COS SIN s a) = done s /\ winner (checkHit COS SIN s a) = winner s.
Proof.
  destruct (lands COS SIN s a) eqn:L; [|by rewrite checkHit_miss].
  by destruct (checkHit_hit s a L) as [d lethal Hc _ _ _].
Qed.

Lemma checkHit_alive_attacker s a :
  alive (ball (checkHit COS SIN s a) a) = alive (ball s a).
Proof.
  destruct (lands COS SIN s a) eqn:L; [|by rewrite checkHit_miss].
  apply (hit_attacker _ _ _ (checkHit_hit s a L)).
Qed.

(** No check brings a combatant back to life. *)
Lemma checkHit_alive_mono s a c :
  alive (ball (checkHit COS SIN s a) c) = true -> alive (ball s c) = true.
Proof.
  destruct (decide (c = a)) as [->|Hne]; [by rewrite checkHit_alive_attacker|].
  assert (c = other a) as -> by (destruct c, a; simpl; congruence).
  destruct (lands COS SIN s a) eqn:L; [|by rewrite checkHit_miss].
  intros _. unfold lands in L.
  apply andb_prop in L as [L _]. by apply andb_prop in L as [_ L].
Qed.

(** *** The four branches of [stepSim] *)

Lemma stepSim_done s : done s = true -> stepSim COS SIN s = s.
Proof. unfold stepSim. by intros ->. Qed.

Lemma stepSim_eliminated s :
  done s = false -> bothAlive s = false ->
  stepSim COS SIN s = finish (survivor s) s.
Proof.
  unfold stepSim, bothAlive. intros -> H.
  by destruct (alive (simA s)), (alive (simB s)).
Qed.

Lemma stepSim_timeout s :
  done s = false -> bothAlive s = true -> sim_maxTicks (spec s) <= tick s ->
  stepSim COS SIN s
  = finish (timeoutWinner s).1
      (push (EvTimeout (tick s) (timeoutWinner s).1) (timeoutWinner s).2).
Proof.
  unfold stepSim, bothAlive. intros -> H Ht.
  apply andb_prop in H as [-> ->]. cbn [negb orb].
  destruct (tick s >=? sim_maxTicks (spec s)) eqn:E; [|lia].
  unfold timeoutWinner. cbv zeta.
  repeat case_match; simplify_eq/=; reflexivity.
Qed.

Lemma stepSim_tick s :
  done s = false -> bothAlive s = true -> tick s < sim_maxTicks (spec s) ->
  stepSim COS SIN s
  = if bothAlive (afterTick COS SIN s) then afterTick COS SIN s
    else finish (survivor (afterTick COS SIN s)) (afterTick COS SIN s).
Proof.
  unfold stepSim, bothAlive. intros -> H Ht.
  apply andb_prop in H as [-> ->]. cbn [negb orb].
  destruct (tick s >=? sim_maxTicks (spec s)) eqn:E; [lia|].
  cbv zeta. fold (afterTick COS SIN s).
  by destruct (alive (simA (afterTick COS SIN s))), (alive (simB (afterTick COS SIN s))).
Qed.

(** From here on the engine is used through the lemmas above only. *)
Opaque beforeHits checkHit stepSim.

(** *** The control fields along a tick *)

Lemma afterTick_control s :
  spec (afterTick COS SIN s) = spec s /\
  tick (afterTick COS SIN s) = tick s + 1 /\
  done (afterTick COS SIN s) = done s /\
  winner (afterTick COS SIN s) = winner s.
Proof.
  unfold afterTick. cbv zeta.
  pose proof (checkHit_control (beforeHits s) IdA) as H1.
  pose proof (checkHit_control (checkHit COS SIN (beforeHits s) IdA) IdB) as H2.
  destruct (beforeHits_physics s) as (Hc%control_fields & _ & _).
  set (s1 := beforeHits s) in *. set (s2 := checkHit COS SIN s1 IdA) in *.
  set (s3 := checkHit COS SIN s2 IdB) in *. clearbody s1 s2 s3.
  cbn. intuition congruence.
Qed.

Lemma finish_fields w s :
  spec (finish w s) = spec s /\ tick (finish w s) = tick s /\
  done (finish w s) = true /\ winner (finish w s) = Some w /\
  events (finish w s) = events s /\
  simA (finish w s) = simA s /\ simB (finish w s) = simB s.
Proof. repeat split. Qed.

Lemma timeoutWinner_frame s :
  spec (timeoutWinner s).2 = spec s /\ tick (timeoutWinner s).2 = tick s /\
  events (timeoutWinner s).2 = events s /\
  simA (timeoutWinner s).2 = simA s /\ simB (timeoutWinner s).2 = simB s.
Proof.
  unfold timeoutWinner. cbv zeta.
  repeat case_match; simplify_eq/=; repeat split.
Qed.

(** *** Fresh states *)

Lemma initBall_Ok sp scale b j bs :
  initBall sp scale b j = Ok bs ->
  is_Some (weapons sp !! b_weaponId b) /\
  id bs = b_id b /\ hp bs = b_hp b /\ alive bs = true /\
  hitCount bs = 0 /\ damageDealt bs = 0.
Proof.
  unfold initBall, Get. destruct (weapons sp !! b_weaponId b) as [w|]; [|by case_bool_decide].
  destruct (rng_next _) as [u g]. intros [= <-]. cbn. eauto 10.
Qed.

Lemma createSim_Ok sp s0 :
  createSim sp = Ok s0 ->
  spec s0 = sp /\ tick s0 = 0 /\ done s0 = false /\ winner s0 = None /\
  events s0 = [] /\ rng s0 = mulberry32 (seed sp) /\
  initBall sp (sim_scale sp) (ballA sp) 0xA1B2C3D4 = Ok (simA s0) /\
  initBall sp (sim_scale sp) (ballB sp) 0xB4C3D2A1 = Ok (simB s0).
Proof.
  unfold createSim. cbv zeta.
  destruct (initBall sp _ (ballA sp) _) as [A|msg|]; [|discriminate|by case_match].
  destruct (initBall sp _ (ballB sp) _) as [B|msg|]; [|discriminate..].
  intros [= <-]. cbn. repeat split.
Qed.

(** *** The invariant of a run *)

Lemma runInv_fresh sp s0 : createSim sp = Ok s0 -> runInv sp 0 s0.
Proof.
  intros H. destruct (createSim_Ok _ _ H) as (Hs & Ht & Hd & _ & _ & _ & HA & HB).
  apply initBall_Ok in HA as (_ & _ & _ & HA & _).
  apply initBall_Ok in HB as (_ & _ & _ & HB & _).
  unfold runInv, bothAlive. rewrite Ht, HA, HB. repeat split; try lia. done.
Qed.

Lemma runInv_step sp n s : runInv sp n s -> runInv sp (S n) (stepSim COS SIN s).
Proof.
  intros (Hs & Ht & Hn & Hrun).
  destruct (done s) eqn:Hd.
  { rewrite stepSim_done by done. unfold runInv. rewrite Hd.
    repeat split; try lia; try done. }
  destruct (Hrun eq_refl) as (Hb & Hk & Hm).
  destruct (Z_lt_le_dec (tick s) (sim_maxTicks (spec s))) as [Hlt|Hge].
  - rewrite stepSim_tick by done.
    destruct (afterTick_control s) as (Es & Et & Ed & _).
    rewrite Hs in Hlt.
    set (s' := afterTick COS SIN s) in *. clearbody s'.
    destruct (bothAlive s') eqn:Hb'; unfold runInv; cbn;
      rewrite ?Es, ?Et, ?Ed, ?Hd; repeat split; try lia; try done.
  - rewrite stepSim_timeout by done.
    destruct (timeoutWinner_frame s) as (Es & Et & _).
    set (w := (timeoutWinner s).1). set (s' := (timeoutWinner s).2) in *.
    clearbody w s'. unfold runInv. cbn.
    rewrite Es, Et. repeat split; try lia; try done.
Qed.

Lemma reachedIn_runInv sp n s : reachedIn COS SIN sp n s -> runInv sp n s.
Proof.
  induction 1 as [s0 H|n s _ IH]; [by apply runInv_fresh | by apply runInv_step].
Qed.

(** ** Termination bound *)

(** C4: on a fresh state of a match description whose tick ceiling is a
    non-negative integer, after any number [n] of [stepSim] calls the tick
    counter is at most [maxTicks], and once [n] reaches [maxTicks + 1] the
    state is finished. *)
Theorem tick_never_exceeds_ceiling sp n s :
  0 <= sim_maxTicks sp ->
  reachedIn COS SIN sp n s ->
  tick s <= sim_maxTicks sp /\
  ((Z.to_nat (sim_maxTicks sp) + 1 <= n)%nat -> done s = true).
Proof.
  intros Hm Hr. apply reachedIn_runInv in Hr as (_ & Ht & _ & Hrun).
  split; [lia|]. intros Hn.
  destruct (done s); [reflexivity|].
  destruct (Hrun eq_refl) as (_ & _ & Hle). lia.
Qed.

(** ** Timeout resolution *)

Lemma timeoutWinner_ladder s :
  timeoutWinner s
  = (ladder (simA s) (simB s) (rng_next (rng s)).1,
     if tied (simA s) (simB s) then set_rng (rng_next (rng s)).2 s else s).
Proof.
  unfold timeoutWinner, ladder, tied. cbv zeta.
  destruct (rng_next (rng s)) as [u g]. cbn [fst snd].
  destruct (Z.eqb_spec (hp (simA s)) (hp (simB s))) as [E|E];
    destruct (Z.eqb_spec (damageDealt (simA s)) (damageDealt (simB s))) as [E'|E'];
    cbn [negb andb];
    repeat match goal with
      | |- context [?a >? ?b] => rewrite (Z.gtb_ltb a b)
      | |- context [?a <? ?b] => destruct (Z.ltb_spec a b)
      end; try reflexivity; lia.
Qed.

(** C2: when [stepSim] is called on a running match (a state reached from
    a fresh one and not finished) whose tick counter has reached
    [maxTicks], the winner is the one the ladder names, the draw being the
    next value of the shared stream, consumed on the last rung only; one
    timeout event carrying that winner is appended at the current tick,
    and the match is finished, with nothing else changed. *)
Theorem timeout_resolves_by_ladder sp n s :
  reachedIn COS SIN sp n s ->
  done s = false ->
  sim_maxTicks sp <= tick s ->
  let u := (rng_next (rng s)).1 in
  let w := ladder (simA s) (simB s) u in
  let s' := stepSim COS SIN s in
  done s' = true /\ winner s' = Some w /\
  events s' = events s ++ [EvTimeout (tick s) w] /\
  tick s' = tick s /\ simA s' = simA s /\ simB s' = simB s /\
  rng s' = (if tied (simA s) (simB s) then (rng_next (rng s)).2 else rng s).
Proof.
  intros Hr Hd Ht u w s'. subst s'.
  apply reachedIn_runInv in Hr as (Hs & _ & _ & Hrun).
  destruct (Hrun Hd) as (Hb & _ & _).
  rewrite stepSim_timeout by (rewrite ?Hs; done).
  rewrite timeoutWinner_ladder. cbn [fst snd]. fold u. fold w.
  destruct (tied (simA s) (simB s)); repeat split.
Qed.

(** ** Death within the tick of the hit *)

Lemma atCheck_control s a :
  spec (atCheck COS SIN s a) = spec s /\ tick (atCheck COS SIN s a) = tick s /\
  done (atCheck COS SIN s a) = done s /\ winner (atCheck COS SIN s a) = winner s.
Proof.
  destruct (beforeHits_physics s) as (Hc%control_fields & _ & _).
  destruct a; cbn [atCheck].
  - intuition congruence.
  - pose proof (checkHit_control (beforeHits s) IdA).
    set (s1 := beforeHits s) in *. clearbody s1. intuition congruence.
Qed.

(** A landed hit that brings the victim's health to 0 or below. *)
Lemma lethal_hit s1 a :
  lands COS SIN s1 a = true ->
  hp (ball s1 (other a)) - hitDamage (ball s1 a) (hitCount (ball s1 a) + 1) <= 0 ->
  let s2 := checkHit COS SIN s1 a in
  alive (ball s2 (other a)) = false /\ alive (ball s2 a) = true /\
  events s2
  = events s1 ++ [EvHit (tick s1) (id (ball s1 a)) (id (ball s1 (other a)))
                    (hitDamage (ball s1 a) (hitCount (ball s1 a) + 1));
                  EvDead (tick s1) (id (ball s1 (other a)))] /\
  tick s2 = tick s1 /\
  checkHit COS SIN s2 (other a) = s2.
Proof.
  intros Hl Hle s2.
  pose proof (checkHit_hit s1 a Hl) as Ho. fold s2 in Ho.
  destruct (hit_attacker _ _ _ Ho) as (_ & _ & _ & _ & _ & _ & Ha & _).
  destruct (hit_victim _ _ _ Ho) as (_ & _ & _ & _ & _ & _ & Hv & _).
  destruct Ho as [d lethal (_ & Ht & _) _ _ He]. subst d lethal.
  clearbody s2.
  apply Z.leb_le in Hle. rewrite Hle in Hv, He. cbn [negb] in Hv.
  unfold lands in Hl. apply andb_prop in Hl as [Hl _].
  apply andb_prop in Hl as [Hl _]. rewrite Hl in Ha.
  repeat split; try assumption.
  apply checkHit_miss. unfold lands. by rewrite Hv.
Qed.

(** C3: in a tick of a running match, when the hit check of attacker [a]
    lands and leaves the victim's health at 0 or below, the check itself
    clears the victim's alive flag and appends the dead event right after
    the hit event; a check that comes after it changes nothing; and the
    same [stepSim] call returns the match finished, the attacker its
    winner, the tick counted once, the log ending with that hit and that
    death; the next call changes nothing. *)
Theorem lethal_hit_ends_match_in_its_tick s a :
  done s = false ->
  bothAlive s = true ->
  tick s < sim_maxTicks (spec s) ->
  let s1 := atCheck COS SIN s a in
  let dmg := hitDamage (ball s1 a) (hitCount (ball s1 a) + 1) in
  lands COS SIN s1 a = true ->
  hp (ball s1 (other a)) - dmg <= 0 ->
  let s2 := checkHit COS SIN s1 a in
  let s' := stepSim COS SIN s in
  (alive (ball s2 (other a)) = false /\
   events s2 = events s1 ++ [EvHit (tick s) (id (ball s1 a)) (id (ball s1 (other a))) dmg;
                             EvDead (tick s) (id (ball s1 (other a)))]) /\
  checkHit COS SIN s2 (other a) = s2 /\
  (done s' = true /\ winner s' = Some a /\ tick s' = tick s + 1 /\
   events s' = events s2 /\ alive (ball s' (other a)) = false /\
   alive (ball s' a) = true) /\
  stepSim COS SIN s' = s'.
Proof.
  intros Hd Hb Ht s1 dmg Hl Hle s2 s'.
  assert (E1 : s1 = atCheck COS SIN s a) by reflexivity.
  assert (E2 : s2 = checkHit COS SIN s1 a) by reflexivity.
  assert (E' : s' = stepSim COS SIN s) by reflexivity.
  subst dmg. clearbody s' s2 s1.
  destruct (lethal_hit s1 a Hl Hle) as (Hv & Ha & He & Htk & Hnop).
  rewrite <- E2 in Hv, Ha, He, Htk, Hnop.
  destruct (atCheck_control s a) as (_ & Ht1 & _).
  rewrite <- E1 in Ht1. rewrite Ht1 in He.
  assert (E3 : checkHit COS SIN (checkHit COS SIN (beforeHits s) IdA) IdB = s2).
  { destruct a; cbn [atCheck other] in E1, Hnop.
    - rewrite <- E1, <- E2. exact Hnop.
    - rewrite <- E1. symmetry. exact E2. }
  assert (Hs' : s' = finish a (set_tick (tick s + 1) s2)).
  { rewrite E', stepSim_tick by assumption. unfold afterTick. cbv zeta.
    rewrite E3, Htk, Ht1. clear E1 E2 E3 E' Hnop He.
    unfold bothAlive, survivor.
    destruct a; cbn [ball other set_tick simA simB] in *; rewrite Hv, Ha; reflexivity. }
  clear E1 E2 E3 E'. subst s'.
  split; [split; assumption|]. split; [assumption|]. split.
  - destruct a; cbn in *; repeat split; assumption.
  - apply stepSim_done. reflexivity.
Qed.

(** ** Health *)

(** What one hit check does to the fields damage depends on. *)
Lemma checkHit_statics s a c :
  id (ball (checkHit COS SIN s a) c) = id (ball s c) /\
  baseDamage (ball (checkHit COS SIN s a) c) = baseDamage (ball s c) /\
  ramp (ball (checkHit COS SIN s a) c) = ramp (ball s c).
Proof.
  destruct (lands COS SIN s a) eqn:L; [|by rewrite checkHit_miss].
  pose proof (checkHit_hit s a L) as Ho.
  destruct (hit_attacker _ _ _ Ho) as (? & _ & _ & ? & ? & _).
  destruct (hit_victim _ _ _ Ho) as (? & _ & _ & ? & ? & _).
  destruct (decide (c = a)) as [->|Hne]; [done|].
  assert (c = other a) as -> by (destruct c, a; simpl; congruence). done.
Qed.

Lemma checkHit_attacker_hp s a :
  hp (ball (checkHit COS SIN s a) a) = hp (ball s a).
Proof.
  destruct (lands COS SIN s a) eqn:L; [|by rewrite checkHit_miss].
  apply (hit_attacker _ _ _ (checkHit_hit s a L)).
Qed.

Lemma checkHit_victim_hitCount s a :
  hitCount (ball (checkHit COS SIN s a) (other a)) = hitCount (ball s (other a)).
Proof.
  destruct (lands COS SIN s a) eqn:L; [|by rewrite checkHit_miss].
  apply (hit_victim _ _ _ (checkHit_hit s a L)).
Qed.

Lemma checkHit_victim_hp s a :
  hp (ball (checkHit COS SIN s a) (other a))
  = hp (ball s (other a))
    - (if lands COS SIN s a then hitDamage (ball s a) (hitCount (ball s a) + 1) else 0).
Proof.
  destruct (lands COS SIN s a) eqn:L; [|rewrite checkHit_miss by done; lia].
  apply (hit_victim _ _ _ (checkHit_hit s a L)).
Qed.

Lemma checkHit_attacker_hitCount s a :
  hitCount (ball (checkHit COS SIN s a) a)
  = hitCount (ball s a) + (if lands COS SIN s a then 1 else 0).
Proof.
  destruct (lands COS SIN s a) eqn:L; [|rewrite checkHit_miss by done; lia].
  apply (hit_attacker _ _ _ (checkHit_hit s a L)).
Qed.

Lemma checkHit_events s a :
  events (checkHit COS SIN s a) = events s ++ hitEvents COS SIN s a.
Proof.
  unfold hitEvents. cbv zeta. destruct (lands COS SIN s a) eqn:L.
  - by destruct (checkHit_hit s a L) as [d lethal _ _ _ He].
  - rewrite checkHit_miss by done. by rewrite app_nil_r.
Qed.

Lemma checkHit_victim_alive s a :
  alive (ball (checkHit COS SIN s a) (other a))
  = alive (ball s (other a))
    && negb (lands COS SIN s a
             && (hp (ball s (other a))
                 - hitDamage (ball s a) (hitCount (ball s a) + 1) <=? 0)).
Proof.
  destruct (lands COS SIN s a) eqn:L.
  - destruct (hit_victim _ _ _ (checkHit_hit s a L)) as (_ & _ & _ & _ & _ & _ & -> & _).
    unfold lands in L. apply andb_prop in L as [L _].
    apply andb_prop in L as [_ ->]. reflexivity.
  - rewrite checkHit_miss by done. cbn [andb negb]. by rewrite andb_true_r.
Qed.

Lemma ball_set_tick v s c : ball (set_tick v s) c = ball s c.
Proof. by destruct c. Qed.

Lemma other_other b : other (other b) = b.
Proof. by destruct b. Qed.

Lemma hitDamage_ext b b' n :
  baseDamage b' = baseDamage b -> ramp b' = ramp b -> hitDamage b' n = hitDamage b n.
Proof. unfold hitDamage. by intros -> ->. Qed.

(** Up to the check of attacker [a], nothing has touched what that check
    reads of damage, health and life. *)
Lemma atCheck_reads s a :
  (forall c, id (ball (atCheck COS SIN s a) c) = id (ball s c) /\
             baseDamage (ball (atCheck COS SIN s a) c) = baseDamage (ball s c) /\
             ramp (ball (atCheck COS SIN s a) c) = ramp (ball s c)) /\
  hitCount (ball (atCheck COS SIN s a) a) = hitCount (ball s a) /\
  hp (ball (atCheck COS SIN s a) (other a)) = hp (ball s (other a)) /\
  alive (ball (atCheck COS SIN s a) (other a)) = alive (ball s (other a)) /\
  exists pre, events (atCheck COS SIN s a) = events s ++ pre.
Proof.
  destruct (beforeHits_physics s) as (_ & Hv & pre & He & _).
  assert (Hf := fun c => vitals_fields _ _ (Hv c)).
  destruct a; cbn [atCheck other].
  - split; [intros c; destruct (Hf c) as (? & _ & _ & ? & ? & _); done|].
    destruct (Hf IdA) as (_ & _ & _ & _ & _ & ? & _).
    destruct (Hf IdB) as (_ & ? & _ & _ & _ & _ & ? & _). eauto 10.
  - pose proof (checkHit_statics (beforeHits s) IdA) as Hs.
    pose proof (checkHit_victim_hitCount (beforeHits s) IdA) as Hc.
    pose proof (checkHit_attacker_hp (beforeHits s) IdA) as Hh.
    pose proof (checkHit_alive_attacker (beforeHits s) IdA) as Hl.
    pose proof (checkHit_events (beforeHits s) IdA) as Hev.
    cbn [other] in *. set (evs := hitEvents COS SIN (beforeHits s) IdA) in *. clearbody evs.
    set (s1 := beforeHits s) in *. clearbody s1.
    split.
    + intros c. destruct (Hs c) as (-> & -> & ->).
      destruct (Hf c) as (? & _ & _ & ? & ? & _). done.
    + destruct (Hf IdB) as (_ & _ & _ & _ & _ & ? & _).
      destruct (Hf IdA) as (_ & ? & _ & _ & _ & _ & ? & _).
      rewrite Hc, Hh, Hl, Hev, He, <- app_assoc. eauto 10.
Qed.

(** From the check of attacker [a] to the end of the tick, nothing more
    touches the victim's health and life or the attacker's count. *)
Lemma afterCheck_keeps s a :
  let s2 := checkHit COS SIN (atCheck COS SIN s a) a in
  (forall c, id (ball (afterTick COS SIN s) c) = id (ball s2 c) /\
             baseDamage (ball (afterTick COS SIN s) c) = baseDamage (ball s2 c) /\
             ramp (ball (afterTick COS SIN s) c) = ramp (ball s2 c)) /\
  hitCount (ball (afterTick COS SIN s) a) = hitCount (ball s2 a) /\
  hp (ball (afterTick COS SIN s) (other a)) = hp (ball s2 (other a)) /\
  alive (ball (afterTick COS SIN s) (other a)) = alive (ball s2 (other a)) /\
  exists post, events (afterTick COS SIN s) = events s2 ++ post.
Proof.
  unfold afterTick. cbv zeta. destruct a; cbn [atCheck other].
  - set (s2 := checkHit COS SIN (beforeHits s) IdA).
    pose proof (checkHit_statics s2 IdB) as Hs.
    pose proof (checkHit_victim_hitCount s2 IdB) as Hc.
    pose proof (checkHit_attacker_hp s2 IdB) as Hh.
    pose proof (checkHit_alive_attacker s2 IdB) as Hl.
    pose proof (checkHit_events s2 IdB) as Hev.
    cbn [other] in *. set (evs := hitEvents COS SIN s2 IdB) in *. clearbody evs.
    set (s3 := checkHit COS SIN s2 IdB) in *.
    clearbody s3. clearbody s2. setoid_rewrite ball_set_tick. cbn [events set_tick].
    split; [intros []; apply Hs|]. split; [exact Hc|]. split; [exact Hh|].
    split; [exact Hl|]. eauto.
  - set (s3 := checkHit COS SIN (checkHit COS SIN (beforeHits s) IdA) IdB).
    clearbody s3. setoid_rewrite ball_set_tick. cbn [events set_tick].
    split; [by intros []|]. do 3 (split; [reflexivity|]).
    exists []. by rewrite app_nil_r.
Qed.

(** The effect of a full tick on the health and life of [b] and on the
    hit count of its opponent, and the events of the hit [b] takes. *)
Lemma tick_effect s b :
  let a := other b in
  let dmg := hitDamage (ball s a) (hitCount (ball s a) + 1) in
  let lethal := hp (ball s b) - dmg <=? 0 in
  let t := afterTick COS SIN s in
  (forall c, baseDamage (ball t c) = baseDamage (ball s c) /\
             ramp (ball t c) = ramp (ball s c)) /\
  hp (ball t b) = hp (ball s b) - (if struck COS SIN s b then dmg else 0) /\
  hitCount (ball t a) = hitCount (ball s a) + (if struck COS SIN s b then 1 else 0) /\
  alive (ball t b) = alive (ball s b) && negb (struck COS SIN s b && lethal) /\
  exists pre post,
    events t
    = events s ++ pre
      ++ (if struck COS SIN s b
          then EvHit (tick s) (id (ball s a)) (id (ball s b)) dmg
               :: (if lethal then [EvDead (tick s) (id (ball s b))] else [])
          else [])
      ++ post.
Proof.
  intros a dmg lethal t. subst t lethal dmg. unfold struck. fold a.
  assert (Hb : other a = b) by apply other_other.
  destruct (atCheck_reads s a) as (Hst1 & Hc1 & Hh1 & Hl1 & pre & He1).
  destruct (atCheck_control s a) as (_ & Ht1 & _).
  destruct (afterCheck_keeps s a) as (Hst3 & Hc3 & Hh3 & Hl3 & post & He3).
  pose proof (checkHit_statics (atCheck COS SIN s a) a) as Hst2.
  pose proof (checkHit_victim_hp (atCheck COS SIN s a) a) as Hh2.
  pose proof (checkHit_victim_alive (atCheck COS SIN s a) a) as Hl2.
  pose proof (checkHit_attacker_hitCount (atCheck COS SIN s a) a) as Hc2.
  pose proof (checkHit_events (atCheck COS SIN s a) a) as He2.
  unfold hitEvents in He2. cbv zeta in He2.
  set (s1 := atCheck COS SIN s a) in *.
  set (s2 := checkHit COS SIN s1 a) in *.
  set (t := afterTick COS SIN s) in *.
  clearbody t s2 s1. rewrite Hb in *.
  assert (Hd : hitDamage (ball s1 a) (hitCount (ball s1 a) + 1)
               = hitDamage (ball s a) (hitCount (ball s a) + 1)).
  { rewrite Hc1. apply hitDamage_ext; apply Hst1. }
  rewrite Hd in *.
  destruct (Hst1 a) as (Hia & _). destruct (Hst1 b) as (Hib & _).
  rewrite Hia, Hib, Ht1, Hh1 in He2. rewrite Hh1 in Hl2.
  split.
  { intros c. destruct (Hst3 c) as (_ & -> & ->).
    destruct (Hst2 c) as (_ & -> & ->). destruct (Hst1 c) as (_ & -> & ->). done. }
  split; [congruence|]. split; [congruence|]. split; [congruence|].
  exists pre, post. rewrite He3, He2, He1, <- !app_assoc. reflexivity.
Qed.

(** A call of [stepSim] either leaves both combatants as they are or runs
    one full tick. *)
Lemma stepSim_balls s :
  ((forall c, ball (stepSim COS SIN s) c = ball s c) /\
   exists evs, events (stepSim COS SIN s) = events s ++ evs /\
               forall e, e ∈ evs -> exists w, e = EvTimeout (tick s) w) \/
  ((forall c, ball (stepSim COS SIN s) c = ball (afterTick COS SIN s) c) /\
   events (stepSim COS SIN s) = events (afterTick COS SIN s)).
Proof.
  destruct (done s) eqn:Hd.
  { left. rewrite stepSim_done by assumption. split; [reflexivity|].
    exists []. rewrite app_nil_r. split; [reflexivity|]. by intros e ?%elem_of_nil. }
  destruct (bothAlive s) eqn:Hb.
  2:{ left. rewrite stepSim_eliminated by assumption. split; [intros []; reflexivity|].
      exists []. cbn. rewrite app_nil_r. split; [reflexivity|].
      by intros e ?%elem_of_nil. }
  destruct (Z_lt_le_dec (tick s) (sim_maxTicks (spec s))) as [Hlt|Hge].
  - right. rewrite stepSim_tick by assumption.
    set (t := afterTick COS SIN s). clearbody t.
    destruct (bothAlive t); split; try reflexivity; intros []; reflexivity.
  - left. rewrite stepSim_timeout by assumption.
    destruct (timeoutWinner_frame s) as (_ & Et & Ee & EA & EB).
    set (w := (timeoutWinner s).1) in *. set (s' := (timeoutWinner s).2) in *.
    clearbody w s'. cbn. split; [intros []; cbn; congruence|].
    exists [EvTimeout (tick s) w]. rewrite Ee. split; [reflexivity|].
    intros e ->%list_elem_of_singleton. eauto.
Qed.






(** ** Construction *)

Lemma Get_Own ws i w : Get ws i = Own w <-> ws !! i = Some w.
Proof.
  unfold Get. destruct (ws !! i) as [w'|].
  - split; congruence.
  - case_bool_decide; split; discriminate.
Qed.

Lemma Get_Undefined ws i :
  Get ws i = Undefined <-> ws !! i = None /\ i ∉ Object_prototype_names.
Proof.
  unfold Get. destruct (ws !! i) as [w|].
  - split; [discriminate|intros [? _]; discriminate].
  - case_bool_decide; split; try done. by intros [_ ?].
Qed.

Lemma Get_Inherited ws i :
  Get ws i = Inherited <-> ws !! i = None /\ i ∈ Object_prototype_names.
Proof.
  unfold Get. destruct (ws !! i) as [w|].
  - split; [discriminate|intros [? _]; discriminate].
  - case_bool_decide; split; try done. by intros [_ ?].
Qed.

Lemma initBall_outcome sp scale b j :
  match initBall sp scale b j with
  | Ok _ => is_Some (weapons sp !! b_weaponId b)
  | Throw msg => Get (weapons sp) (b_weaponId b) = Undefined /\
                 msg = "Unknown weaponId: " +:+ b_weaponId b
  | Malformed => Get (weapons sp) (b_weaponId b) = Inherited
  end.
Proof.
  unfold initBall, Get. destruct (weapons sp !! b_weaponId b) as [w|].
  - destruct (rng_next _). eauto.
  - by case_bool_decide.
Qed.

(** What an outcome of [initBall] tells about the two ways of reading the
    identifier, written into the goal. *)
Ltac lookup_facts H :=
  match type of H with
  | is_Some _ =>
      let w := fresh "w" in
      destruct H as [w H]; rewrite ?(proj2 (Get_Own _ _ _) H), ?H
  | _ /\ _ =>
      let E := fresh in
      destruct H as [H E]; subst;
      rewrite ?H, ?(proj1 (proj1 (Get_Undefined _ _) H))
  | _ = Inherited => rewrite ?H, ?(proj1 (proj1 (Get_Inherited _ _) H))
  end.

Lemma createSim_resolves sp :
  ((exists msg, createSim sp = Throw msg) <->
   Get (weapons sp) (b_weaponId (ballA sp)) = Undefined \/
   Get (weapons sp) (b_weaponId (ballB sp)) = Undefined) /\
  ((exists s0, createSim sp = Ok s0) <->
   is_Some (weapons sp !! b_weaponId (ballA sp)) /\
   is_Some (weapons sp !! b_weaponId (ballB sp))) /\
  (createSim sp = Malformed <->
   Get (weapons sp) (b_weaponId (ballA sp)) <> Undefined /\
   Get (weapons sp) (b_weaponId (ballB sp)) <> Undefined /\
   (Get (weapons sp) (b_weaponId (ballA sp)) = Inherited \/
    Get (weapons sp) (b_weaponId (ballB sp)) = Inherited)) /\
  (forall msg, createSim sp = Throw msg ->
     msg = "Unknown weaponId: "
           +:+ match Get (weapons sp) (b_weaponId (ballA sp)) with
               | Undefined => b_weaponId (ballA sp)
               | _ => b_weaponId (ballB sp)
               end).
Proof.
  pose proof (initBall_outcome sp (sim_scale sp) (ballA sp) 0xA1B2C3D4) as HA.
  pose proof (initBall_outcome sp (sim_scale sp) (ballB sp) 0xB4C3D2A1) as HB.
  unfold createSim. cbv zeta.
  destruct (initBall sp _ (ballA sp) _) as [A|mA|];
    destruct (initBall sp _ (ballB sp) _) as [B|mB|];
    lookup_facts HA; lookup_facts HB; unfold is_Some; repeat split; intros;
    repeat match goal with
    | H : exists _, _ |- _ => destruct H
    | H : _ /\ _ |- _ => destruct H
    | H : _ \/ _ |- _ => destruct H
    end; try discriminate; try congruence; eauto.
Qed.

(** C9: what [createSim] does with the two weapon identifiers.  The
    lookup [spec.weapons[id]] reads through the mapping to what every
    object inherits, and the test that follows it only asks for a truthy
    value.  So [createSim] throws exactly when one of the two identifiers
    is absent from the mapping and is not an inherited name either, naming
    the first such identifier (A's before B's); a call that throws returns
    no state, and the driver built on it throws in turn without one call of
    [stepSim]; a call on identifiers the mapping holds returns a state with
    the tick counter at 0, an empty log and the match not finished.  A
    call on an identifier the mapping does not hold, but every object
    inherits, does not throw: it returns, with an object that is no
    weapon read as one.  The description [hijacked] is such a call: its
    first identifier is absent from the mapping, and [createSim] does not
    throw. *)
Theorem createSim_outcomes sp :
  (forall ws i, Get ws i = Undefined <-> ws !! i = None /\ i ∉ Object_prototype_names) /\
  (forall ws i, Get ws i = Inherited <-> ws !! i = None /\ i ∈ Object_prototype_names) /\
  ((exists msg, createSim sp = Throw msg) <->
   Get (weapons sp) (b_weaponId (ballA sp)) = Undefined \/
   Get (weapons sp) (b_weaponId (ballB sp)) = Undefined) /\
  ((exists s0, createSim sp = Ok s0) <->
   is_Some (weapons sp !! b_weaponId (ballA sp)) /\
   is_Some (weapons sp !! b_weaponId (ballB sp))) /\
  (createSim sp = Malformed <->
   Get (weapons sp) (b_weaponId (ballA sp)) <> Undefined /\
   Get (weapons sp) (b_weaponId (ballB sp)) <> Undefined /\
   (Get (weapons sp) (b_weaponId (ballA sp)) = Inherited \/
    Get (weapons sp) (b_weaponId (ballB sp)) = Inherited)) /\
  (forall msg, createSim sp = Throw msg ->
     msg = "Unknown weaponId: "
           +:+ match Get (weapons sp) (b_weaponId (ballA sp)) with
               | Undefined => b_weaponId (ballA sp)
               | _ => b_weaponId (ballB sp)
               end /\
     forall fuel, runMatch COS SIN fuel sp = Throw msg) /\
  (forall s0, createSim sp = Ok s0 -> tick s0 = 0 /\ events s0 = [] /\ done s0 = false) /\
  (weapons hijacked !! b_weaponId (ballA hijacked) = None /\
   createSim hijacked = Malformed /\
   (forall msg, createSim hijacked <> Throw msg) /\
   forall fuel, runMatch COS SIN fuel hijacked = Malformed) /\
  createSim unarmed = Throw "Unknown weaponId: axe".
Proof.
  destruct (createSim_resolves sp) as (Hthrow & Hok & Hmal & Hmsg).
  split; [exact Get_Undefined|]. split; [exact Get_Inherited|].
  split; [exact Hthrow|]. split; [exact Hok|]. split; [exact Hmal|].
  split; [|split; [|split]].
  - intros msg H. split; [by apply Hmsg|].
    intros fuel. unfold runMatch. by rewrite H.
  - intros s0 H. destruct (createSim_Ok _ _ H) as (_ & ? & ? & _ & ? & _). done.
  - assert (E : createSim hijacked = Malformed) by (vm_compute; reflexivity).
    split; [vm_compute; reflexivity|]. split; [exact E|].
    split; [intros msg; rewrite E; discriminate|].
    intros fuel. unfold runMatch. by rewrite E.
  - vm_compute. reflexivity.
Qed.

(** ** Life *)

(** A call of [stepSim] clears an alive flag only by a lethal hit. *)
Lemma stepSim_kills s c :
  alive (ball s c) = true ->
  alive (ball (stepSim COS SIN s) c) = false ->
  let a := other c in
  let dmg := hitDamage (ball s a) (hitCount (ball s a) + 1) in
  hp (ball s c) - dmg <= 0 /\
  hp (ball (stepSim COS SIN s) c) = hp (ball s c) - dmg /\
  exists pre post,
    events (stepSim COS SIN s)
    = events s ++ pre
      ++ [EvHit (tick s) (id (ball s a)) (id (ball s c)) dmg; EvDead (tick s) (id (ball s c))]
      ++ post.
Proof.
  intros Hl Hd a dmg. subst dmg.
  destruct (stepSim_balls s) as [(Hb & _)|(Hb & He)].
  { rewrite Hb in Hd. congruence. }
  destruct (tick_effect s c) as (_ & Hh & _ & Ha & pre & post & Hev).
  fold a in Hh, Ha, Hev. rewrite Hb in *. rewrite He.
  set (t := afterTick COS SIN s) in *. clearbody t.
  rewrite Hl, Hd in Ha. cbn [andb] in Ha.
  symmetry in Ha. apply negb_false_iff, andb_prop in Ha as [Hs Hle].
  rewrite Hs in *. rewrite Hle in Hev. apply Z.leb_le in Hle.
  split; [exact Hle|]. split; [exact Hh|]. eauto.
Qed.

(** The end of a tick: the match is marked finished when a combatant is
    no longer alive. *)
Lemma settle_fields t :
  let s' := if bothAlive t then t else finish (survivor t) t in
  tick s' = tick t /\ (forall c, ball s' c = ball t c) /\ events s' = events t /\
  (done s' = true -> done t = true \/ bothAlive t = false).
Proof.
  cbv zeta. destruct (bothAlive t); cbn.
  - repeat split. by left.
  - split; [reflexivity|]. split; [by intros []|]. split; [reflexivity|]. by right.
Qed.

Lemma fresh_alive sp s0 :
  createSim sp = Ok s0 ->
  alive (simA s0) = true /\ alive (simB s0) = true /\ done s0 = false /\
  hp (simA s0) = b_hp (ballA sp) /\ hp (simB s0) = b_hp (ballB sp).
Proof.
  intros H0.
  destruct (createSim_Ok _ _ H0) as (_ & _ & Hd & _ & _ & _ & HA & HB).
  apply initBall_Ok in HA as (_ & _ & ? & ? & _).
  apply initBall_Ok in HB as (_ & _ & ? & ? & _). done.
Qed.

Lemma running_ticks sp n s :
  reachedIn COS SIN sp n s ->
  done s = false ->
  alive (simA s) = true /\ alive (simB s) = true /\
  (tick s < sim_maxTicks sp ->
   tick (stepSim COS SIN s) = tick s + 1 /\
   (done (stepSim COS SIN s) = true ->
    exists c, alive (ball (stepSim COS SIN s) c) = false)).
Proof.
  intros Hr Hd.
  apply reachedIn_runInv in Hr as (Hs & _ & _ & Hrun).
  destruct (Hrun Hd) as (Hb & _ & _).
  pose proof Hb as Hb'. unfold bothAlive in Hb'. apply andb_prop in Hb' as [HA HB].
  split; [exact HA|]. split; [exact HB|]. intros Hlt.
  rewrite stepSim_tick by (rewrite ?Hs; assumption).
  destruct (afterTick_control s) as (_ & Et & Ed & _).
  destruct (settle_fields (afterTick COS SIN s)) as (Ht' & Hball & _ & Hdone).
  rewrite Ht', Et. split; [reflexivity|].
  intros Hfin. apply Hdone in Hfin as [Hfin|Hdead]; [congruence|].
  setoid_rewrite Hball.
  unfold bothAlive in Hdead. apply andb_false_iff in Hdead as [Hc|Hc];
    [exists IdA | exists IdB]; exact Hc.
Qed.

(** C10: [createSim] returns both combatants alive and the match not
    finished whatever the starting health, which it copies as it is, zero
    and negative values included; along the run a call of [stepSim] clears
    the alive flag of a combatant only by a hit that leaves its health at
    0 or below, the hit and the death logged in that call; and a running
    match below the tick ceiling simulates one more tick at each call and
    finishes in it only if a combatant has been killed in it. *)
Theorem alive_until_killed_by_a_hit sp s0 :
  createSim sp = Ok s0 ->
  (alive (simA s0) = true /\ alive (simB s0) = true /\ done s0 = false /\
   hp (simA s0) = b_hp (ballA sp) /\ hp (simB s0) = b_hp (ballB sp)) /\
  (forall n s c,
     reachedIn COS SIN sp n s ->
     alive (ball s c) = true ->
     alive (ball (stepSim COS SIN s) c) = false ->
     let a := other c in
     let dmg := hitDamage (ball s a) (hitCount (ball s a) + 1) in
     hp (ball s c) - dmg <= 0 /\
     hp (ball (stepSim COS SIN s) c) = hp (ball s c) - dmg /\
     exists pre post,
       events (stepSim COS SIN s)
       = events s ++ pre
         ++ [EvHit (tick s) (id (ball s a)) (id (ball s c)) dmg;
             EvDead (tick s) (id (ball s c))]
         ++ post) /\
  (forall n s,
     reachedIn COS SIN sp n s ->
     done s = false ->
     alive (simA s) = true /\ alive (simB s) = true /\
     (tick s < sim_maxTicks sp ->
      tick (stepSim COS SIN s) = tick s + 1 /\
      (done (stepSim COS SIN s) = true ->
       exists c, alive (ball (stepSim COS SIN s) c) = false))).
Proof.
  intros H0. split; [|split].
  - exact (fresh_alive sp s0 H0).
  - intros n s c _. exact (stepSim_kills s c).
  - exact (running_ticks sp).
Qed.

(** ** Determinism of a full run *)

Lemma runLoop_done fuel s : done s = true -> runLoop COS SIN fuel s = Some s.
Proof. intros H. destruct fuel; cbn [runLoop]; by rewrite H. Qed.

Lemma runLoop_step fuel s :
  done s = false ->
  runLoop COS SIN (S fuel) s = runLoop COS SIN fuel (stepSim COS SIN s).
Proof. intros H. cbn [runLoop]. by rewrite H. Qed.

(** The loop returns a finished state, the one a number of calls within
    the fuel leads to. *)
Lemma runLoop_returns fuel : forall s s',
  runLoop COS SIN fuel s = Some s' ->
  done s' = true /\ exists k, (k <= fuel)%nat /\ s' = Nat.iter k (stepSim COS SIN) s.
Proof.
  induction fuel as [|fuel IH]; intros s s'; destruct (done s) eqn:Hd.
  - rewrite runLoop_done by done. intros [= <-]. split; [done|]. by exists 0%nat.
  - cbn [runLoop]. rewrite Hd. discriminate.
  - rewrite runLoop_done by done. intros [= <-]. split; [done|].
    exists 0%nat. split; [lia|done].
  - rewrite runLoop_step by done. intros [Hs' (k & Hk & ->)]%IH.
    split; [done|]. exists (S k). split; [lia|]. by rewrite Nat.iter_succ_r.
Qed.

(** More fuel does not change what the loop returns. *)
Lemma runLoop_more fuel : forall fuel' s s',
  (fuel <= fuel')%nat ->
  runLoop COS SIN fuel s = Some s' -> runLoop COS SIN fuel' s = Some s'.
Proof.
  induction fuel as [|fuel IH]; intros fuel' s s' Hle; destruct (done s) eqn:Hd.
  - by rewrite !runLoop_done.
  - cbn [runLoop]. rewrite Hd. discriminate.
  - by rewrite !runLoop_done.
  - destruct fuel' as [|fuel']; [lia|]. rewrite !runLoop_step by done.
    apply IH. lia.
Qed.

(** The loop stops as soon as a state along the way is finished. *)
Lemma runLoop_stops k : forall s,
  done (Nat.iter k (stepSim COS SIN) s) = true ->
  exists s', runLoop COS SIN k s = Some s'.
Proof.
  induction k as [|k IH]; intros s H; destruct (done s) eqn:Hd.
  - rewrite runLoop_done by done. eauto.
  - cbn in H. congruence.
  - rewrite runLoop_done by done. eauto.
  - rewrite runLoop_step by done. apply IH. by rewrite <- Nat.iter_succ_r.
Qed.

Lemma reachedIn_iter sp s0 n :
  createSim sp = Ok s0 -> reachedIn COS SIN sp n (Nat.iter n (stepSim COS SIN) s0).
Proof.
  intros H. induction n as [|n IH]; [by constructor|].
  cbn [Nat.iter nat_rect]. by constructor.
Qed.

(** X16: the loop of the command-line runner,
    [while (!sim.done) stepSim(sim)], ends: on a match description whose
    two weapon identifiers the mapping holds, it stops within
    [maxTicks + 1] calls of [stepSim], in a finished state.  The bound
    given to the loop plays no part in the result: every bound of at
    least [maxTicks + 1] gives that state, and no bound gives another
    one. *)
Theorem runner_loop_ends sp :
  is_Some (weapons sp !! b_weaponId (ballA sp)) ->
  is_Some (weapons sp !! b_weaponId (ballB sp)) ->
  exists s,
    done s = true /\
    (forall fuel, (Z.to_nat (sim_maxTicks sp) + 1 <= fuel)%nat ->
       runMatch COS SIN fuel sp = Ok (Some s)) /\
    (forall fuel s1, runMatch COS SIN fuel sp = Ok (Some s1) -> s1 = s).
Proof.
  intros HA HB.
  destruct (createSim_resolves sp) as (_ & [_ Hok] & _).
  destruct (Hok (conj HA HB)) as [s0 H0]. clear Hok.
  set (bound := (Z.to_nat (sim_maxTicks sp) + 1)%nat).
  assert (Hfin : done (Nat.iter bound (stepSim COS SIN) s0) = true).
  { pose proof (reachedIn_runInv _ _ _ (reachedIn_iter sp s0 bound H0))
      as (_ & _ & _ & Hrun).
    destruct (done _); [reflexivity|].
    destruct (Hrun eq_refl) as (_ & _ & Hle). subst bound. lia. }
  destruct (runLoop_stops _ _ Hfin) as [s Hs].
  exists s. split; [by apply runLoop_returns in Hs as [? _]|]. split.
  - intros fuel Hle. unfold runMatch. rewrite H0. f_equal.
    by apply (runLoop_more bound).
  - intros fuel s1. unfold runMatch. rewrite H0. intros [= H1].
    apply (runLoop_more _ (max fuel bound)) in H1; [|lia].
    apply (runLoop_more _ (max fuel bound)) in Hs; [|lia]. congruence.
Qed.

End EngineFacts.

(** * More of the engine *)

Section EngineMore.

Variables COS SIN : Z -> Z.

(** The lemmas of this part that open the steps of a tick come first. *)
Transparent beforeHits checkHit stepSim.

(** ** Wall reflection *)

(** [forget X x]: the term [X] becomes a variable [x] everywhere. *)
Ltac forget X x := let E := fresh in remember X as x eqn:E in *; clear E.

Ltac order_hyps :=
  repeat match goal with
    | H : (_ <? _) = true |- _ => apply Z.ltb_lt in H
    | H : (_ <? _) = false |- _ => apply Z.ltb_ge in H
    | H : (_ >? _) = true |- _ => rewrite Z.gtb_ltb in H; apply Z.ltb_lt in H
    | H : (_ >? _) = false |- _ => rewrite Z.gtb_ltb in H; apply Z.ltb_ge in H
    | H : (_ <=? _) = true |- _ => apply Z.leb_le in H
    | H : (_ <=? _) = false |- _ => apply Z.leb_gt in H
    | H : (_ =? _) = true |- _ => apply Z.eqb_eq in H
    | H : (_ =? _) = false |- _ => apply Z.eqb_neq in H
    end.

(** What [applyWallBounce] does to the combatant it is given: per axis it
    either leaves position and velocity alone or clamps the position to
    the wall and replaces the velocity by its rounded reflection, logging
    the wall. *)
Lemma applyWallBounce_acts s b :
  let s' := applyWallBounce s b in
  let bl := ball s b in
  let bl' := ball s' b in
  ball s' (other b) = ball s (other b) /\
  control s' = control s /\
  theta bl' = theta bl /\ r bl' = r bl /\
  (exists evs, events s' = events s ++ evs /\ (length evs <= 2)%nat /\
     Forall (fun e => exists side, e = EvWall (tick s) (id bl) side) evs /\
     (evs = [] <-> (0 <= vx (pos bl) - r bl /\ vx (pos bl) + r bl <= arenaW s /\
                    0 <= vy (pos bl) - r bl /\ vy (pos bl) + r bl <= arenaH s)) /\
     (evs = [] -> s' = s)) /\
  (2 * r bl <= arenaW s -> r bl <= vx (pos bl') <= arenaW s - r bl) /\
  (2 * r bl <= arenaH s -> r bl <= vy (pos bl') <= arenaH s - r bl).
Proof.
  unfold applyWallBounce. cbv zeta.
  destruct b; cbn [ball other]; repeat case_match; order_hyps;
    cbn [ball other set_ball push set_simA set_simB set_pos set_vel set_x set_y
         set_events events pos vel vx vy r id theta simA simB tick arenaW arenaH
         control spec SCALE wallRest rng done winner] in *;
    (split; [reflexivity|]); (split; [reflexivity|]);
    (split; [reflexivity|]); (split; [reflexivity|]);
    (split; [|split; intros; lia]);
    first [ (exists []; split; [rewrite app_nil_r; reflexivity|])
          | (eexists [_]; split; [reflexivity|])
          | (eexists [_; _]; split; [rewrite <- app_assoc; reflexivity|]) ];
    (split; [cbn; lia|]);
    (split; [repeat constructor; eauto|]);
    (split; [split; [first [discriminate | intros _; lia]
                    | first [reflexivity | intros; exfalso; lia]] | ]);
    first [discriminate | intros _; destruct s; reflexivity].
Qed.

(** ** Body-body collision, when it acts *)

Lemma resolveBallBallCollision_with_acts f s :
  let s' := resolveBallBallCollision_with f s in
  (overlapping s = false -> s' = s) /\
  events s'
  = events s ++ (if overlapping s
                 then [EvCollide (tick s) (id (simA s)) (id (simB s))] else []) /\
  (forall c, theta (ball s' c) = theta (ball s c)) /\
  vx (vel (simA s')) + vx (vel (simB s')) = vx (vel (simA s)) + vx (vel (simB s)) /\
  vy (vel (simA s')) + vy (vel (simB s')) = vy (vel (simA s)) + vy (vel (simB s)) /\
  vx (pos (simA s')) + vx (pos (simB s')) = vx (pos (simA s)) + vx (pos (simB s)) /\
  vy (pos (simA s')) + vy (pos (simB s')) = vy (pos (simA s)) + vy (pos (simB s)).
Proof.
  pose proof (centresDist2_nonneg s) as Hpos.
  unfold resolveBallBallCollision_with, overlapping, centresDist2, radiiSum, dist2 in *.
  cbv zeta in *.
  set (d2 := (vx (pos (simB s)) - vx (pos (simA s))) * (vx (pos (simB s)) - vx (pos (simA s)))
             + (vy (pos (simB s)) - vy (pos (simA s))) * (vy (pos (simB s)) - vy (pos (simA s)))) in *.
  set (rSum := r (simA s) + r (simB s)) in *.
  destruct (alive (simA s)); [destruct (alive (simB s))|]; cbn [negb orb andb].
  2, 3: rewrite app_nil_r; repeat split; intros []; reflexivity.
  destruct (Z.eqb_spec d2 0) as [E|E].
  { replace (0 <? d2) with false by (symmetry; apply Z.ltb_ge; lia).
    cbn [andb]. rewrite app_nil_r. repeat split; intros []; reflexivity. }
  replace (0 <? d2) with true by (symmetry; apply Z.ltb_lt; lia).
  rewrite Z.gtb_ltb, Z.leb_antisym. cbn [andb].
  destruct (rSum * rSum <? d2); cbn [negb].
  { rewrite app_nil_r. repeat split; intros []; reflexivity. }
  split; [discriminate|].
  destruct (0 <? _)%float; cbn; (split; [reflexivity|]);
    (split; [intros []; reflexivity|]); repeat split; lia.
Qed.

(** ** The hit check and the shared stream *)

Lemma rng_next_counter t : (rng_next t).2 = rng_step t.
Proof. reflexivity. Qed.

Lemma rng_step_num t : rng_step t = JS.num (t + rngStride).
Proof. reflexivity. Qed.

(** A landed hit draws twice from the shared stream, a check that does
    not land draws nothing; no check moves a combatant or turns a weapon,
    and none touches the attacker's velocity. *)
Lemma checkHit_draws s a :
  let s' := checkHit COS SIN s a in
  rng s' = (if lands COS SIN s a then rng_step (rng_step (rng s)) else rng s) /\
  (forall c, theta (ball s' c) = theta (ball s c) /\ pos (ball s' c) = pos (ball s c)) /\
  vel (ball s' a) = vel (ball s a).
Proof.
  unfold lands, checkHit. cbv zeta.
  destruct (alive (ball s a)); [|cbn [negb orb andb]; by repeat split].
  destruct (alive (ball s (other a))); [|cbn [negb orb andb]; by repeat split].
  cbn [negb orb andb].
  destruct (tipTouches COS SIN (ball s a) (ball s (other a))); [|by repeat split].
  destruct (rng_next (rng _)) as [u1 g1] eqn:E1.
  destruct (rng_next g1) as [u2 g2] eqn:E2.
  apply (f_equal snd) in E1, E2. rewrite rng_next_counter in E1, E2.
  destruct a; cbn [other ball set_ball] in *;
    cbn [rng push set_events set_simA set_simB snd] in E1, E2; subst g1 g2;
    destruct (_ <=? 0); cbn; (split; [reflexivity|]); split; try reflexivity;
    intros []; split; reflexivity.
Qed.

(** ** The steps before the hit checks *)

Lemma beforeHits_steps s :
  beforeHits s
  = resolveBallBallCollision (applyWallBounce (applyWallBounce (afterMove s) IdA) IdB).
Proof. reflexivity. Qed.

Lemma afterMove_acts s :
  control (afterMove s) = control s /\ events (afterMove s) = events s /\
  (forall c, theta (ball (afterMove s) c) = JS.and (theta (ball s c) + omega (ball s c)) 0xffff /\
             id (ball (afterMove s) c) = id (ball s c) /\
             vel (ball (afterMove s) c) = vel (ball s c)).
Proof. split; [reflexivity|]. split; [reflexivity|]. intros []; repeat split. Qed.

Lemma grows_refl s : grows s s.
Proof.
  split; [reflexivity|]. split; [reflexivity|].
  exists []. split; [rewrite app_nil_r; reflexivity | constructor].
Qed.

Lemma grows_trans s1 s2 s3 : grows s1 s2 -> grows s2 s3 -> grows s1 s3.
Proof.
  intros (Ht1 & Ha1 & e1 & He1 & Hf1) (Ht2 & Ha2 & e2 & He2 & Hf2).
  split; [congruence|]. split; [intros c; rewrite Ha2; apply Ha1|].
  exists (e1 ++ e2). split; [rewrite He2, He1, app_assoc; reflexivity|].
  apply Forall_app. split; [exact Hf1|].
  eapply Forall_impl; [exact Hf2|]. intros e He. cbn in He. congruence.
Qed.

Lemma applyWallBounce_grows s b : grows s (applyWallBounce s b).
Proof.
  destruct (applyWallBounce_acts s b)
    as (Ho & Hc & Hth & _ & (evs & He & _ & Hf & _) & _).
  apply control_fields in Hc as (_ & _ & _ & _ & _ & Ht & _).
  forget (applyWallBounce s b) s'.
  split; [exact Ht|]. split.
  - intros c. destruct (decide (c = b)) as [->|Hne]; [exact Hth|].
    assert (c = other b) as -> by (destruct c, b; simpl; congruence).
    by rewrite Ho.
  - exists evs. split; [exact He|].
    eapply Forall_impl; [exact Hf|]. intros e [side ->]. reflexivity.
Qed.

Lemma resolveBallBallCollision_grows s : grows s (resolveBallBallCollision s).
Proof.
  unfold resolveBallBallCollision.
  destruct (resolveBallBallCollision_with_physics approxInvSqrt s)
    as (Hc%control_fields & _ & _).
  destruct Hc as (_ & _ & _ & _ & _ & Ht & _).
  destruct (resolveBallBallCollision_with_acts approxInvSqrt s) as (_ & He & Hth & _).
  forget (resolveBallBallCollision_with approxInvSqrt s) s'.
  split; [exact Ht|]. split; [exact Hth|].
  eexists. split; [exact He|].
  destruct (overlapping s); repeat constructor.
Qed.

(** Before the hit checks every weapon has turned by its angular speed,
    wrapped to 16 bits, and the log has grown by events of this tick only. *)
Lemma beforeHits_acts s :
  (forall c, theta (ball (beforeHits s) c)
             = JS.and (theta (ball s c) + omega (ball s c)) 0xffff) /\
  exists evs, events (beforeHits s) = events s ++ evs /\
              Forall (fun e => eventTick e = tick s) evs.
Proof.
  assert (H : grows (afterMove s) (beforeHits s)).
  { rewrite beforeHits_steps.
    eapply grows_trans; [|apply resolveBallBallCollision_grows].
    eapply grows_trans; [|apply applyWallBounce_grows].
    apply applyWallBounce_grows. }
  destruct H as (_ & Hth & evs & He & Hf).
  destruct (afterMove_acts s) as (Hc0 & He0 & Hb0).
  apply control_fields in Hc0 as (_ & _ & _ & _ & _ & Ht0 & _).
  forget (beforeHits s) s1. forget (afterMove s) s0.
  split.
  - intros c. rewrite Hth. apply Hb0.
  - exists evs. split; [congruence|].
    eapply Forall_impl; [exact Hf|]. intros e He'. cbn in He'. congruence.
Qed.

Lemma checkHit_grows s a : grows s (checkHit COS SIN s a).
Proof.
  destruct (checkHit_control COS SIN s a) as (_ & Ht & _).
  destruct (checkHit_draws s a) as (_ & Hth & _).
  pose proof (checkHit_events COS SIN s a) as He.
  forget (checkHit COS SIN s a) s'.
  split; [exact Ht|]. split; [intros c; apply Hth|].
  exists (hitEvents COS SIN s a). split; [exact He|].
  unfold hitEvents. cbv zeta.
  destruct (lands COS SIN s a); [|constructor].
  destruct (_ <=? 0); repeat constructor.
Qed.

(** From here on the steps are used through their lemmas again. *)
Opaque beforeHits checkHit stepSim.

(** ** One call of [stepSim] *)

Lemma set_tick_keeps v s :
  (forall c, ball (set_tick v s) c = ball s c) /\
  events (set_tick v s) = events s /\ rng (set_tick v s) = rng s.
Proof. split; [intros []; reflexivity|]. split; reflexivity. Qed.

Lemma afterTick_fields s :
  (forall c, ball (afterTick COS SIN s) c
             = ball (checkHit COS SIN (checkHit COS SIN (beforeHits s) IdA) IdB) c) /\
  events (afterTick COS SIN s)
  = events (checkHit COS SIN (checkHit COS SIN (beforeHits s) IdA) IdB) /\
  rng (afterTick COS SIN s)
  = rng (checkHit COS SIN (checkHit COS SIN (beforeHits s) IdA) IdB).
Proof. unfold afterTick. cbv zeta. apply set_tick_keeps. Qed.

(** A full tick stamps its events with the tick it starts from, turns
    both weapons once and counts one tick. *)
Lemma afterTick_acts s :
  tick (afterTick COS SIN s) = tick s + 1 /\
  (forall c, theta (ball (afterTick COS SIN s) c)
             = JS.and (theta (ball s c) + omega (ball s c)) 0xffff) /\
  exists evs, events (afterTick COS SIN s) = events s ++ evs /\
              Forall (fun e => eventTick e = tick s) evs.
Proof.
  destruct (afterTick_control COS SIN s) as (_ & Ht & _).
  destruct (beforeHits_acts s) as (Hth0 & ev0 & He0 & Hf0).
  destruct (beforeHits_physics s) as (Hc%control_fields & _ & _).
  destruct Hc as (_ & _ & _ & _ & _ & Ht0 & _).
  assert (H : grows (beforeHits s)
                (checkHit COS SIN (checkHit COS SIN (beforeHits s) IdA) IdB)).
  { eapply grows_trans; apply checkHit_grows. }
  destruct H as (_ & Hth & evs & He & Hf).
  destruct (afterTick_fields s) as (E & E' & _).
  forget (afterTick COS SIN s) t.
  forget (checkHit COS SIN (checkHit COS SIN (beforeHits s) IdA) IdB) s3.
  forget (beforeHits s) s1.
  split; [exact Ht|]. split.
  - intros c. rewrite E, Hth. apply Hth0.
  - exists (ev0 ++ evs). split; [rewrite E', He, He0, app_assoc; reflexivity|].
    apply Forall_app. split; [exact Hf0|].
    eapply Forall_impl; [exact Hf|]. intros e He'. cbn in He'. congruence.
Qed.

(** What any call of [stepSim] does to the log, the tick counter and the
    weapon angles. *)
Lemma stepSim_acts s :
  let s' := stepSim COS SIN s in
  (exists evs, events s' = events s ++ evs /\
               Forall (fun e => eventTick e = tick s) evs) /\
  tick s <= tick s' <= tick s + 1 /\
  ((forall c, theta (ball s' c) = theta (ball s c)) \/
   (forall c, theta (ball s' c) = JS.and (theta (ball s c) + omega (ball s c)) 0xffff)).
Proof.
  cbv zeta. destruct (done s) eqn:Hd.
  { rewrite stepSim_done by assumption. split; [|split; [lia|by left]].
    exists []. rewrite app_nil_r. split; [reflexivity | constructor]. }
  destruct (bothAlive s) eqn:Hb.
  2:{ rewrite stepSim_eliminated by assumption. cbn. split; [|split; [lia|]].
      - exists []. rewrite app_nil_r. split; [reflexivity | constructor].
      - left. intros []; reflexivity. }
  destruct (Z_lt_le_dec (tick s) (sim_maxTicks (spec s))) as [Hlt|Hge].
  - rewrite stepSim_tick by assumption.
    destruct (settle_fields (afterTick COS SIN s)) as (Ht & Hball & He & _).
    destruct (afterTick_acts s) as (Ht' & Hth & evs & Hev & Hf).
    rewrite Ht, He, Ht'. setoid_rewrite Hball.
    split; [eauto|]. split; [lia|by right].
  - rewrite stepSim_timeout by assumption.
    destruct (timeoutWinner_frame s) as (_ & Et & Ee & EA & EB).
    forget (timeoutWinner s).1 w. forget (timeoutWinner s).2 s'. cbn. rewrite Ee, Et. split; [|split; [lia|]].
    + exists [EvTimeout (tick s) w]. split; [reflexivity|]. repeat constructor.
    + left. intros []; cbn; congruence.
Qed.

(** ** The random source *)

Lemma ToUint32_range z : 0 <= JS.ToUint32 z < 2 ^ 32.
Proof. unfold JS.ToUint32. apply Z.mod_pos_bound. reflexivity. Qed.

Lemma ToUint32_period z : JS.ToUint32 (z + 2 ^ 32) = JS.ToUint32 z.
Proof.
  unfold JS.ToUint32. rewrite <- (Z.mul_1_l (2 ^ 32)) at 1.
  apply Z.mod_add. discriminate.
Qed.

Lemma ToInt32_period z : JS.ToInt32 (z + 2 ^ 32) = JS.ToInt32 z.
Proof.
  unfold JS.ToInt32. cbv zeta. fold (JS.ToUint32 (z + 2 ^ 32)) (JS.ToUint32 z).
  by rewrite ToUint32_period.
Qed.

Lemma ushr_0 z : JS.ushr z 0 = JS.ToUint32 z.
Proof. unfold JS.ushr. apply Z.shiftr_0_r. Qed.

Lemma ToInt32_of_ToUint32 a b : JS.ToUint32 a = JS.ToUint32 b -> JS.ToInt32 a = JS.ToInt32 b.
Proof. unfold JS.ToInt32, JS.ToUint32. by intros ->. Qed.

(** The value drawn is read off the new counter modulo 2^32. *)
Lemma rng_draw_residue t t' :
  (rng_draw t').2 mod 2 ^ 32 = (rng_draw t).2 mod 2 ^ 32 ->
  (rng_draw t').1 = (rng_draw t).1.
Proof.
  unfold rng_draw. cbv zeta. cbn [fst snd].
  generalize (JS.num (t + 0x6D2B79F5)), (JS.num (t' + 0x6D2B79F5)). intros u u' H.
  change (JS.ToUint32 u' = JS.ToUint32 u) in H.
  pose proof (ToInt32_of_ToUint32 _ _ H) as HI.
  assert (Hx : JS.xor u' (JS.ushr u' 15) = JS.xor u (JS.ushr u 15)).
  { unfold JS.xor, JS.ushr. by rewrite H, HI. }
  assert (Ho : JS.or 1 u' = JS.or 1 u).
  { unfold JS.or. by rewrite HI. }
  by rewrite Hx, Ho.
Qed.

(** X1: one call of the generator that [mulberry32] returns adds the
    fixed stride to its counter in binary64: the new counter is the sum
    itself as long as that is at most 2^53, and the sum rounded to the
    nearest binary64 number beyond (from 9007199260973068 the call leads
    to 9007201092538880, one less than the sum).  The call returns the
    quotient by 2^32 of an integer that is at least 0 and below 2^32; that
    integer is read off the new counter modulo 2^32 only, so that,
    where the sums are exact, counters that differ by 2^32 give the same
    value.  A seed is read modulo 2^32: seeds that differ by a multiple of
    2^32 start the same stream. *)
Theorem mulberry32_stream (t t' seed : Z) :
  (rng_draw t).2 = JS.num (t + rngStride) /\
  (Z.abs (t + rngStride) <= 2 ^ 53 -> (rng_draw t).2 = t + rngStride) /\
  (rng_draw 9007199260973068).2 = 9007201092538880 /\
  0 <= (rng_draw t).1 < 2 ^ 32 /\
  rng_next t = ((JS.of_Z (rng_draw t).1 / 4294967296)%float, (rng_draw t).2) /\
  ((rng_draw t').2 mod 2 ^ 32 = (rng_draw t).2 mod 2 ^ 32 ->
   (rng_draw t').1 = (rng_draw t).1) /\
  (0 <= t -> t + 2 ^ 32 + rngStride <= 2 ^ 53 ->
   (rng_draw (t + 2 ^ 32)).1 = (rng_draw t).1) /\
  mulberry32 (seed + 2 ^ 32) = mulberry32 seed /\
  0 <= mulberry32 seed < 2 ^ 32.
Proof.
  assert (Hex : forall u, Z.abs (u + rngStride) <= 2 ^ 53 -> (rng_draw u).2 = u + rngStride).
  { intros u Hu. change ((rng_draw u).2) with (JS.num (u + rngStride)). by apply num_exact. }
  split; [reflexivity|]. split; [apply Hex|]. split; [vm_compute; reflexivity|]. split.
  { unfold rng_draw. cbv zeta. cbn [fst]. rewrite ushr_0. apply ToUint32_range. }
  split; [unfold rng_next; destruct (rng_draw t); reflexivity|].
  split; [apply rng_draw_residue|]. split.
  { intros H0 Hle. apply rng_draw_residue.
    assert (0 < rngStride) by reflexivity.
    rewrite !Hex by lia.
    replace (t + 2 ^ 32 + rngStride) with (t + rngStride + 1 * 2 ^ 32) by lia.
    apply Z_mod_plus_full. }
  unfold mulberry32. rewrite !ushr_0. split; [apply ToUint32_period | apply ToUint32_range].
Qed.

(** ** Weapon angles *)

Lemma and_0xffff_range x : 0 <= JS.and x 0xffff < 65536.
Proof.
  unfold JS.and. change (JS.ToInt32 65535) with (Z.ones 16).
  rewrite Z.land_ones by lia. apply Z.mod_pos_bound. reflexivity.
Qed.

Lemma initBall_theta sp scale b j bs :
  initBall sp scale b j = Ok bs -> 0 <= theta bs < 65536.
Proof.
  unfold initBall, Get. destruct (weapons sp !! b_weaponId b) as [w|]; [|by case_bool_decide].
  destruct (rng_next _) as [u g]. intros [= <-]. cbn [theta].
  rewrite ushr_0. unfold JS.ToUint32.
  pose proof (and_0xffff_range (JS.Math_floor (u * JS.of_Z ANGLE_FULL))) as H.
  rewrite Z.mod_small; lia.
Qed.

End EngineMore.

(** * Runs *)

Section EngineRuns.

Variables COS SIN : Z -> Z.

Ltac forget X x := let E := fresh in remember X as x eqn:E in *; clear E.

(** ** Properties every call of [stepSim] keeps *)

(** A property of the combatants and the log that the physics steps and
    the hit checks keep, and that neither the tick counter nor a timeout
    line touches, is kept by [stepSim]. *)
Lemma stepSim_preserves (P : SimState -> Prop) :
  (forall s s', physics s s' -> P s -> P s') ->
  (forall s a, P s -> P (checkHit COS SIN s a)) ->
  (forall s s', (forall c, ball s' c = ball s c) ->
                (exists evs, events s' = events s ++ evs /\
                             forall e, e ∈ evs -> exists t w, e = EvTimeout t w) ->
                P s -> P s') ->
  forall s, P s -> P (stepSim COS SIN s).
Proof.
  intros Hphys Hhit Hext s HP.
  destruct (stepSim_balls COS SIN s) as [(Hb & evs & He & Hf)|(Hb & He)].
  - apply (Hext s); [exact Hb| |exact HP]. exists evs. split; [exact He|].
    intros e Hin. destruct (Hf e Hin) as [w ->]. eauto.
  - destruct (afterTick_fields COS SIN s) as (Hb' & He' & _).
    apply (Hext (checkHit COS SIN (checkHit COS SIN (beforeHits s) IdA) IdB)).
    + intros c. rewrite Hb. apply Hb'.
    + exists []. rewrite app_nil_r. split; [congruence | intros e Hin; inversion Hin].
    + apply Hhit, Hhit. apply (Hphys s); [apply beforeHits_physics | exact HP].
Qed.

Lemma slot_cases (a b : BallId) : b = a \/ b = other a.
Proof. destruct a, b; auto. Qed.

(** ** The damage counters *)





(** ** The hits in the log *)











(** ** The order of the log *)

Lemma tickOrdered_app l evs t :
  tickOrdered l -> Forall (fun e => eventTick e <= t) l ->
  Forall (fun e => eventTick e = t) evs -> tickOrdered (l ++ evs).
Proof.
  intros Hord Hl Hevs i j e1 e2 Hij H1 H2.
  rewrite Forall_lookup in Hl. rewrite Forall_lookup in Hevs.
  apply lookup_app_Some in H1 as [H1|[Hi H1]];
    apply lookup_app_Some in H2 as [H2|[Hj H2]].
  - by apply (Hord i j).
  - rewrite (Hevs _ _ H2). by apply (Hl i).
  - apply lookup_lt_Some in H2. lia.
  - rewrite (Hevs _ _ H1), (Hevs _ _ H2). lia.
Qed.

Lemma stepSim_running s :
  done (stepSim COS SIN s) = false ->
  done s = false /\ bothAlive s = true /\ tick s < sim_maxTicks (spec s) /\
  stepSim COS SIN s = afterTick COS SIN s /\ bothAlive (afterTick COS SIN s) = true.
Proof.
  destruct (done s) eqn:Hd.
  { rewrite stepSim_done by assumption. congruence. }
  destruct (bothAlive s) eqn:Hb.
  2:{ rewrite stepSim_eliminated by assumption. discriminate. }
  destruct (Z_lt_le_dec (tick s) (sim_maxTicks (spec s))) as [Hlt|Hge].
  2:{ rewrite stepSim_timeout by assumption. discriminate. }
  rewrite stepSim_tick by assumption.
  destruct (bothAlive (afterTick COS SIN s)); [auto|discriminate].
Qed.

Lemma dated_step s : 0 <= tick s -> dated s -> dated (stepSim COS SIN s).
Proof.
  intros H0 (Hord & Hle & Hlt).
  destruct (stepSim_acts COS SIN s) as ((evs & He & Hf) & Ht & _).
  pose proof (stepSim_running s) as Hrun.
  destruct (afterTick_control COS SIN s) as (_ & Ht' & _).
  forget (afterTick COS SIN s) t.
  forget (stepSim COS SIN s) s'.
  rewrite Forall_forall in Hle. rewrite Forall_forall in Hf.
  split; [|split].
  - rewrite He. apply (tickOrdered_app _ _ (tick s)); [exact Hord| |apply Forall_forall, Hf].
    apply Forall_forall. intros e Hin. apply Hle, Hin.
  - rewrite He. apply Forall_forall. intros e [Hin|Hin]%elem_of_app.
    + specialize (Hle e Hin). lia.
    + rewrite (Hf e Hin). lia.
  - intros Hd. destruct (Hrun Hd) as (_ & _ & _ & -> & _).
    rewrite He, Ht'. apply Forall_forall. intros e [Hin|Hin]%elem_of_app.
    + specialize (Hle e Hin). lia.
    + rewrite (Hf e Hin). lia.
Qed.

Lemma dated_reached sp n s : reachedIn COS SIN sp n s -> dated s.
Proof.
  induction 1 as [s0 H|n s Hr IH].
  - destruct (createSim_Ok _ _ H) as (_ & _ & _ & _ & He & _).
    unfold dated. rewrite He. split; [|split; [constructor | intros _; constructor]].
    intros i j e1 e2 _ H1. by rewrite lookup_nil in H1.
  - apply dated_step; [|exact IH].
    apply reachedIn_runInv in Hr as (_ & Hr & _). lia.
Qed.

(** ** How a match ends *)

(** One hit check on a state with both combatants alive: both stay
    alive, or the victim dies, the lethal hit and the death being the
    last two lines of the log, and the check of the victim does nothing. *)
Lemma check_verdict s a :
  (forall c, alive (ball s c) = true) ->
  let s' := checkHit COS SIN s a in
  (forall c, alive (ball s' c) = true) \/
  (alive (ball s' a) = true /\ alive (ball s' (other a)) = false /\
   checkHit COS SIN s' (other a) = s' /\
   exists dmg,
     events s' = events s ++ [EvHit (tick s) (id (ball s' a)) (id (ball s' (other a))) dmg;
                              EvDead (tick s) (id (ball s' (other a)))]).
Proof.
  intros Hal. cbv zeta.
  pose proof (checkHit_statics COS SIN s a) as St.
  pose proof (checkHit_victim_alive COS SIN s a) as Va.
  pose proof (checkHit_alive_attacker COS SIN s a) as Aa.
  pose proof (lethal_hit COS SIN s a) as LA. cbv zeta in LA.
  rewrite Hal in Va, Aa.
  destruct (lands COS SIN s a) eqn:El.
  2:{ left. rewrite checkHit_miss by assumption. exact Hal. }
  destruct (Z_le_gt_dec
              (hp (ball s (other a)) - hitDamage (ball s a) (hitCount (ball s a) + 1)) 0)
    as [Eh|Eh].
  - right. destruct (LA eq_refl Eh) as (D1 & D2 & D3 & _ & D5).
    destruct (St a) as (Ia & _). destruct (St (other a)) as (Io & _).
    forget (checkHit COS SIN s a) s'.
    split; [exact D2|]. split; [exact D1|]. split; [exact D5|].
    eexists. rewrite Ia, Io. exact D3.
  - left. apply Z.gt_lt, Z.leb_gt in Eh. rewrite Eh in Va.
    forget (checkHit COS SIN s a) s'.
    intros c. destruct (slot_cases a c) as [->| ->]; assumption.
Qed.

Lemma bothAlive_all s : (forall c, alive (ball s c) = true) -> bothAlive s = true.
Proof.
  intros H. pose proof (H IdA) as HA. pose proof (H IdB) as HB.
  cbn [ball] in HA, HB. unfold bothAlive. by rewrite HA, HB.
Qed.

Lemma checks_verdict s1 :
  (forall c, alive (ball s1 c) = true) ->
  let s3 := checkHit COS SIN (checkHit COS SIN s1 IdA) IdB in
  bothAlive s3 = true \/
  exists w pre dmg,
    alive (ball s3 w) = true /\ alive (ball s3 (other w)) = false /\
    events s3 = pre ++ [EvHit (tick s1) (id (ball s3 w)) (id (ball s3 (other w))) dmg;
                        EvDead (tick s1) (id (ball s3 (other w)))].
Proof.
  intros Hal1. cbv zeta.
  destruct (checkHit_control COS SIN s1 IdA) as (_ & Ht2 & _).
  destruct (check_verdict s1 IdA Hal1) as [Hal2|(D1 & D2 & D3 & dmg & D4)].
  - destruct (check_verdict (checkHit COS SIN s1 IdA) IdB Hal2)
      as [Hal3|(E1 & E2 & _ & dmg & E4)].
    + left. by apply bothAlive_all.
    + right. exists IdB, (events (checkHit COS SIN s1 IdA)), dmg.
      rewrite <- Ht2. auto.
  - right. exists IdA, (events s1), dmg. change (other IdA) with IdB in D3.
    rewrite D3. auto.
Qed.
Lemma verdict_carries (tk : Z) s3 t :
  (forall c, ball t c = ball s3 c) -> events t = events s3 ->
  (bothAlive s3 = true \/
   exists w pre dmg,
     alive (ball s3 w) = true /\ alive (ball s3 (other w)) = false /\
     events s3 = pre ++ [EvHit tk (id (ball s3 w)) (id (ball s3 (other w))) dmg;
                         EvDead tk (id (ball s3 (other w)))]) ->
  bothAlive t = true \/
  exists w pre dmg,
    alive (ball t w) = true /\ alive (ball t (other w)) = false /\
    events t = pre ++ [EvHit tk (id (ball t w)) (id (ball t (other w))) dmg;
                       EvDead tk (id (ball t (other w)))].
Proof.
  intros Fb Fe [H|(w & pre & dmg & H)].
  - left. unfold bothAlive in *. pose proof (Fb IdA) as FA. pose proof (Fb IdB) as FB.
    cbn [ball] in FA, FB. by rewrite FA, FB.
  - right. exists w, pre, dmg. by rewrite !Fb, Fe.
Qed.

Lemma afterTick_verdict s :
  bothAlive s = true ->
  let t := afterTick COS SIN s in
  bothAlive t = true \/
  exists w pre dmg,
    alive (ball t w) = true /\ alive (ball t (other w)) = false /\
    events t = pre ++ [EvHit (tick s) (id (ball t w)) (id (ball t (other w))) dmg;
                       EvDead (tick s) (id (ball t (other w)))].
Proof.
  intros Hb. cbv zeta.
  destruct (beforeHits_physics s) as (Hc%control_fields & Hv & _).
  destruct Hc as (_ & _ & _ & _ & _ & Ht1 & _).
  assert (Hal1 : forall c, alive (ball (beforeHits s) c) = true).
  { intros c. destruct (vitals_fields _ _ (Hv c)) as (_ & _ & _ & _ & _ & _ & -> & _).
    unfold bothAlive in Hb. apply andb_prop in Hb as [? ?]. destruct c; assumption. }
  clear Hv.
  destruct (afterTick_fields COS SIN s) as (Fb & Fe & _).
  pose proof (checks_verdict (beforeHits s) Hal1) as H.
  rewrite <- Ht1. eapply verdict_carries; [exact Fb | exact Fe | exact H].
Qed.

Lemma survivor_of t w :
  alive (ball t w) = true -> alive (ball t (other w)) = false ->
  survivor t = w /\ bothAlive t = false.
Proof.
  unfold survivor, bothAlive. destruct w; cbn [ball other]; intros -> ->; auto.
Qed.

Lemma settled_step s : settled s -> settled (stepSim COS SIN s).
Proof.
  intros (Hrun & Hend).
  destruct (done s) eqn:Hd.
  { rewrite stepSim_done by assumption. split; [congruence|]. intros _. by apply Hend. }
  destruct (Hrun eq_refl) as (Hw & Hb). clear Hrun Hend.
  destruct (Z_lt_le_dec (tick s) (sim_maxTicks (spec s))) as [Hlt|Hge].
  - rewrite stepSim_tick by assumption.
    destruct (afterTick_control COS SIN s) as (_ & Ht & Hd' & Hw').
    destruct (afterTick_verdict s Hb) as [Hbt|(w & pre & dmg & H1 & H2 & H3)].
    + rewrite Hbt. split; [intros _; split; congruence | congruence].
    + destruct (survivor_of _ _ H1 H2) as (-> & ->).
      forget (afterTick COS SIN s) t.
      destruct (finish_fields w t) as (_ & Ft & Fd & Fw & Fe & FA & FB).
      assert (Fb : forall c, ball (finish w t) c = ball t c) by (intros []; assumption).
      forget (finish w t) s'.
      split; [congruence|]. intros _. exists w. split; [exact Fw|].
      split; [by rewrite Fb|]. left. rewrite !Fb. split; [exact H2|].
      exists pre, dmg. rewrite Fe, H3, Ft, Ht. do 4 f_equal; lia.
  - rewrite stepSim_timeout by assumption.
    destruct (timeoutWinner_frame s) as (Es & Et & Ee & EA & EB).
    forget (timeoutWinner s).1 w. forget (timeoutWinner s).2 s1.
    split; [discriminate|]. intros _. exists w. split; [reflexivity|].
    unfold bothAlive in Hb. apply andb_prop in Hb as [HA HB].
    assert (Hal : forall c, alive (ball s c) = true) by (intros []; assumption).
    unfold verdict. cbn. rewrite Es, Et, Ee.
    assert (Fb : forall c,
      ball (finish w (push (EvTimeout (tick s) w) s1)) c = ball s c)
      by (intros []; assumption).
    rewrite !Fb, !Hal. split; [reflexivity|]. right. eauto.
Qed.

Lemma settled_reached sp n s : reachedIn COS SIN sp n s -> settled s.
Proof.
  induction 1 as [s0 H|n s _ IH]; [|by apply settled_step].
  destruct (createSim_Ok _ _ H) as (_ & _ & Hd & Hw & _).
  destruct (fresh_alive _ _ H) as (HA & HB & _).
  split; [|congruence]. intros _. unfold bothAlive. by rewrite HA, HB.
Qed.

(** ** The position of the shared stream *)

Lemma streamAt_next seed k : 0 <= k -> streamAt seed (k + 1) = rng_step (streamAt seed k).
Proof.
  intros Hk. unfold streamAt.
  replace (Z.to_nat (k + 1)) with (S (Z.to_nat k)) by lia. apply Nat.iter_succ.
Qed.

(** Where every sum is exact the counter is the seed and one stride for
    every call. *)
Lemma iter_rng_step_exact b n :
  0 <= b -> b + rngStride * Z.of_nat n <= 2 ^ 53 ->
  Nat.iter n rng_step b = b + rngStride * Z.of_nat n.
Proof.
  intros Hb. assert (Hs : 0 < rngStride) by reflexivity.
  induction n as [|n IH]; intros Hle; [cbn; lia|].
  rewrite Nat2Z.inj_succ in *. rewrite Nat.iter_succ, IH by nia.
  rewrite rng_step_num, num_exact by nia. nia.
Qed.

Lemma streamAt_exact seed k :
  0 <= k -> mulberry32 seed + rngStride * k <= 2 ^ 53 ->
  streamAt seed k = mulberry32 seed + rngStride * k.
Proof.
  intros Hk Hle. unfold streamAt.
  assert (H0 : 0 <= mulberry32 seed).
  { unfold mulberry32. rewrite ushr_0. apply ToUint32_range. }
  rewrite iter_rng_step_exact; rewrite ?Z2Nat.id; lia.
Qed.

Lemma checkHit_hitsDrawn seed s a :
  hitsDrawn seed s -> hitsDrawn seed (checkHit COS SIN s a).
Proof.
  intros (HA & HB & Hs).
  destruct (checkHit_draws COS SIN s a) as (Hr & _).
  pose proof (checkHit_attacker_hitCount COS SIN s a) as Ha.
  pose proof (checkHit_victim_hitCount COS SIN s a) as Hv.
  forget (checkHit COS SIN s a) s'. unfold hitsDrawn. rewrite Hr, Hs.
  destruct a; cbn [ball other] in Ha, Hv; rewrite Ha, Hv;
    destruct (lands COS SIN s _);
    rewrite ?Z.add_0_r; (split; [lia|]); (split; [lia|]); try reflexivity;
    rewrite <- !streamAt_next by lia; f_equal; lia.
Qed.

Lemma hitsDrawn_ext seed s s' :
  (forall c, ball s' c = ball s c) -> rng s' = rng s ->
  hitsDrawn seed s -> hitsDrawn seed s'.
Proof.
  intros Hb Hr. pose proof (Hb IdA) as EA. pose proof (Hb IdB) as EB.
  cbn [ball] in EA, EB. unfold hitsDrawn. by rewrite Hr, EA, EB.
Qed.

Lemma physics_hitsDrawn seed s s' : physics s s' -> hitsDrawn seed s -> hitsDrawn seed s'.
Proof.
  intros (Hc%control_fields & Hv & _).
  destruct Hc as (_ & _ & _ & _ & _ & _ & Hr & _).
  destruct (vitals_fields _ _ (Hv IdA)) as (_ & _ & _ & _ & _ & EA & _).
  destruct (vitals_fields _ _ (Hv IdB)) as (_ & _ & _ & _ & _ & EB & _).
  cbn [ball] in EA, EB. unfold hitsDrawn. by rewrite Hr, EA, EB.
Qed.

Lemma afterTick_hitsDrawn seed s : hitsDrawn seed s -> hitsDrawn seed (afterTick COS SIN s).
Proof.
  intros H. destruct (afterTick_fields COS SIN s) as (Fb & _ & Fr).
  apply (hitsDrawn_ext _ _ _ Fb Fr). do 2 apply checkHit_hitsDrawn.
  exact (physics_hitsDrawn _ _ _ (beforeHits_physics s) H).
Qed.

Lemma finish_hitsDrawn seed w t :
  (hitsDrawn seed (finish w t) <-> hitsDrawn seed t) /\
  bothAlive (finish w t) = bothAlive t /\ done (finish w t) = true.
Proof. split; [reflexivity|split; reflexivity]. Qed.

Lemma streamed_quiet seed s :
  done s && bothAlive s && tied (simA s) (simB s) = false ->
  streamed seed s <-> hitsDrawn seed s.
Proof.
  intros H. unfold streamed, hitsDrawn, draws, tieDraw. rewrite H, Z.add_0_r. reflexivity.
Qed.

Lemma stream_step seed s : streamed seed s -> streamed seed (stepSim COS SIN s).
Proof.
  intros H.
  destruct (done s) eqn:Hd.
  { rewrite stepSim_done by assumption. exact H. }
  apply streamed_quiet in H; [|by rewrite Hd].
  destruct (bothAlive s) eqn:Hb.
  2:{ rewrite stepSim_eliminated by assumption.
      destruct (finish_hitsDrawn seed (survivor s) s) as (E1 & E2 & E3).
      apply streamed_quiet; [by rewrite E2, Hb, andb_false_r|by apply E1]. }
  destruct (Z_lt_le_dec (tick s) (sim_maxTicks (spec s))) as [Hlt|Hge].
  - rewrite stepSim_tick by assumption.
    apply (afterTick_hitsDrawn seed) in H.
    destruct (afterTick_control COS SIN s) as (_ & _ & Hd' & _).
    forget (afterTick COS SIN s) t.
    destruct (bothAlive t) eqn:Hbt.
    + apply streamed_quiet; [by rewrite Hd', Hd|exact H].
    + destruct (finish_hitsDrawn seed (survivor t) t) as (E1 & E2 & E3).
      apply streamed_quiet; [by rewrite E2, Hbt, andb_false_r|by apply E1].
  - rewrite stepSim_timeout by assumption.
    rewrite timeoutWinner_ladder. cbn [fst snd].
    forget (ladder (simA s) (simB s) (rng_next (rng s)).1) w.
    rewrite rng_next_counter.
    destruct H as (HA & HB & Hr).
    unfold streamed, draws, tieDraw. unfold bothAlive in *.
    destruct (tied (simA s) (simB s)) eqn:Ht; cbn; rewrite Hb, Ht; cbn [andb];
      (split; [exact HA|]); (split; [exact HB|]).
    + rewrite streamAt_next by lia. by rewrite Hr.
    + by rewrite Z.add_0_r.
Qed.

Lemma stream_reached sp n s : reachedIn COS SIN sp n s -> streamed (seed sp) s.
Proof.
  induction 1 as [s0 H|n s _ IH]; [|by apply stream_step].
  destruct (createSim_Ok _ _ H) as (_ & _ & Hd & _ & _ & Hr & HA & HB).
  apply initBall_Ok in HA as (_ & _ & _ & _ & HcA & _).
  apply initBall_Ok in HB as (_ & _ & _ & _ & HcB & _).
  unfold streamed, draws, tieDraw. rewrite Hr, Hd, HcA, HcB. cbn [andb].
  repeat split; lia.
Qed.

(** ** What a run never changes *)

Transparent checkHit.

Lemma checkHit_arena s a : arena (checkHit COS SIN s a) = arena s.
Proof.
  unfold checkHit. cbv zeta.
  destruct (negb _ || negb _); [reflexivity|].
  destruct (tipTouches COS SIN _ _); [|reflexivity].
  destruct (rng_next (rng _)) as [u1 g1]. destruct (rng_next g1) as [u2 g2].
  destruct a; cbn [other ball set_ball]; destruct (_ <=? 0); reflexivity.
Qed.

Opaque checkHit.

Lemma vitals_statics b b' : vitals b' = vitals b -> statics b' = statics b.
Proof.
  unfold vitals, statics. intros [= -> _ -> -> -> -> -> -> _ _ -> _ ->]. reflexivity.
Qed.

Lemma checkHit_fixed s a c : statics (ball (checkHit COS SIN s a) c) = statics (ball s c).
Proof.
  destruct (lands COS SIN s a) eqn:Hl.
  2:{ rewrite checkHit_miss by assumption. reflexivity. }
  destruct (checkHit_hit COS SIN s a Hl) as [d lethal _ Ha Hv _].
  apply vitals_statics in Ha, Hv.
  forget (checkHit COS SIN s a) s'.
  destruct (slot_cases a c) as [->| ->]; [exact Ha | exact Hv].
Qed.

Lemma control_arena s s' : control s' = control s -> arena s' = arena s.
Proof.
  intros (E1 & E2 & E3 & E4 & E5 & _)%control_fields.
  unfold arena. by rewrite E1, E2, E3, E4, E5.
Qed.

Lemma set_tick_arena v s : arena (set_tick v s) = arena s.
Proof. reflexivity. Qed.

Lemma afterTick_arena s : arena (afterTick COS SIN s) = arena s.
Proof.
  unfold afterTick. cbv zeta.
  rewrite set_tick_arena, !checkHit_arena. apply control_arena. apply beforeHits_physics.
Qed.

Lemma timeoutWinner_arena s : arena (timeoutWinner s).2 = arena s.
Proof. rewrite timeoutWinner_ladder. cbn [snd]. by destruct (tied _ _). Qed.

Lemma settle_arena t :
  arena (if bothAlive t then t else finish (survivor t) t) = arena t.
Proof. by destruct (bothAlive t). Qed.

Lemma stepSim_arena s : arena (stepSim COS SIN s) = arena s.
Proof.
  destruct (done s) eqn:Hd.
  { by rewrite stepSim_done. }
  destruct (bothAlive s) eqn:Hb.
  2:{ by rewrite stepSim_eliminated. }
  destruct (Z_lt_le_dec (tick s) (sim_maxTicks (spec s))) as [Hlt|Hge].
  - rewrite stepSim_tick by assumption. rewrite settle_arena. apply afterTick_arena.
  - rewrite stepSim_timeout by assumption.
    pose proof (timeoutWinner_arena s) as H.
    forget (timeoutWinner s).1 w. forget (timeoutWinner s).2 s1. exact H.
Qed.

Lemma stepSim_fixed s c : statics (ball (stepSim COS SIN s) c) = statics (ball s c).
Proof.
  revert c.
  apply (stepSim_preserves (fun s' => forall c, statics (ball s' c) = statics (ball s c)));
    [| | |reflexivity].
  - intros s1 s2 (_ & Hv & _) H c. rewrite <- H. apply vitals_statics, Hv.
  - intros s1 a H c. rewrite <- H. apply checkHit_fixed.
  - intros s1 s2 Hb _ H c. by rewrite Hb.
Qed.

Lemma fixed_reached sp n s :
  reachedIn COS SIN sp n s -> exists s0, createSim sp = Ok s0 /\ fixedFrom s0 s.
Proof.
  induction 1 as [s0 H|n s _ (s0 & H0 & Ha & Hs)].
  - exists s0. by repeat split.
  - exists s0. split; [exact H0|]. split.
    + rewrite stepSim_arena. exact Ha.
    + intros c. rewrite stepSim_fixed. apply Hs.
Qed.

(** ** The weapon angle, in closed form *)

Lemma and_0xffff_mod x : JS.and x 0xffff = x mod 65536.
Proof.
  unfold JS.and. change (JS.ToInt32 65535) with (Z.ones 16).
  rewrite Z.land_ones by lia. change (2 ^ 16) with 65536.
  unfold JS.ToInt32. cbv zeta.
  assert (E : (x mod 2 ^ 32) mod 65536 = x mod 65536).
  { apply Z.mod_mod_divide. exists 65536. reflexivity. }
  destruct (2 ^ 31 <=? x mod 2 ^ 32); [|exact E].
  rewrite <- E. change (2 ^ 32) with (65536 * 65536) at 2.
  rewrite <- (Z.mod_add _ 65536 65536) by lia.
  f_equal. lia.
Qed.

Lemma stepSim_turns s :
  let s' := stepSim COS SIN s in
  (tick s' = tick s /\ forall c, theta (ball s' c) = theta (ball s c)) \/
  (tick s' = tick s + 1 /\
   forall c, theta (ball s' c) = (theta (ball s c) + omega (ball s c)) mod 65536).
Proof.
  cbv zeta. destruct (done s) eqn:Hd.
  { rewrite stepSim_done by assumption. by left. }
  destruct (bothAlive s) eqn:Hb.
  2:{ rewrite stepSim_eliminated by assumption. left. split; [reflexivity|].
      intros []; reflexivity. }
  destruct (Z_lt_le_dec (tick s) (sim_maxTicks (spec s))) as [Hlt|Hge].
  - rewrite stepSim_tick by assumption.
    destruct (settle_fields (afterTick COS SIN s)) as (Ht & Hball & _).
    destruct (afterTick_acts COS SIN s) as (Ht' & Hth & _).
    right. rewrite Ht, Ht'. split; [reflexivity|].
    intros c. rewrite Hball, Hth. apply and_0xffff_mod.
  - rewrite stepSim_timeout by assumption.
    destruct (timeoutWinner_frame s) as (_ & Et & Ee & EA & EB).
    forget (timeoutWinner s).1 w. forget (timeoutWinner s).2 s'.
    left. split; [exact Et|]. intros []; cbn; congruence.
Qed.

Lemma angle_reached sp n s :
  reachedIn COS SIN sp n s ->
  exists s0, createSim sp = Ok s0 /\
    forall c, omega (ball s c) = omega (ball s0 c) /\
              theta (ball s c)
              = (theta (ball s0 c) + tick s * omega (ball s0 c)) mod 65536.
Proof.
  induction 1 as [s0 H|n s Hr (s0 & H0 & IH)].
  - exists s0. split; [exact H|]. intros c. split; [reflexivity|].
    destruct (createSim_Ok _ _ H) as (_ & -> & _ & _ & _ & _ & HA & HB).
    apply initBall_theta in HA, HB.
    rewrite Z.mul_0_l, Z.add_0_r, Z.mod_small; [reflexivity|destruct c; assumption].
  - exists s0. split; [exact H0|]. intros c. destruct (IH c) as (Ho & Hth).
    pose proof (stepSim_fixed s c) as Hs.
    assert (Ho' : omega (ball (stepSim COS SIN s) c) = omega (ball s c)).
    { unfold statics in Hs. by injection Hs. }
    split; [congruence|].
    destruct (stepSim_turns s) as [(-> & ->)|(-> & ->)]; [exact Hth|].
    rewrite Hth, Ho, Zplus_mod_idemp_l. f_equal. lia.
Qed.

(** ** What a run reads of the match description *)

Transparent checkHit.

Lemma applyWallBounce_steps s b :
  applyWallBounce s b = wallY (tick s) (wallRest s) (wallX s b) b.
Proof. reflexivity. Qed.

Ltac read_through sp s :=
  change (simA (set_spec sp s)) with (simA s);
  change (simB (set_spec sp s)) with (simB s);
  change (tick (set_spec sp s)) with (tick s);
  change (rng (set_spec sp s)) with (rng s);
  change (SCALE (set_spec sp s)) with (SCALE s);
  change (wallRest (set_spec sp s)) with (wallRest s);
  change (arenaW (set_spec sp s)) with (arenaW s);
  change (arenaH (set_spec sp s)) with (arenaH s).

Lemma wallX_spec sp s b : wallX (set_spec sp s) b = set_spec sp (wallX s b).
Proof.
  unfold wallX. cbv zeta. destruct b; cbn [ball]; read_through sp s;
    repeat case_match; reflexivity.
Qed.

Lemma wallY_spec t rest sp s b : wallY t rest (set_spec sp s) b = set_spec sp (wallY t rest s b).
Proof.
  unfold wallY. cbv zeta. destruct b; cbn [ball]; read_through sp s;
    repeat case_match; reflexivity.
Qed.

Lemma applyWallBounce_spec sp s b :
  applyWallBounce (set_spec sp s) b = set_spec sp (applyWallBounce s b).
Proof. by rewrite !applyWallBounce_steps, wallX_spec, wallY_spec. Qed.

Lemma resolveBallBallCollision_spec sp s :
  resolveBallBallCollision (set_spec sp s) = set_spec sp (resolveBallBallCollision s).
Proof.
  unfold resolveBallBallCollision, resolveBallBallCollision_with. cbv zeta.
  read_through sp s. repeat case_match; reflexivity.
Qed.

Lemma checkHit_spec sp s a :
  checkHit COS SIN (set_spec sp s) a = set_spec sp (checkHit COS SIN s a).
Proof.
  unfold checkHit. cbv zeta.
  destruct a; cbn [ball other]; read_through sp s;
    (destruct (negb _ || negb _); [reflexivity|]);
    (destruct (tipTouches COS SIN _ _); [|reflexivity]);
    cbn [set_ball push set_events set_simA set_simB set_spec rng]; read_through sp s;
    destruct (rng_next _) as [u1 g1]; destruct (rng_next g1) as [u2 g2];
    destruct (_ <=? 0); reflexivity.
Qed.

Opaque checkHit.

Lemma afterMove_spec sp s : afterMove (set_spec sp s) = set_spec sp (afterMove s).
Proof. reflexivity. Qed.

Lemma beforeHits_spec sp s : beforeHits (set_spec sp s) = set_spec sp (beforeHits s).
Proof.
  rewrite !beforeHits_steps, afterMove_spec, !applyWallBounce_spec.
  apply resolveBallBallCollision_spec.
Qed.

Lemma set_tick_spec sp v s : set_tick v (set_spec sp s) = set_spec sp (set_tick v s).
Proof. reflexivity. Qed.

Lemma set_spec_reads sp s :
  tick (set_spec sp s) = tick s /\ done (set_spec sp s) = done s /\
  bothAlive (set_spec sp s) = bothAlive s /\ survivor (set_spec sp s) = survivor s /\
  spec (set_spec sp s) = sp /\
  (forall w, finish w (set_spec sp s) = set_spec sp (finish w s)) /\
  (forall e, push e (set_spec sp s) = set_spec sp (push e s)).
Proof. repeat split. Qed.

Lemma afterTick_spec sp s :
  afterTick COS SIN (set_spec sp s) = set_spec sp (afterTick COS SIN s).
Proof.
  unfold afterTick. cbv zeta.
  rewrite beforeHits_spec, !checkHit_spec, set_tick_spec.
  destruct (set_spec_reads sp (checkHit COS SIN (checkHit COS SIN (beforeHits s) IdA) IdB))
    as (-> & _). reflexivity.
Qed.

Lemma timeoutWinner_spec sp s :
  timeoutWinner (set_spec sp s) = ((timeoutWinner s).1, set_spec sp (timeoutWinner s).2).
Proof.
  unfold timeoutWinner. cbv zeta. cbn [set_spec simA simB rng].
  repeat case_match; simplify_eq; reflexivity.
Qed.

Lemma settle_spec sp t :
  (if bothAlive (set_spec sp t) then set_spec sp t
   else finish (survivor (set_spec sp t)) (set_spec sp t))
  = set_spec sp (if bothAlive t then t else finish (survivor t) t).
Proof. unfold bothAlive. cbn [set_spec simA simB]. by destruct (_ && _). Qed.

Lemma stepSim_spec sp s :
  sim_maxTicks sp = sim_maxTicks (spec s) ->
  stepSim COS SIN (set_spec sp s) = set_spec sp (stepSim COS SIN s).
Proof.
  intros Hm.
  destruct (set_spec_reads sp s) as (Et & Ed & Eb & Es & Esp & Ef & Ep).
  destruct (done s) eqn:Hd.
  { rewrite !stepSim_done by congruence. reflexivity. }
  destruct (bothAlive s) eqn:Hb.
  2:{ rewrite !stepSim_eliminated by congruence. by rewrite Es, Ef. }
  destruct (Z_lt_le_dec (tick s) (sim_maxTicks (spec s))) as [Hlt|Hge].
  - rewrite !stepSim_tick by (rewrite ?Esp, ?Et; first [congruence | lia]).
    rewrite afterTick_spec. apply settle_spec.
  - rewrite !stepSim_timeout by (rewrite ?Esp, ?Et; first [congruence | lia]).
    rewrite timeoutWinner_spec, Et. cbn [fst snd].
    forget (timeoutWinner s).1 w. forget (timeoutWinner s).2 s1. reflexivity.
Qed.

Lemma iter_spec sp n : forall s,
  sim_maxTicks sp = sim_maxTicks (spec s) ->
  Nat.iter n (stepSim COS SIN) (set_spec sp s) = set_spec sp (Nat.iter n (stepSim COS SIN) s).
Proof.
  induction n as [|n IH]; intros s Hm; [reflexivity|].
  rewrite !Nat.iter_succ, IH by exact Hm.
  apply stepSim_spec.
  assert (Hs : spec (Nat.iter n (stepSim COS SIN) s) = spec s).
  { clear. induction n as [|n IH]; [reflexivity|]. rewrite Nat.iter_succ.
    pose proof (stepSim_arena (Nat.iter n (stepSim COS SIN) s)) as H.
    unfold arena in H. injection H as H _. congruence. }
  by rewrite Hs.
Qed.

Lemma initBall_same sp sp' scale b j :
  JS.ToUint32 (seed sp') = JS.ToUint32 (seed sp) ->
  weapons sp' !! b_weaponId b = weapons sp !! b_weaponId b ->
  initBall sp' scale b j = initBall sp scale b j.
Proof.
  intros Hs Hw. unfold initBall, Get. rewrite Hw.
  unfold JS.xor. by rewrite (ToInt32_of_ToUint32 _ _ Hs).
Qed.

Lemma createSim_same sp sp' :
  sameMatch sp sp' ->
  match createSim sp with
  | Throw msg => createSim sp' = Throw msg
  | Malformed => createSim sp' = Malformed
  | Ok s0 => createSim sp' = Ok (set_spec sp' s0)
  end.
Proof.
  intros (Hs & Hsc & _ & Hw & Hh & Hr & HA & HB & HwA & HwB).
  unfold createSim. cbv zeta. rewrite Hsc, Hw, Hh, Hr, HA, HB.
  rewrite (initBall_same sp sp' _ _ _ Hs HwA), (initBall_same sp sp' _ _ _ Hs HwB).
  destruct (initBall sp _ (ballA sp) _) as [A|mA|]; [|reflexivity|];
    destruct (initBall sp _ (ballB sp) _) as [B|mB|]; try reflexivity.
  unfold set_spec. cbn. unfold mulberry32. rewrite !ushr_0, Hs. reflexivity.
Qed.

(** ** Wall reflection, axis by axis *)

Ltac order_hyps :=
  repeat match goal with
    | H : (_ <? _) = true |- _ => apply Z.ltb_lt in H
    | H : (_ <? _) = false |- _ => apply Z.ltb_ge in H
    | H : (_ >? _) = true |- _ => rewrite Z.gtb_ltb in H; apply Z.ltb_lt in H
    | H : (_ >? _) = false |- _ => rewrite Z.gtb_ltb in H; apply Z.ltb_ge in H
    | H : (_ <=? _) = true |- _ => apply Z.leb_le in H
    | H : (_ <=? _) = false |- _ => apply Z.leb_gt in H
    | H : (_ =? _) = true |- _ => apply Z.eqb_eq in H
    | H : (_ =? _) = false |- _ => apply Z.eqb_neq in H
    end.



Lemma initBall_statics sp scale b j bs :
  initBall sp scale b j = Ok bs ->
  exists w, weapons sp !! b_weaponId b = Some w /\
    statics bs
    = (b_id b, JS.Math_round (b_radius b * JS.of_Z scale)%float, w_omega w,
       JS.Math_round (w_reach w * JS.of_Z scale)%float,
       JS.Math_round (w_tipRadius w * JS.of_Z scale)%float,
       w_baseDamage w, w_ramp w, w_speedMult w, default 1000 (b_restitution b)).
Proof.
  unfold initBall, Get. destruct (weapons sp !! b_weaponId b) as [w|]; [|by case_bool_decide].
  destruct (rng_next _) as [u g]. intros [= <-]. exists w. split; reflexivity.
Qed.

Lemma createSim_arena sp s0 :
  createSim sp = Ok s0 ->
  arena s0
  = (sp, sim_scale sp, JS.Math_round (arena_w sp * JS.of_Z (sim_scale sp))%float,
     JS.Math_round (arena_h sp * JS.of_Z (sim_scale sp))%float, arena_wallRestitution sp).
Proof.
  unfold createSim. cbv zeta.
  destruct (initBall sp _ (ballA sp) _) as [A|mA|]; [|discriminate|by case_match].
  destruct (initBall sp _ (ballB sp) _) as [B|mB|]; [|discriminate..].
  intros [= <-]. reflexivity.
Qed.

Lemma same_run sp sp' :
  sameMatch sp sp' ->
  (forall msg, createSim sp = Throw msg -> createSim sp' = Throw msg) /\
  (forall s0, createSim sp = Ok s0 ->
     exists s0', createSim sp' = Ok s0' /\
       forall k,
         let s := Nat.iter k (stepSim COS SIN) s0 in
         let s' := Nat.iter k (stepSim COS SIN) s0' in
         events s' = events s /\ winner s' = winner s /\ done s' = done s /\
         tick s' = tick s /\ simA s' = simA s /\ simB s' = simB s /\ rng s' = rng s) /\
  (createSim sp = Malformed -> createSim sp' = Malformed).
Proof.
  intros Hsame. pose proof (createSim_same sp sp' Hsame) as Hc.
  destruct Hsame as (_ & _ & Hm & _).
  split; [|split].
  - intros msg E. by rewrite E in Hc.
  - intros s0 E. rewrite E in Hc. exists (set_spec sp' s0). split; [exact Hc|].
    intros k. cbv zeta. rewrite iter_spec; [by repeat split|].
    destruct (createSim_Ok _ _ E) as (-> & _). exact Hm.
  - intros E. by rewrite E in Hc.
Qed.

(** X2: along a run the weapon angle of each combatant is an index of
    the trig tables, at least 0 and below 65536, so the lookups of
    [weaponTipScaled] never leave the tables; the angular speed never
    changes, and after [tick] ticks the angle is the first angle plus
    [tick] times the angular speed, modulo 65536. *)
Theorem angle_stays_in_table sp n s c :
  reachedIn COS SIN sp n s ->
  0 <= theta (ball s c) < ANGLE_FULL /\
  exists s0, createSim sp = Ok s0 /\
    omega (ball s c) = omega (ball s0 c) /\
    theta (ball s c)
    = (theta (ball s0 c) + tick s * omega (ball s0 c)) mod ANGLE_FULL.
Proof.
  change ANGLE_FULL with 65536. intros Hr.
  destruct (angle_reached _ _ _ Hr) as (s0 & H0 & H). destruct (H c) as (Ho & Hth).
  split; [|by exists s0].
  rewrite Hth. apply Z.mod_pos_bound. reflexivity.
Qed.





(** X7: the log of a run is ordered by tick.  The ticks of its events
    never decrease along the log, none is negative and none exceeds the
    tick counter; while the match is running every event is older than
    the counter; and a call of [stepSim] only appends to the log, events
    stamped with the tick counter it starts from. *)
Theorem log_is_ordered_by_tick sp n s :
  reachedIn COS SIN sp n s ->
  tickOrdered (events s) /\
  Forall (fun e => 0 <= eventTick e <= tick s) (events s) /\
  (done s = false -> Forall (fun e => eventTick e < tick s) (events s)) /\
  exists evs, events (stepSim COS SIN s) = events s ++ evs /\
              Forall (fun e => eventTick e = tick s) evs.
Proof.
  intros Hr. destruct (dated_reached _ _ _ Hr) as (H1 & H2 & H3).
  destruct (stepSim_acts COS SIN s) as (H4 & _). auto.
Qed.

(** X8: how a match ends.  Along a run there is a winner exactly when
    the match is done; a running match has both combatants alive; the
    winner is alive, and either the loser is dead and the log ends with
    the lethal hit and the death, both of the tick before the counter,
    or both are alive, the counter stands at the tick ceiling (at 0 for
    a negative ceiling) and the log ends with the timeout line naming the
    winner.  In particular the two combatants are never both dead. *)
Theorem finished_match_has_one_verdict sp n s :
  reachedIn COS SIN sp n s ->
  (done s = false <-> winner s = None) /\
  (done s = false -> alive (simA s) = true /\ alive (simB s) = true) /\
  (forall w, winner s = Some w ->
     alive (ball s w) = true /\
     ((alive (ball s (other w)) = false /\
       exists pre dmg,
         events s = pre ++ [EvHit (tick s - 1) (id (ball s w)) (id (ball s (other w))) dmg;
                            EvDead (tick s - 1) (id (ball s (other w)))]) \/
      (alive (ball s (other w)) = true /\ tick s = Z.max 0 (sim_maxTicks sp) /\
       exists pre, events s = pre ++ [EvTimeout (tick s) w]))).
Proof.
  intros Hr. destruct (settled_reached _ _ _ Hr) as (Hrun & Hend).
  destruct (reachedIn_runInv _ _ _ _ _ Hr) as (Hsp & Ht & _).
  destruct (done s) eqn:Hd.
  - destruct (Hend eq_refl) as (w & Hw & Hal & Hv).
    split; [split; [discriminate | congruence]|]. split; [discriminate|].
    intros w' Hw'. assert (w' = w) as -> by congruence.
    split; [exact Hal|]. destruct Hv as [Hv|(Ho & Hm & Hev)]; [by left|].
    right. rewrite Hsp in Hm. split; [exact Ho|]. split; [lia | exact Hev].
  - destruct (Hrun eq_refl) as (Hw & Hb).
    unfold bothAlive in Hb. apply andb_prop in Hb.
    split; [by split|]. split; [by intros _|]. intros w Hw'. congruence.
Qed.

(** X9: the shared stream is consumed by landed hits and by the draw of
    a tied timeout, and by nothing else.  Along a run the counter of the
    stream is its first value, [seed >>> 0], taken through as many calls
    of the generator as twice the number of hits both combatants have
    landed, and one call more when the match ended at the ceiling with
    health and damage tied.  As long as the sums are at most 2^53, which
    leaves room for some 4.9 million calls, that is the first value plus
    one stride for every call. *)
Theorem stream_position sp n s :
  reachedIn COS SIN sp n s ->
  draws s = 2 * (hitCount (simA s) + hitCount (simB s)) + tieDraw s /\
  0 <= draws s /\
  rng s = Nat.iter (Z.to_nat (draws s)) rng_step (mulberry32 (seed sp)) /\
  (mulberry32 (seed sp) + rngStride * draws s <= 2 ^ 53 ->
   rng s = mulberry32 (seed sp) + rngStride * draws s).
Proof.
  intros Hr. destruct (stream_reached _ _ _ Hr) as (HA & HB & H).
  assert (Hd : 0 <= draws s).
  { unfold draws, tieDraw. destruct (_ && _); lia. }
  split; [reflexivity|]. split; [exact Hd|]. split; [exact H|].
  intros Hle. rewrite H. by apply streamAt_exact.
Qed.

(** X11: what a run never changes.  The state keeps the description it
    was created from, its scale, the rounded arena size and the wall
    restitution; each combatant keeps its identifier, its rounded radius,
    reach and tip radius, and the angular speed, base damage, ramp and
    speed multiplier of its weapon, and its restitution, 1000 when the
    description gives none. *)
Theorem run_keeps_its_constants sp n s :
  reachedIn COS SIN sp n s ->
  arena s
  = (sp, sim_scale sp, JS.Math_round (arena_w sp * JS.of_Z (sim_scale sp))%float,
     JS.Math_round (arena_h sp * JS.of_Z (sim_scale sp))%float, arena_wallRestitution sp) /\
  forall c, exists w,
    weapons sp !! b_weaponId (ballSpec sp c) = Some w /\
    statics (ball s c)
    = (b_id (ballSpec sp c),
       JS.Math_round (b_radius (ballSpec sp c) * JS.of_Z (sim_scale sp))%float,
       w_omega w,
       JS.Math_round (w_reach w * JS.of_Z (sim_scale sp))%float,
       JS.Math_round (w_tipRadius w * JS.of_Z (sim_scale sp))%float,
       w_baseDamage w, w_ramp w, w_speedMult w,
       default 1000 (b_restitution (ballSpec sp c))).
Proof.
  intros Hr. destruct (fixed_reached _ _ _ Hr) as (s0 & H0 & Ha & Hs).
  split; [rewrite Ha; by apply createSim_arena|].
  intros c. rewrite Hs.
  destruct (createSim_Ok _ _ H0) as (_ & _ & _ & _ & _ & _ & HA & HB).
  destruct c; cbn [ball ballSpec]; eapply initBall_statics; eassumption.
Qed.

(** X12: what a run reads of the match description.  Two descriptions
    with the same scale, tick ceiling, arena and combatants, whose seeds
    agree modulo 2^32 and whose weapon maps agree on the two weapons the
    combatants name, fail alike in [createSim] or run alike: after any
    number of calls of [stepSim] the logs, winners, tick counters,
    combatants and stream counters are equal.  The version label of the
    weapon set and the weapons nobody uses are not read.  A call of
    [createSim] that returns with an inherited object for a weapon does
    so on both descriptions. *)
Theorem run_reads_seed_modulo_2_32 sp sp' :
  sameMatch sp sp' ->
  (forall msg, createSim sp = Throw msg -> createSim sp' = Throw msg) /\
  (forall s0, createSim sp = Ok s0 ->
     exists s0', createSim sp' = Ok s0' /\
       forall k,
         let s := Nat.iter k (stepSim COS SIN) s0 in
         let s' := Nat.iter k (stepSim COS SIN) s0' in
         events s' = events s /\ winner s' = winner s /\ done s' = done s /\
         tick s' = tick s /\ simA s' = simA s /\ simB s' = simB s /\ rng s' = rng s) /\
  (createSim sp = Malformed -> createSim sp' = Malformed).
Proof. apply same_run. Qed.

(** X13: the canonical inputs fix the run.  [canonicalInputs] puts
    ["none"] where the description has no version label, so a
    description without a label and the same description labelled
    ["none"] have equal canonical inputs; and two descriptions with equal
    canonical inputs fail alike in [createSim] or run alike (or have
    [createSim] return alike with an inherited object for a weapon). *)
Theorem canonicalInputs_fix_the_run sp sp' :
  canonicalInputs sp = canonicalInputs sp' ->
  default "none" (weaponSetVersion sp) = default "none" (weaponSetVersion sp') /\
  (forall msg, createSim sp = Throw msg -> createSim sp' = Throw msg) /\
  (forall s0, createSim sp = Ok s0 ->
     exists s0', createSim sp' = Ok s0' /\
       forall k,
         let s := Nat.iter k (stepSim COS SIN) s0 in
         let s' := Nat.iter k (stepSim COS SIN) s0' in
         events s' = events s /\ winner s' = winner s /\ done s' = done s /\
         tick s' = tick s /\ simA s' = simA s /\ simB s' = simB s /\ rng s' = rng s) /\
  (createSim sp = Malformed -> createSim sp' = Malformed).
Proof.
  unfold canonicalInputs. intros [= Hs Hv Hsc Hm Hw Hh Hr Hwp HA HB].
  split; [exact Hv|]. apply same_run.
  unfold sameMatch. rewrite Hs, Hsc, Hm, Hw, Hh, Hr, Hwp, HA, HB. by repeat split.
Qed.

End EngineRuns.

(** * The size of the log, and what a hit check leaves alone *)

Section EngineSize.
Variables COS SIN : Z -> Z.
Ltac forget X x := let E := fresh in remember X as x eqn:E in *; clear E.

(** ** The size of the log *)

Lemma appends_trans k1 k2 s1 s2 s3 :
  appends k1 s1 s2 -> appends k2 s2 s3 -> appends (k1 + k2) s1 s3.
Proof.
  intros (e1 & E1 & L1) (e2 & E2 & L2). exists (e1 ++ e2).
  split; [by rewrite E2, E1, app_assoc|]. rewrite length_app. lia.
Qed.

Lemma appends_same k s s' : events s' = events s -> appends k s s'.
Proof. intros E. exists []. split; [by rewrite app_nil_r | cbn; lia]. Qed.

Lemma applyWallBounce_appends s b : appends 2 s (applyWallBounce s b).
Proof.
  destruct (applyWallBounce_acts s b) as (_ & _ & _ & _ & (evs & He & Hl & _) & _).
  by exists evs.
Qed.

Lemma resolveBallBallCollision_appends s : appends 1 s (resolveBallBallCollision s).
Proof.
  destruct (resolveBallBallCollision_with_acts approxInvSqrt s) as (_ & He & _).
  eexists. split; [exact He|]. destruct (overlapping s); cbn; lia.
Qed.

Lemma beforeHits_appends s : appends 5 s (beforeHits s).
Proof.
  rewrite beforeHits_steps.
  eapply (appends_trans 4 1); [|apply resolveBallBallCollision_appends].
  eapply (appends_trans 2 2); [|apply applyWallBounce_appends].
  eapply (appends_trans 0 2); [|apply applyWallBounce_appends].
  apply appends_same. reflexivity.
Qed.

Lemma hitEvents_length s a :
  (length (hitEvents COS SIN s a)
   <= if lands COS SIN s a
         && (hp (ball s (other a)) - hitDamage (ball s a) (hitCount (ball s a) + 1) <=? 0)%Z
      then 2 else 1)%nat.
Proof.
  unfold hitEvents. cbv zeta. destruct (lands COS SIN s a); [|cbn; lia].
  destruct (_ <=? 0); cbn; lia.
Qed.

(** The two hit checks of a tick append at most three events: a lethal
    first hit silences the second check. *)
Lemma checks_append s1 :
  appends 3 s1 (checkHit COS SIN (checkHit COS SIN s1 IdA) IdB).
Proof.
  pose proof (checkHit_events COS SIN s1 IdA) as E1.
  pose proof (hitEvents_length s1 IdA) as L1.
  pose proof (lethal_hit COS SIN s1 IdA) as LA. cbv zeta in LA.
  destruct (lands COS SIN s1 IdA) eqn:El; cbn [andb] in L1.
  - destruct (Z.leb_spec
                (hp (ball s1 (other IdA))
                 - hitDamage (ball s1 IdA) (hitCount (ball s1 IdA) + 1)) 0) as [Eh|Eh].
    + destruct (LA eq_refl Eh) as (_ & _ & _ & _ & E5).
      change (other IdA) with IdB in E5. rewrite E5.
      exists (hitEvents COS SIN s1 IdA). split; [exact E1 | lia].
    + apply (appends_trans 1 2 _ (checkHit COS SIN s1 IdA)).
      * by exists (hitEvents COS SIN s1 IdA).
      * exists (hitEvents COS SIN (checkHit COS SIN s1 IdA) IdB).
        split; [apply checkHit_events|].
        pose proof (hitEvents_length (checkHit COS SIN s1 IdA) IdB) as L2.
        destruct (_ && _) in L2; lia.
  - apply (appends_trans 1 2 _ (checkHit COS SIN s1 IdA)).
    + by exists (hitEvents COS SIN s1 IdA).
    + exists (hitEvents COS SIN (checkHit COS SIN s1 IdA) IdB).
      split; [apply checkHit_events|].
      pose proof (hitEvents_length (checkHit COS SIN s1 IdA) IdB) as L2.
      destruct (_ && _) in L2; lia.
Qed.

Lemma appends_ext k s s1 s' :
  events s' = events s1 -> appends k s s1 -> appends k s s'.
Proof. intros E (evs & He & Hl). exists evs. by rewrite E. Qed.

Lemma afterTick_appends s : appends 8 s (afterTick COS SIN s).
Proof.
  destruct (afterTick_fields COS SIN s) as (_ & Fe & _).
  eapply appends_ext; [exact Fe|].
  apply (appends_trans 5 3 _ (beforeHits s)); [apply beforeHits_appends|].
  apply checks_append.
Qed.

Lemma size_step s :
  Z.of_nat (length (events s)) <= 8 * tick s + (if done s then 1 else 0) ->
  Z.of_nat (length (events (stepSim COS SIN s)))
  <= 8 * tick (stepSim COS SIN s) + (if done (stepSim COS SIN s) then 1 else 0).
Proof.
  intros H.
  destruct (done s) eqn:Hd.
  { rewrite stepSim_done by assumption. by rewrite Hd. }
  cbv iota in H.
  destruct (bothAlive s) eqn:Hb.
  2:{ rewrite stepSim_eliminated by assumption.
      destruct (finish_fields (survivor s) s) as (_ & -> & -> & _ & -> & _). lia. }
  destruct (Z_lt_le_dec (tick s) (sim_maxTicks (spec s))) as [Hlt|Hge].
  - rewrite stepSim_tick by assumption.
    destruct (settle_fields (afterTick COS SIN s)) as (-> & _ & -> & _).
    destruct (afterTick_control COS SIN s) as (_ & -> & _).
    destruct (afterTick_appends s) as (evs & -> & Hl).
    rewrite length_app. match goal with |- context [done ?x] => destruct (done x) end; lia.
  - rewrite stepSim_timeout by assumption.
    destruct (timeoutWinner_frame s) as (_ & Et & Ee & _).
    forget (timeoutWinner s).1 w. forget (timeoutWinner s).2 s1.
    destruct (finish_fields w (push (EvTimeout (tick s) w) s1)) as (_ & -> & -> & _ & -> & _).
    cbn. rewrite length_app, Ee, Et. cbn. lia.
Qed.

Lemma size_reached sp n s :
  reachedIn COS SIN sp n s ->
  Z.of_nat (length (events s)) <= 8 * tick s + (if done s then 1 else 0).
Proof.
  induction 1 as [s0 H|n s _ IH]; [|by apply size_step].
  destruct (createSim_Ok _ _ H) as (_ & -> & -> & _ & -> & _). cbn. lia.
Qed.

(** X15: the log stays small.  A call of [stepSim] appends at most eight
    events (two walls for each combatant, one collision, and the hits and
    the death of the two checks, three at most since a lethal first hit
    silences the second check); a run that is still going has logged at
    most eight events per tick simulated, and a finished one at most one
    more, so no log is longer than [8 * max(0, maxTicks) + 1]. *)
Theorem log_grows_by_eight_per_tick sp n s :
  reachedIn COS SIN sp n s ->
  Z.of_nat (length (events s)) <= 8 * tick s + (if done s then 1 else 0) /\
  Z.of_nat (length (events s)) <= 8 * Z.max 0 (sim_maxTicks sp) + 1 /\
  appends 8 s (stepSim COS SIN s).
Proof.
  intros Hr. pose proof (size_reached _ _ _ Hr) as H.
  destruct (reachedIn_runInv _ _ _ _ _ Hr) as (_ & Ht & _).
  split; [exact H|]. split; [destruct (done s); lia|].
  destruct (stepSim_balls COS SIN s) as [(_ & evs & He & Hf)|(_ & He)].
  - destruct (done s) eqn:Hd.
    { apply appends_same. by rewrite stepSim_done. }
    destruct (bothAlive s) eqn:Hb.
    2:{ apply appends_same. by rewrite stepSim_eliminated. }
    destruct (Z_lt_le_dec (tick s) (sim_maxTicks (spec s))) as [Hlt|Hge].
    + rewrite stepSim_tick by assumption.
      destruct (settle_fields (afterTick COS SIN s)) as (_ & _ & E & _).
      eapply appends_ext; [exact E | apply afterTick_appends].
    + rewrite stepSim_timeout by assumption.
      destruct (timeoutWinner_frame s) as (_ & _ & Ee & _).
      forget (timeoutWinner s).1 w. forget (timeoutWinner s).2 s1.
      exists [EvTimeout (tick s) w]. split; [cbn; by rewrite Ee | cbn; lia].
  - eapply appends_ext; [exact He | apply afterTick_appends].
Qed.

(** ** What a hit check leaves alone *)

(** X14: what a hit check leaves alone.  [checkHit] never moves a
    combatant or turns a weapon, never touches the arena, the tick
    counter, the done flag or the winner, nor any constant of a
    combatant; of the attacker it changes the hit count and the damage
    dealt only (its velocity, health and alive flag stay), of the victim
    the health, the velocity and the alive flag only (its hit count and
    damage dealt stay).  A check that does not land returns the state as
    it is and draws nothing; one that lands calls the generator twice. *)
Theorem checkHit_leaves_alone s a :
  let s' := checkHit COS SIN s a in
  (lands COS SIN s a = false -> s' = s) /\
  (arena s' = arena s /\ tick s' = tick s /\ done s' = done s /\ winner s' = winner s) /\
  (forall c, statics (ball s' c) = statics (ball s c) /\
             theta (ball s' c) = theta (ball s c) /\ pos (ball s' c) = pos (ball s c)) /\
  (vel (ball s' a) = vel (ball s a) /\ hp (ball s' a) = hp (ball s a) /\
   alive (ball s' a) = alive (ball s a)) /\
  (hitCount (ball s' (other a)) = hitCount (ball s (other a)) /\
   damageDealt (ball s' (other a)) = damageDealt (ball s (other a))) /\
  rng s' = (if lands COS SIN s a then rng_step (rng_step (rng s)) else rng s).
Proof.
  cbv zeta.
  destruct (checkHit_draws COS SIN s a) as (Hr & Hp & Hv).
  destruct (checkHit_control COS SIN s a) as (_ & Ht & Hd & Hw).
  split; [apply checkHit_miss|].
  split; [split; [apply checkHit_arena | auto]|].
  split; [intros c; split; [apply checkHit_fixed | apply Hp]|].
  split; [split; [exact Hv|]; split;
          [apply checkHit_attacker_hp | apply checkHit_alive_attacker]|].
  split; [|exact Hr]. split; [apply checkHit_victim_hitCount|].
  destruct (lands COS SIN s a) eqn:Hl.
  - destruct (hit_victim _ _ _ (checkHit_hit COS SIN s a Hl))
      as (_ & _ & _ & _ & _ & _ & _ & E & _). exact E.
  - by rewrite checkHit_miss.
Qed.

End EngineSize.

(** ** The sample matches, run *)

(** The sample duel, four calls after its creation: the counter stands at
    the ceiling and the match is finished. *)
Lemma tick_never_exceeds_ceiling_witness :
  exists s0,
    createSim duel = Ok s0 /\
    let s := Nat.iter 4 (stepSim TrigRef.COS TrigRef.SIN) s0 in
    tick s <= sim_maxTicks duel /\
    ((Z.to_nat (sim_maxTicks duel) + 1 <= 4)%nat -> done s = true).
Proof.
  eexists. split; [vm_compute; reflexivity|].
  apply (tick_never_exceeds_ceiling TrigRef.COS TrigRef.SIN duel 4).
  - simpl. lia.
  - do 4 apply reached_step. apply reached_fresh. vm_compute. reflexivity.
Defined.

(** The sample duel at its ceiling: three ticks without a hit leave health
    and damage tied, and the draw decides. *)
Lemma timeout_resolves_by_ladder_witness :
  exists s0,
    createSim duel = Ok s0 /\
    let s := Nat.iter 3 (stepSim TrigRef.COS TrigRef.SIN) s0 in
    let s' := stepSim TrigRef.COS TrigRef.SIN s in
    done s' = true /\
    winner s' = Some (ladder (simA s) (simB s) (rng_next (rng s)).1) /\
    events s'
    = events s ++ [EvTimeout (tick s) (ladder (simA s) (simB s) (rng_next (rng s)).1)] /\
    tick s' = tick s /\ simA s' = simA s /\ simB s' = simB s /\
    rng s' = (if tied (simA s) (simB s) then (rng_next (rng s)).2 else rng s).
Proof.
  eexists. split; [vm_compute; reflexivity|].
  apply (timeout_resolves_by_ladder TrigRef.COS TrigRef.SIN duel 3).
  - do 3 apply reached_step. apply reached_fresh. vm_compute. reflexivity.
  - vm_compute. reflexivity.
  - vm_compute. discriminate.
Defined.

(** The ambush: A's first check lands and takes B's ten points of health. *)
Lemma lethal_hit_ends_match_in_its_tick_witness :
  exists s,
    createSim ambush = Ok s /\
    let s1 := atCheck TrigRef.COS TrigRef.SIN s IdA in
    let dmg := hitDamage (ball s1 IdA) (hitCount (ball s1 IdA) + 1) in
    let s2 := checkHit TrigRef.COS TrigRef.SIN s1 IdA in
    let s' := stepSim TrigRef.COS TrigRef.SIN s in
    (alive (ball s2 IdB) = false /\
     events s2 = events s1 ++ [EvHit (tick s) (id (ball s1 IdA)) (id (ball s1 IdB)) dmg;
                               EvDead (tick s) (id (ball s1 IdB))]) /\
    checkHit TrigRef.COS TrigRef.SIN s2 IdB = s2 /\
    (done s' = true /\ winner s' = Some IdA /\ tick s' = tick s + 1 /\
     events s' = events s2 /\ alive (ball s' IdB) = false /\
     alive (ball s' IdA) = true) /\
    stepSim TrigRef.COS TrigRef.SIN s' = s'.
Proof.
  eexists. split; [vm_compute; reflexivity|].
  apply (lethal_hit_ends_match_in_its_tick TrigRef.COS TrigRef.SIN _ IdA).
  - vm_compute. reflexivity.
  - vm_compute. reflexivity.
  - vm_compute. reflexivity.
  - vm_compute. reflexivity.
  - vm_compute. discriminate.
Defined.




(** Off the numbers two integers can share a text: 18446744073709552000
    is no binary64 number, and is printed as the number next to it,
    2^64. *)
Remark numString_off_the_numbers :
  JS.num 18446744073709552000 = 2 ^ 64 /\
  numString 18446744073709552000 = numString (2 ^ 64).
Proof. split; vm_compute; reflexivity. Qed.

(** Negative ties: [Math.round] takes -0.5 to 0 and -2.5 to -2, in the
    scaling of a vector and in the per-tick division alike, where rounding
    away from zero would give -1 and -3. *)
Lemma negative_ties_round_toward_zero :
  scaleVec (mkVec (-0.5)%float (-2.5)%float) 1 = mkVec 0 (-2) /\
  scaleVec (mkVec (-0.5)%float (-2.5)%float) 1 <> mkVec (-1) (-3) /\
  round_div (-1 * 500) 1000 = 0 /\
  round_div (-1 * 500) 1000 <> -1.
Proof. vm_compute. repeat split; discriminate. Qed.

(** A match that starts at health 0 and -3 runs its three ticks and ends
    by timeout, decided by health. *)
Lemma undead_runs_to_the_ceiling :
  exists s,
    runMatch TrigRef.COS TrigRef.SIN 10 undead = Ok (Some s) /\
    tick s = 3 /\ winner s = Some IdA /\
    canonicalEventsString (events s) = "3|timeout|A".
Proof. eexists. split; [vm_compute; reflexivity|]. vm_compute. repeat split. Qed.

Lemma alive_until_killed_by_a_hit_witness :
  exists s0,
    createSim undead = Ok s0 /\
    (alive (simA s0) = true /\ alive (simB s0) = true /\ done s0 = false /\
     hp (simA s0) = 0 /\ hp (simB s0) = -3) /\
    tick (stepSim TrigRef.COS TrigRef.SIN s0) = 1 /\
    done (stepSim TrigRef.COS TrigRef.SIN s0) = false.
Proof.
  eexists. split; [vm_compute; reflexivity|].
  match goal with |- context [stepSim _ _ ?s] => set (s0 := s) end.
  assert (H0 : createSim undead = Ok s0) by (vm_compute; reflexivity).
  destruct (alive_until_killed_by_a_hit TrigRef.COS TrigRef.SIN undead s0 H0)
    as (Hfresh & _ & Hrun).
  split; [exact Hfresh|].
  destruct (Hrun 0%nat s0 (reached_fresh _ _ _ _ H0)) as (_ & _ & Hstep);
    [vm_compute; reflexivity|].
  split; [apply Hstep; vm_compute; reflexivity | vm_compute; reflexivity].
Defined.

(** The sample duel: the mapping holds both weapon identifiers, and the
    loop ends in one state whatever its bound. *)
Lemma runner_loop_ends_witness :
  exists s,
    done s = true /\
    (forall fuel, (Z.to_nat (sim_maxTicks duel) + 1 <= fuel)%nat ->
       runMatch TrigRef.COS TrigRef.SIN fuel duel = Ok (Some s)) /\
    (forall fuel s1,
       runMatch TrigRef.COS TrigRef.SIN fuel duel = Ok (Some s1) -> s1 = s).
Proof.
  apply (runner_loop_ends TrigRef.COS TrigRef.SIN duel).
  - vm_compute. eexists. reflexivity.
  - vm_compute. eexists. reflexivity.
Defined.

(** What the guard on coincident centres keeps away from the helper:
    at 0 the quotient of the source is the float infinity. *)
Remark approxInvSqrt_at_zero : approxInvSqrt 0 = infinity.
Proof. vm_compute. reflexivity. Qed.


(** The sample duel after two ticks, seen from A. *)
Lemma angle_stays_in_table_witness :
  exists s0,
    createSim duel = Ok s0 /\
    let s := Nat.iter 2 (stepSim TrigRef.COS TrigRef.SIN) s0 in
    0 <= theta (ball s IdA) < ANGLE_FULL /\
    exists s1, createSim duel = Ok s1 /\
      omega (ball s IdA) = omega (ball s1 IdA) /\
      theta (ball s IdA)
      = (theta (ball s1 IdA) + tick s * omega (ball s1 IdA)) mod ANGLE_FULL.
Proof.
  eexists. split; [vm_compute; reflexivity|].
  apply (angle_stays_in_table TrigRef.COS TrigRef.SIN duel 2).
  do 2 apply reached_step. apply reached_fresh. vm_compute. reflexivity.
Defined.



(** The sample duel, finished. *)
Lemma log_is_ordered_by_tick_witness :
  exists s0,
    createSim duel = Ok s0 /\
    let s := Nat.iter 4 (stepSim TrigRef.COS TrigRef.SIN) s0 in
    tickOrdered (events s) /\
    Forall (fun e => 0 <= eventTick e <= tick s) (events s) /\
    (done s = false -> Forall (fun e => eventTick e < tick s) (events s)) /\
    exists evs, events (stepSim TrigRef.COS TrigRef.SIN s) = events s ++ evs /\
                Forall (fun e => eventTick e = tick s) evs.
Proof.
  eexists. split; [vm_compute; reflexivity|].
  apply (log_is_ordered_by_tick TrigRef.COS TrigRef.SIN duel 4).
  do 4 apply reached_step. apply reached_fresh. vm_compute. reflexivity.
Defined.

(** The ambush after its only tick: A has won. *)
Lemma finished_match_has_one_verdict_witness :
  exists s0,
    createSim ambush = Ok s0 /\
    let s := Nat.iter 1 (stepSim TrigRef.COS TrigRef.SIN) s0 in
    (done s = false <-> winner s = None) /\
    (done s = false -> alive (simA s) = true /\ alive (simB s) = true) /\
    (forall w, winner s = Some w ->
       alive (ball s w) = true /\
       ((alive (ball s (other w)) = false /\
         exists pre dmg,
           events s = pre ++ [EvHit (tick s - 1) (id (ball s w)) (id (ball s (other w))) dmg;
                              EvDead (tick s - 1) (id (ball s (other w)))]) \/
        (alive (ball s (other w)) = true /\ tick s = Z.max 0 (sim_maxTicks ambush) /\
         exists pre, events s = pre ++ [EvTimeout (tick s) w]))).
Proof.
  eexists. split; [vm_compute; reflexivity|].
  apply (finished_match_has_one_verdict TrigRef.COS TrigRef.SIN ambush 1).
  apply reached_step. apply reached_fresh. vm_compute. reflexivity.
Defined.

(** The sample duel, finished by the draw of a tied timeout. *)
Lemma stream_position_witness :
  exists s0,
    createSim duel = Ok s0 /\
    let s := Nat.iter 4 (stepSim TrigRef.COS TrigRef.SIN) s0 in
    draws s = 2 * (hitCount (simA s) + hitCount (simB s)) + tieDraw s /\
    0 <= draws s /\
    rng s = Nat.iter (Z.to_nat (draws s)) rng_step (mulberry32 (seed duel)) /\
    (mulberry32 (seed duel) + rngStride * draws s <= 2 ^ 53 ->
     rng s = mulberry32 (seed duel) + rngStride * draws s).
Proof.
  eexists. split; [vm_compute; reflexivity|].
  apply (stream_position TrigRef.COS TrigRef.SIN duel 4).
  do 4 apply reached_step. apply reached_fresh. vm_compute. reflexivity.
Defined.

(** A run whose log reads [3|timeout|A] has logged that one event: the
    ticks of both are numbers. *)
Lemma canonicalEventsString_determines_events_witness :
  exists s,
    runMatch TrigRef.COS TrigRef.SIN 10 undead = Ok (Some s) /\
    events s = [EvTimeout 3 IdA].
Proof.
  eexists. split; [vm_compute; reflexivity|].
  apply canonicalEventsString_determines_events.
  - cbn [events]. repeat constructor; vm_compute; reflexivity.
  - repeat constructor; vm_compute; reflexivity.
  - vm_compute. reflexivity.
Defined.

(** The sample duel at its ceiling. *)
Lemma run_keeps_its_constants_witness :
  exists s0,
    createSim duel = Ok s0 /\
    let s := Nat.iter 3 (stepSim TrigRef.COS TrigRef.SIN) s0 in
    arena s
    = (duel, sim_scale duel,
       JS.Math_round (arena_w duel * JS.of_Z (sim_scale duel))%float,
       JS.Math_round (arena_h duel * JS.of_Z (sim_scale duel))%float,
       arena_wallRestitution duel) /\
    forall c, exists w,
      weapons duel !! b_weaponId (ballSpec duel c) = Some w /\
      statics (ball s c)
      = (b_id (ballSpec duel c),
         JS.Math_round (b_radius (ballSpec duel c) * JS.of_Z (sim_scale duel))%float,
         w_omega w,
         JS.Math_round (w_reach w * JS.of_Z (sim_scale duel))%float,
         JS.Math_round (w_tipRadius w * JS.of_Z (sim_scale duel))%float,
         w_baseDamage w, w_ramp w, w_speedMult w,
         default 1000 (b_restitution (ballSpec duel c))).
Proof.
  eexists. split; [vm_compute; reflexivity|].
  apply (run_keeps_its_constants TrigRef.COS TrigRef.SIN duel 3).
  do 3 apply reached_step. apply reached_fresh. vm_compute. reflexivity.
Defined.

(** The duel and its rematch run alike. *)
Lemma run_reads_seed_modulo_2_32_witness :
  (forall msg, createSim duel = Throw msg -> createSim rematch = Throw msg) /\
  (forall s0, createSim duel = Ok s0 ->
     exists s0', createSim rematch = Ok s0' /\
       forall k,
         let s := Nat.iter k (stepSim TrigRef.COS TrigRef.SIN) s0 in
         let s' := Nat.iter k (stepSim TrigRef.COS TrigRef.SIN) s0' in
         events s' = events s /\ winner s' = winner s /\ done s' = done s /\
         tick s' = tick s /\ simA s' = simA s /\ simB s' = simB s /\ rng s' = rng s) /\
  (createSim duel = Malformed -> createSim rematch = Malformed).
Proof.
  apply (run_reads_seed_modulo_2_32 TrigRef.COS TrigRef.SIN duel rematch).
  unfold sameMatch. repeat split; vm_compute; reflexivity.
Defined.

(** The duel without a label and the duel labelled ["none"]. *)
Lemma canonicalInputs_fix_the_run_witness :
  default "none" (weaponSetVersion duel) = default "none" (weaponSetVersion labelled) /\
  (forall msg, createSim duel = Throw msg -> createSim labelled = Throw msg) /\
  (forall s0, createSim duel = Ok s0 ->
     exists s0', createSim labelled = Ok s0' /\
       forall k,
         let s := Nat.iter k (stepSim TrigRef.COS TrigRef.SIN) s0 in
         let s' := Nat.iter k (stepSim TrigRef.COS TrigRef.SIN) s0' in
         events s' = events s /\ winner s' = winner s /\ done s' = done s /\
         tick s' = tick s /\ simA s' = simA s /\ simB s' = simB s /\ rng s' = rng s) /\
  (createSim duel = Malformed -> createSim labelled = Malformed).
Proof.
  apply (canonicalInputs_fix_the_run TrigRef.COS TrigRef.SIN duel labelled).
  reflexivity.
Defined.

(** The sample duel, finished: one timeout line after three quiet ticks. *)
Lemma log_grows_by_eight_per_tick_witness :
  exists s0,
    createSim duel = Ok s0 /\
    let s := Nat.iter 4 (stepSim TrigRef.COS TrigRef.SIN) s0 in
    Z.of_nat (length (events s)) <= 8 * tick s + (if done s then 1 else 0) /\
    Z.of_nat (length (events s)) <= 8 * Z.max 0 (sim_maxTicks duel) + 1 /\
    appends 8 s (stepSim TrigRef.COS TrigRef.SIN s).
Proof.
  eexists. split; [vm_compute; reflexivity|].
  apply (log_grows_by_eight_per_tick TrigRef.COS TrigRef.SIN duel 4).
  do 4 apply reached_step. apply reached_fresh. vm_compute. reflexivity.
Defined.
